(** * A shallow embedding of the bittorrentclient packages

    The development follows the Go packages [bencode], [torrent], [peer]
    and [client].  Go's [int] is the 64-bit signed integer of the targets
    the Makefile builds (amd64, arm64); it is a [Z] whose wrap-around is
    written out where an operation can overflow.  A Go [string] is a
    [string], a [[]byte] is a list of [ascii] (one [ascii] is one byte), a
    [map[string]interface{}] is a [gmap string value]. *)

From stdpp Require Import gmap strings list fin_maps sorting.
From Stdlib Require Import ZArith Ascii Lia.

Set Warnings "-register-all".

Abbreviation bytes := (list ascii).

(** ** Results of fallible Go code

    [Ok] is a nil error, [Err] carries the text of the Go [error], [Panic]
    is a run-time panic, and [OutOfFuel] is the embedding's own answer when
    a bounded recursion of the model ran out of steps. *)
Inductive result (A : Type) : Type :=
| Ok (a : A)
| Err (msg : string)
| Panic (msg : string)
| OutOfFuel.
Arguments Ok {A} a.
Arguments Err {A} msg.
Arguments Panic {A} msg.
Arguments OutOfFuel {A}.

#[global] Instance result_ret : MRet result := @Ok.
#[global] Instance result_bind : MBind result := fun A B f m =>
  match m with
  | Ok a => f a
  | Err e => Err e
  | Panic e => Panic e
  | OutOfFuel => OutOfFuel
  end.

Definition is_Ok {A} (r : result A) : Prop := exists a, r = Ok a.
Definition is_Err {A} (r : result A) : Prop := exists e, r = Err e.

(** ** The Go standard library, as far as the packages use it *)
Module golib.

Definition minInt64 : Z := (- 2 ^ 63)%Z.
Definition maxInt64 : Z := (2 ^ 63 - 1)%Z.
Definition inInt64 (z : Z) : Prop := (minInt64 <= z <= maxInt64)%Z.

(** Two's complement wrap-around of 64-bit signed arithmetic. *)
Definition wrap64 (z : Z) : Z := ((z + 2 ^ 63) mod 2 ^ 64 - 2 ^ 63)%Z.

Definition byteVal (c : ascii) : Z := Z.of_N (N_of_ascii c).
Definition byteOf (z : Z) : ascii := ascii_of_N (Z.to_N (z mod 256)).

Definition len {A} (l : list A) : Z := Z.of_nat (length l).

(** [s[lo:hi]] on a slice: panics unless [0 <= lo <= hi <= len(s)]. *)
Definition slice {A} (s : list A) (lo hi : Z) : result (list A) :=
  if ((0 <=? lo) && (lo <=? hi) && (hi <=? len s))%Z
  then Ok (take (Z.to_nat (hi - lo)) (drop (Z.to_nat lo) s))
  else Panic "slice bounds out of range".

(** [copy(dst, src)]: overwrites the first [min(len dst, len src)]
    elements of [dst]; returns the updated [dst]. *)
Definition copy {A} (dst src : list A) : list A :=
  take (length dst) src ++ drop (length src) dst.

(** *** strconv *)

Definition digitChar (d : Z) : ascii := ascii_of_nat (48 + Z.to_nat d).

Definition digitVal (c : ascii) : option Z :=
  let n := byteVal c in
  if ((48 <=? n) && (n <=? 57))%Z then Some (n - 48)%Z else None.

(** The digits of [u], least significant first, pushed in front of
    [acc] (strconv's formatBits fills its buffer from the right). *)
Fixpoint formatBits (fuel : nat) (u : Z) (acc : string) : string :=
  match fuel with
  | O => acc
  | S fuel' =>
      let acc' := String (digitChar (u mod 10)) acc in
      if (u <? 10)%Z then acc' else formatBits fuel' (u / 10) acc'
  end.

(** [strconv.FormatInt(v, 10)]. *)
Definition FormatInt (v : Z) : string :=
  if (v <? 0)%Z
  then String "-" (formatBits (S (Z.to_nat (Z.log2 (- v)))) (- v) "")
  else formatBits (S (Z.to_nat (Z.log2 v))) v "".

(** [strconv.Itoa(v)] is [FormatInt(int64(v), 10)]. *)
Definition Itoa (v : Z) : string := FormatInt v.

Fixpoint parseDigits (s : string) (acc : Z) : option Z :=
  match s with
  | EmptyString => Some acc
  | String c s' =>
      match digitVal c with
      | Some d => parseDigits s' (10 * acc + d)%Z
      | None => None
      end
  end.

(** [strconv.ParseInt(s, 10, 64)]; [None] is a non-nil error (syntax or
    range).  An optional sign, then one or more decimal digits; base 10
    takes no underscores and no prefix. *)
Definition ParseInt (s : string) : option Z :=
  match s with
  | EmptyString => None
  | String c rest =>
      let '(neg, body) :=
        if decide (c = "+"%char) then (false, rest)
        else if decide (c = "-"%char) then (true, rest)
        else (false, s) in
      match body with
      | EmptyString => None
      | _ =>
          match parseDigits body 0 with
          | None => None
          | Some un =>
              if negb neg && (2 ^ 63 <=? un)%Z then None
              else if neg && (2 ^ 63 <? un)%Z then None
              else Some (if neg then (- un)%Z else un)
          end
      end
  end.

(** [strconv.Atoi(s)]: the same language and range on a 64-bit [int]. *)
Definition Atoi (s : string) : option Z := ParseInt s.

(** *** sort *)

(** [sort.Strings]: ascending order of Go's [<] on strings, which
    compares byte by byte. *)
Definition sortStrings (keys : list string) : list string :=
  merge_sort String.le keys.

(** *** encoding/binary *)

Definition BigEndian_Uint16 (b : bytes) : result Z :=
  match b with
  | b0 :: b1 :: _ => Ok (Z.lor (byteVal b1) (Z.shiftl (byteVal b0) 8))
  | _ => Panic "index out of range"
  end.

Definition BigEndian_Uint32 (b : bytes) : result Z :=
  match b with
  | b0 :: b1 :: b2 :: b3 :: _ =>
      Ok (Z.lor (Z.lor (Z.lor (byteVal b3) (Z.shiftl (byteVal b2) 8))
                       (Z.shiftl (byteVal b1) 16))
                (Z.shiftl (byteVal b0) 24))
  | _ => Panic "index out of range"
  end.

End golib.

(** ** Package bencode *)
Module bencode.
Import golib.

(** The dynamic values an [interface{}] holds in this program.  [Encode]
    switches on the dynamic type, so each Go type it names is a
    constructor of its own; [VOther ty] is a value of any other type,
    [ty] being what [%T] prints for it.  A nil slice and a nil map are
    values of their own, apart from the empty ones that [make] or a
    literal gives; a [[]byte] is only ever read through [len] and its
    bytes, so its nil and its empty slice are one [VBytes []]. *)
Inductive value : Type :=
| VString (s : string)              (* string *)
| VBytes (b : bytes)                (* []byte *)
| VInt (n : Z)                      (* int *)
| VInt64 (n : Z)                    (* int64 *)
| VList (l : list value)            (* []interface{}, not nil *)
| VNilList                          (* []interface{}(nil) *)
| VDict (m : gmap string value)     (* map[string]interface{}, not nil *)
| VNilDict                          (* map[string]interface{}(nil) *)
| VOther (ty : string).

(** The slice a loop built with [var list []interface{}] and [append]:
    nil as long as nothing was appended. *)
Definition appended (l : list value) : value :=
  match l with
  | [] => VNilList
  | _ => VList l
  end.

Definition ErrInvalidInput : string := "invalid bencode input".
Definition ErrUnexpectedEnd : string := "unexpected end of input".

(** *** Writing to the [bytes.Buffer] *)
Definition WriteString (buf : bytes) (s : string) : bytes :=
  buf ++ String.list_ascii_of_string s.
Definition WriteByte (buf : bytes) (c : ascii) : bytes := buf ++ [c].
Definition Write (buf : bytes) (p : bytes) : bytes := buf ++ p.

(** The [case string] arm of [encode]. *)
Definition encodeString (v : string) (buf : bytes) : bytes :=
  let buf := WriteString buf (Itoa (Z.of_nat (String.length v))) in
  let buf := WriteByte buf ":" in
  WriteString buf v.

(** The keys of a map as [for key := range v] collects them.  Go leaves
    the order open; the model takes the one of [map_to_list], and
    [sortStrings] makes the result independent of it. *)
Definition rangeKeys {A} (v : gmap string A) : list string :=
  (map_to_list v).*1.

(** [encode(buf, data)]: the buffer is threaded through, and an error
    leaves the loop at once. *)
Fixpoint encode (data : value) (buf : bytes) {struct data} : result bytes :=
  match data with
  | VString v => Ok (encodeString v buf)
  | VBytes v =>
      let buf := WriteString buf (Itoa (len v)) in
      let buf := WriteByte buf ":" in
      Ok (Write buf v)
  | VInt v =>
      let buf := WriteByte buf "i" in
      let buf := WriteString buf (Itoa v) in
      Ok (WriteByte buf "e")
  | VInt64 v =>
      let buf := WriteByte buf "i" in
      let buf := WriteString buf (FormatInt v) in
      Ok (WriteByte buf "e")
  | VList v =>
      buf ← foldl (fun acc item => buf ← acc; encode item buf)
                  (Ok (WriteByte buf "l")) v;
      Ok (WriteByte buf "e")
  | VNilList =>
      (* the loop over a nil slice has no turn *)
      let buf := WriteByte buf "l" in
      Ok (WriteByte buf "e")
  | VDict v =>
      let keys := sortStrings (rangeKeys v) in
      let items := encode <$> v in
      buf ← foldl (fun acc key =>
                     buf ← acc;
                     let buf := encodeString key buf in
                     match items !! key with
                     | Some enc => enc buf
                     | None => Err "unsupported type: <nil>"
                     end)
                  (Ok (WriteByte buf "d")) keys;
      Ok (WriteByte buf "e")
  | VNilDict =>
      (* a nil map has no keys *)
      let buf := WriteByte buf "d" in
      Ok (WriteByte buf "e")
  | VOther ty => Err ("unsupported type: " +:+ ty)
  end.

Definition Encode (data : value) : result bytes := encode data [].

(** *** Decoding *)

(** The first index [>= pos] that holds [c], or the first index past the
    data: the loops [for i < len(data) && data[i] != c { i++ }]. *)
Fixpoint indexFrom (c : ascii) (l : bytes) (pos : nat) : nat :=
  match l with
  | [] => pos
  | x :: l' => if decide (x = c) then pos else indexFrom c l' (S pos)
  end.
Definition scanTo (c : ascii) (data : bytes) (pos : nat) : nat :=
  indexFrom c (drop pos data) pos.

(** [string(data[lo:hi])] for [lo <= hi <= len(data)]. *)
Definition substr (data : bytes) (lo hi : nat) : string :=
  String.string_of_list_ascii (take (hi - lo) (drop lo data)).

Definition decodeInt (data : bytes) (start : nat) : result (value * nat) :=
  if decide (data !! start = Some "i"%char) then
    let end_ := scanTo "e" data (start + 1) in
    if decide (length data <= end_) then Err ErrUnexpectedEnd
    else
      let numStr := substr data (start + 1) end_ in
      match ParseInt numStr with
      | None => Err ("invalid integer: " +:+ numStr)
      | Some num => Ok (VInt num, end_ + 1)
      end
  else Err ErrInvalidInput.

(** [colon+1+length] is computed on [int]: a length close to the largest
    [int] wraps the sum around to a negative end, which passes the
    comparison with [len(data)] and panics in the slice expression. *)
Definition decodeString (data : bytes) (start : nat) : result (value * nat) :=
  let colon := scanTo ":" data start in
  if decide (length data <= colon) then Err ErrUnexpectedEnd
  else
    let lengthStr := substr data start colon in
    match Atoi lengthStr with
    | None => Err ("invalid string length: " +:+ lengthStr)
    | Some length_ =>
        let end_ := wrap64 (Z.of_nat colon + 1 + length_) in
        if (len data <? end_)%Z then Err ErrUnexpectedEnd
        else
          str ← slice data (Z.of_nat colon + 1) end_;
          Ok (VString (String.string_of_list_ascii str), Z.to_nat end_)
    end.

Section loops.
(** The mutual recursion of [decode] with [decodeList] and
    [decodeDict] goes through [dec]; [n] bounds the iterations of the
    loop. *)
Variable dec : bytes -> nat -> result (value * nat).

Fixpoint decodeListLoop (n : nat) (data : bytes) (pos : nat)
    (list_ : list value) : result (value * nat) :=
  match n with
  | O => OutOfFuel
  | S n' =>
      match data !! pos with
      | None => Err ErrUnexpectedEnd
      | Some c =>
          if decide (c = "e"%char) then Ok (appended list_, pos + 1)
          else
            '(item, newPos) ← dec data pos;
            decodeListLoop n' data newPos (list_ ++ [item])
      end
  end.

Definition decodeList (data : bytes) (start : nat) : result (value * nat) :=
  if decide (data !! start = Some "l"%char)
  then decodeListLoop (length data) data (start + 1) []
  else Err ErrInvalidInput.

Fixpoint decodeDictLoop (n : nat) (data : bytes) (pos : nat)
    (dict : gmap string value) : result (value * nat) :=
  match n with
  | O => OutOfFuel
  | S n' =>
      match data !! pos with
      | None => Err ErrUnexpectedEnd
      | Some c =>
          if decide (c = "e"%char) then Ok (VDict dict, pos + 1)
          else
            '(key, newPos) ← dec data pos;
            match key with
            | VString keyStr =>
                '(value_, newPos) ← dec data newPos;
                decodeDictLoop n' data newPos (<[keyStr := value_]> dict)
            | _ => Err "dictionary key must be a string"
            end
      end
  end.

Definition decodeDict (data : bytes) (start : nat) : result (value * nat) :=
  if decide (data !! start = Some "d"%char)
  then decodeDictLoop (length data) data (start + 1) ∅
  else Err ErrInvalidInput.
End loops.

Definition isDigit (c : ascii) : bool :=
  let n := byteVal c in ((48 <=? n) && (n <=? 57))%Z.

(** [fuel] bounds the nesting depth of the recursion. *)
Fixpoint decode (fuel : nat) (data : bytes) (start : nat)
    : result (value * nat) :=
  match fuel with
  | O => OutOfFuel
  | S fuel' =>
      match data !! start with
      | None => Err ErrUnexpectedEnd
      | Some c =>
          if decide (c = "i"%char) then decodeInt data start
          else if decide (c = "l"%char) then decodeList (decode fuel') data start
          else if decide (c = "d"%char) then decodeDict (decode fuel') data start
          else if isDigit c then decodeString data start
          else Err ErrInvalidInput
      end
  end.

(** A value nested [d] deep takes [d] bytes to open, so the length of
    the input is fuel enough (lemma [Decode_fuel]). *)
Definition Decode (data : bytes) : result value :=
  '(result_, _) ← decode (S (length data)) data 0;
  Ok result_.

Definition bs (s : string) : bytes := String.list_ascii_of_string s.

End bencode.


(** ** crypto/sha1

    [sha1.Sum] after FIPS 180-4, on 32-bit words held in [Z]. *)
Module sha1.
Import golib.

Definition mask32 (x : Z) : Z := (x mod 2 ^ 32)%Z.
Definition add32 (x y : Z) : Z := mask32 (x + y).
Definition not32 (x : Z) : Z := Z.lxor x (2 ^ 32 - 1).
Definition rotl (n x : Z) : Z :=
  Z.lor (mask32 (Z.shiftl x n)) (Z.shiftr x (32 - n)).

Definition be32 (b0 b1 b2 b3 : ascii) : Z :=
  Z.lor (Z.lor (Z.lor (byteVal b3) (Z.shiftl (byteVal b2) 8))
               (Z.shiftl (byteVal b1) 16))
        (Z.shiftl (byteVal b0) 24).

Definition putBE (nbytes : nat) (x : Z) : bytes :=
  (fun i => byteOf (Z.shiftr x (8 * Z.of_nat (nbytes - 1 - i)))) <$> seq 0 nbytes.

(** The message, the byte 0x80, zeros up to 56 modulo 64, and the
    length in bits on 8 bytes. *)
Definition pad (msg : bytes) : bytes :=
  let n := length msg in
  let zeros := (64 + 55 - n mod 64) mod 64 in
  msg ++ [byteOf 128] ++ replicate zeros (byteOf 0)
      ++ putBE 8 (8 * Z.of_nat n).

Fixpoint words (block : bytes) : list Z :=
  match block with
  | b0 :: b1 :: b2 :: b3 :: rest => be32 b0 b1 b2 b3 :: words rest
  | _ => []
  end.

(** The message schedule, newest word first. *)
Fixpoint schedule (n : nat) (w : list Z) : list Z :=
  match n with
  | O => w
  | S n' =>
      let x := Z.lxor (Z.lxor (Z.lxor (w !!! 2) (w !!! 7)) (w !!! 13)) (w !!! 15) in
      schedule n' (rotl 1 x :: w)
  end.

Definition state : Type := Z * Z * Z * Z * Z.

Definition round (t : nat) (wt : Z) (s : state) : state :=
  let '(a, b, c, d, e) := s in
  let '(f, k) :=
    if decide (t < 20) then
      (Z.lor (Z.land b c) (Z.land (not32 b) d), 1518500249%Z)
    else if decide (t < 40) then
      (Z.lxor (Z.lxor b c) d, 1859775393%Z)
    else if decide (t < 60) then
      (Z.lor (Z.lor (Z.land b c) (Z.land b d)) (Z.land c d), 2400959708%Z)
    else
      (Z.lxor (Z.lxor b c) d, 3395469782%Z) in
  let temp := add32 (add32 (add32 (add32 (rotl 5 a) f) e) k) wt in
  (temp, a, rotl 30 b, c, d).

Definition block (h : state) (blk : bytes) : state :=
  let w := reverse (schedule 64 (reverse (words blk))) in
  let '(a, b, c, d, e) :=
    foldl (fun s tw => round (fst tw) (snd tw) s) h (zip (seq 0 80) w) in
  let '(h0, h1, h2, h3, h4) := h in
  (add32 h0 a, add32 h1 b, add32 h2 c, add32 h3 d, add32 h4 e).

Fixpoint blocks (n : nat) (h : state) (data : bytes) : state :=
  match n with
  | O => h
  | S n' => blocks n' (block h (take 64 data)) (drop 64 data)
  end.

Definition init : state :=
  (1732584193, 4023233417, 2562383102, 271733878, 3285377520)%Z.

Definition Sum (data : bytes) : bytes :=
  let p := pad data in
  let '(h0, h1, h2, h3, h4) := blocks (length p / 64) init p in
  putBE 4 h0 ++ putBE 4 h1 ++ putBE 4 h2 ++ putBE 4 h3 ++ putBE 4 h4.

End sha1.

(** ** Package torrent *)
Module torrent.
Import golib bencode.

Record TorrentFile : Type := mkTorrentFile {
  Announce : string;
  InfoHash : bytes;              (* [20]byte *)
  PieceHashes : list bytes;      (* [][20]byte *)
  PieceLength : Z;
  Length : Z;
  Name : string
}.

Record Peer : Type := mkPeer {
  IP : bytes;                    (* net.IP *)
  Port : Z                       (* uint16 *)
}.

(** Type assertions [x.(string)], [x.(int)] and
    [x.(map[string]interface{})] on the result of a map index; a missing
    key gives the nil interface, on which every assertion fails. *)
Definition asString (x : option value) : option string :=
  match x with Some (VString s) => Some s | _ => None end.
Definition asInt (x : option value) : option Z :=
  match x with Some (VInt n) => Some n | _ => None end.
Definition asDict (x : option value) : option (gmap string value) :=
  match x with
  | Some (VDict m) => Some m
  | Some VNilDict => Some ∅      (* a nil map reads as an empty one *)
  | _ => None
  end.

Definition orErr {A} (x : option A) (msg : string) : result A :=
  match x with Some a => Ok a | None => Err msg end.

Definition zeroHash : bytes := replicate 20 (byteOf 0).

(** One turn of the loop over the pieces:
    [copy(pieceHashes[i][:], pieces[i*20:(i+1)*20])]. *)
Definition copyPieceHash (pieces : bytes) (pieceHashes : list bytes) (i : nat)
    : result (list bytes) :=
  src ← slice pieces (Z.of_nat i * 20) ((Z.of_nat i + 1) * 20);
  match pieceHashes !! i with
  | Some dst => Ok (<[i := copy dst src]> pieceHashes)
  | None => Panic "index out of range"
  end.

Definition parseTorrentDict (dict : gmap string value) : result TorrentFile :=
  announce ← orErr (asString (dict !! "announce"))
                   "missing or invalid announce URL";
  infoDict ← orErr (asDict (dict !! "info"))
                   "missing or invalid info dictionary";
  pieces ← orErr (asString (infoDict !! "pieces"))
                 "missing or invalid pieces";
  pieceLength ← orErr (asInt (infoDict !! "piece length"))
                      "missing or invalid piece length";
  length_ ← orErr (asInt (infoDict !! "length"))
                  "missing or invalid length";
  name ← orErr (asString (infoDict !! "name"))
               "missing or invalid name";
  if decide (Z.rem (Z.of_nat (String.length pieces)) 20 ≠ 0)%Z
  then Err "invalid pieces length (must be multiple of 20)"
  else
    let numPieces := Z.to_nat (Z.quot (Z.of_nat (String.length pieces)) 20) in
    let pieceHashes := replicate numPieces zeroHash in
    pieceHashes ← foldl (fun acc i =>
                           hs ← acc;
                           copyPieceHash (String.list_ascii_of_string pieces) hs i)
                        (Ok pieceHashes) (seq 0 numPieces);
    Ok {| Announce := announce;
          InfoHash := zeroHash;
          PieceHashes := pieceHashes;
          PieceLength := pieceLength;
          Length := length_;
          Name := name |}.

Definition withInfoHash (t : TorrentFile) (h : bytes) : TorrentFile :=
  {| Announce := Announce t; InfoHash := h; PieceHashes := PieceHashes t;
     PieceLength := PieceLength t; Length := Length t; Name := Name t |}.

Definition Parse (data : bytes) : result TorrentFile :=
  match Decode data with
  | Err e => Err ("failed to decode torrent: " +:+ e)
  | Panic e => Panic e
  | OutOfFuel => OutOfFuel
  | Ok decoded =>
      match asDict (Some decoded) with
      | Some torrentDict =>
          torrent ← parseTorrentDict torrentDict;
          match torrentDict !! "info" with
          | None => Err "missing info dictionary"
          | Some infoDict =>
              match Encode infoDict with
              | Err e => Err ("failed to encode info dict: " +:+ e)
              | Panic e => Panic e
              | OutOfFuel => OutOfFuel
              | Ok infoEncoded => Ok (withInfoHash torrent (sha1.Sum infoEncoded))
              end
          end
      | None => Err "torrent file must be a dictionary"
      end
  end.

(** One turn of the loop of [parsePeers]. *)
Definition parsePeer (peersData : bytes) (peers : list Peer) (i : nat)
    : result (list Peer) :=
  let offset := (Z.of_nat i * 6)%Z in
  ip ← slice peersData offset (offset + 4);
  portBytes ← slice peersData (offset + 4) (offset + 6);
  port ← BigEndian_Uint16 portBytes;
  if decide (i < length peers)
  then Ok (<[i := {| IP := ip; Port := port |}]> peers)
  else Panic "index out of range".

Definition parsePeers (peersData : bytes) : result (list Peer) :=
  let peerSize := 6%Z in
  if decide (Z.rem (len peersData) peerSize ≠ 0)%Z
  then Err ("invalid peers data length: " +:+ Itoa (len peersData)
            +:+ " (must be multiple of " +:+ Itoa peerSize +:+ ")")
  else
    let numPeers := Z.to_nat (Z.quot (len peersData) peerSize) in
    let peers := replicate numPeers {| IP := []; Port := 0 |} in
    foldl (fun acc i => peers ← acc; parsePeer peersData peers i)
          (Ok peers) (seq 0 numPeers).

(** *** The tracker exchange *)

Record TrackerResponse : Type := mkTrackerResponse {
  Interval : Z;
  Peers : list Peer
}.

(** The HTTP response as [RequestPeers] uses it.  [Read] is the one call
    of [resp.Body.Read(body)]: from the buffer it is given to the buffer
    as the call leaves it, and the error it returns ([None] is nil). *)
Record Response : Type := mkResponse {
  StatusCode : Z;
  ContentLength : Z;             (* int64 *)
  Read : bytes -> bytes * option string
}.

Definition StatusOK : Z := 200.

(** [RequestPeers]; the two calls that leave the process are its
    arguments: [url] is what [BuildTrackerURL] returned, and [get] is
    [client.Get]. *)
Definition RequestPeers (url : result string) (get : string -> result Response)
    : result TrackerResponse :=
  match url with
  | Err e => Err ("failed to build tracker URL: " +:+ e)
  | Panic e => Panic e
  | OutOfFuel => OutOfFuel
  | Ok url =>
      match get url with
      | Err e => Err ("failed to contact tracker: " +:+ e)
      | Panic e => Panic e
      | OutOfFuel => OutOfFuel
      | Ok resp =>
          if decide (StatusCode resp ≠ StatusOK)
          then Err ("tracker returned HTTP " +:+ Itoa (StatusCode resp))
          else if decide (ContentLength resp < 0)%Z
          then Panic "makeslice: len out of range"
          else
            let body := replicate (Z.to_nat (ContentLength resp)) (byteOf 0) in
            let '(body, err) := Read resp body in
            match err with
            | Some e => Err ("failed to read tracker response: " +:+ e)
            | None =>
                match Decode body with
                | Err e => Err ("failed to decode tracker response: " +:+ e)
                | Panic e => Panic e
                | OutOfFuel => OutOfFuel
                | Ok decoded =>
                    match asDict (Some decoded) with
                    | Some responseDict =>
                        match asString (responseDict !! "failure reason") with
                        | Some reason => Err ("tracker error: " +:+ reason)
                        | None =>
                            interval ← orErr (asInt (responseDict !! "interval"))
                              "missing or invalid interval in tracker response";
                            peersData ← orErr (asString (responseDict !! "peers"))
                              "missing or invalid peers in tracker response";
                            match parsePeers (String.list_ascii_of_string peersData) with
                            | Err e => Err ("failed to parse peers: " +:+ e)
                            | Panic e => Panic e
                            | OutOfFuel => OutOfFuel
                            | Ok peers =>
                                Ok {| Interval := interval; Peers := peers |}
                            end
                        end
                    | None => Err "tracker response is not a dictionary"
                    end
                end
            end
      end
  end.

End torrent.

(** ** Package peer *)
Module peer.
Import golib.

Record Message : Type := mkMessage {
  ID : Z;                        (* MessageID, a uint8 *)
  Payload : bytes
}.

Definition MsgChoke : Z := 0.
Definition MsgUnchoke : Z := 1.
Definition MsgInterested : Z := 2.
Definition MsgNotInterested : Z := 3.
Definition MsgHave : Z := 4.
Definition MsgBitfield : Z := 5.
Definition MsgRequest : Z := 6.
Definition MsgPiece : Z := 7.
Definition MsgCancel : Z := 8.

(** Modelled from the spec: [ParsePieceMessage] is declared in the
    package's message file, which is not among the sources.  A piece
    payload is a 4-byte big-endian index, a 4-byte big-endian begin and
    the block; the parser rejects a payload too short for the two words
    and one whose index is not the expected piece. *)
Definition ParsePieceMessage (index : Z) (buf : bytes) : result (Z * bytes) :=
  if decide (len buf < 8)%Z then Err "piece payload too short"
  else
    parsedIndex ← BigEndian_Uint32 (take 4 buf);
    if decide (parsedIndex ≠ index) then Err "unexpected piece index"
    else
      begin ← BigEndian_Uint32 (take 4 (drop 4 buf));
      Ok (begin, drop 8 buf).

(** Modelled from the spec: [ParseHaveMessage] is declared in the same
    missing file.  A have payload is exactly one 4-byte big-endian
    index. *)
Definition ParseHaveMessage (buf : bytes) : result Z :=
  if decide (len buf ≠ 4)%Z then Err "have payload of the wrong length"
  else BigEndian_Uint32 buf.

(** Modelled from the spec: [Bitfield.SetPiece] is declared in the
    package's bitfield file, which is not among the sources.  Bit [i] is
    counted from the most significant bit of byte [i / 8]; an index
    outside the bitfield changes nothing. *)
Definition SetPiece (bf : bytes) (index : Z) : bytes :=
  let byteIndex := Z.quot index 8 in
  let offset := Z.rem index 8 in
  if decide (byteIndex < 0 ∨ len bf <= byteIndex)%Z then bf
  else
    alter (fun b => byteOf (Z.lor (byteVal b) (Z.shiftl 1 (7 - offset))))
          (Z.to_nat byteIndex) bf.

(** What one call of [ReadMessage] on the connection gives: an error, or
    a message ([None] is a keep-alive). *)
Inductive readResult : Type :=
| ReadErr (e : string)
| ReadMsg (msg : option Message).

(** The connection as the download loop sees it: [incoming] lists what
    the successive calls of [Read] return, [writes] what the successive
    writes return ([None] is success), and [sent] logs the requests
    written, newest first, as (index, begin, length).  With the read
    deadline set, a read on an exhausted [incoming] fails. *)
Record Conn : Type := mkConn {
  incoming : list readResult;
  writes : list (option string);
  sent : list (Z * Z * Z)
}.

Record Client : Type := mkClient {
  conn : Conn;
  Choked : bool;
  Bitfield : bytes
}.

Definition setChoked (c : Client) (b : bool) : Client :=
  {| conn := conn c; Choked := b; Bitfield := Bitfield c |}.
Definition setBitfield (c : Client) (bf : bytes) : Client :=
  {| conn := conn c; Choked := Choked c; Bitfield := bf |}.
Definition setConn (c : Client) (k : Conn) : Client :=
  {| conn := k; Choked := Choked c; Bitfield := Bitfield c |}.

Definition Read (c : Client) : result (option Message) * Client :=
  match incoming (conn c) with
  | [] => (Err "i/o timeout", c)
  | r :: rest =>
      (match r with ReadErr e => Err e | ReadMsg msg => Ok msg end,
       setConn c {| incoming := rest; writes := writes (conn c);
                    sent := sent (conn c) |})
  end.

Definition SendRequest (c : Client) (index begin length_ : Z)
    : result unit * Client :=
  match writes (conn c) with
  | Some e :: rest =>
      (Err e, setConn c {| incoming := incoming (conn c); writes := rest;
                           sent := sent (conn c) |})
  | None :: rest =>
      (Ok (), setConn c {| incoming := incoming (conn c); writes := rest;
                           sent := (index, begin, length_) :: sent (conn c) |})
  | [] =>
      (Ok (), setConn c {| incoming := incoming (conn c); writes := [];
                           sent := (index, begin, length_) :: sent (conn c) |})
  end.

End peer.

(** ** Package client *)
Module client.
Import golib peer.

Record pieceWork : Type := mkPieceWork {
  pw_index : Z;
  pw_hash : bytes;
  pw_length : Z
}.

(** [client] is a pointer in the source: the session behind it is part
    of the state here and is handed back to the caller. *)
Record pieceProgress : Type := mkPieceProgress {
  index : Z;
  client : Client;
  buf : bytes;
  downloaded : Z;
  requested : Z;
  backlog : Z
}.

Definition MaxBlockSize : Z := 16384.
Definition MaxBacklog : Z := 5.

Definition setClient (state : pieceProgress) (c : Client) : pieceProgress :=
  {| index := index state; client := c; buf := buf state;
     downloaded := downloaded state; requested := requested state;
     backlog := backlog state |}.
Definition setBuf (state : pieceProgress) (b : bytes) : pieceProgress :=
  {| index := index state; client := client state; buf := b;
     downloaded := downloaded state; requested := requested state;
     backlog := backlog state |}.

(** [copy(state.buf[begin:], block)] writes through the slice into
    [state.buf]. *)
Definition copyAt (dst : bytes) (begin : Z) (block : bytes) : bytes :=
  take (Z.to_nat begin) dst ++ copy (drop (Z.to_nat begin) dst) block.

Definition copyPieceData (state : pieceProgress) (index : Z) (buf_ : bytes)
    : result Z * pieceProgress :=
  match ParsePieceMessage index buf_ with
  | Ok (begin, block) =>
      if decide (len (buf state) <= begin)%Z then
        (Err ("begin offset too high. " +:+ Itoa begin +:+ " >= "
              +:+ Itoa (len (buf state))), state)
      else if decide (len (buf state) < begin + len block)%Z then
        (Err ("data too long [" +:+ Itoa (len block) +:+ "] for offset "
              +:+ Itoa begin +:+ " with length " +:+ Itoa (len (buf state))),
         state)
      else (Ok (len block), setBuf state (copyAt (buf state) begin block))
  | Err e => (Err e, state)
  | Panic e => (Panic e, state)
  | OutOfFuel => (OutOfFuel, state)
  end.

Definition readMessage (state : pieceProgress) : result unit * pieceProgress :=
  let '(r, c) := Read (client state) in
  let state := setClient state c in
  match r with
  | Err e => (Err e, state)
  | Panic e => (Panic e, state)
  | OutOfFuel => (OutOfFuel, state)
  | Ok None => (Ok (), state)
  | Ok (Some msg) =>
      if decide (ID msg = MsgUnchoke) then
        (Ok (), setClient state (setChoked (client state) false))
      else if decide (ID msg = MsgChoke) then
        (Ok (), setClient state (setChoked (client state) true))
      else if decide (ID msg = MsgHave) then
        match ParseHaveMessage (Payload msg) with
        | Ok index_ =>
            (Ok (), setClient state
                      (setBitfield (client state)
                         (SetPiece (Bitfield (client state)) index_)))
        | Err e => (Err e, state)
        | Panic e => (Panic e, state)
        | OutOfFuel => (OutOfFuel, state)
        end
      else if decide (ID msg = MsgPiece) then
        match copyPieceData state (index state) (Payload msg) with
        | (Ok n, state) =>
            (Ok (), {| index := index state; client := client state;
                       buf := buf state;
                       downloaded := downloaded state + n;
                       requested := requested state;
                       backlog := backlog state - 1 |})
        | (Err e, state) => (Err e, state)
        | (Panic e, state) => (Panic e, state)
        | (OutOfFuel, state) => (OutOfFuel, state)
        end
      else (Ok (), state)
  end.

(** The inner loop of [attemptDownloadPiece]: requests are sent while
    the backlog has room and the piece is not requested in full. *)
Fixpoint requestLoop (n : nat) (pw : pieceWork) (state : pieceProgress)
    : result unit * pieceProgress :=
  if decide (backlog state < MaxBacklog ∧ requested state < pw_length pw)%Z then
    match n with
    | O => (OutOfFuel, state)
    | S n' =>
        let blockSize :=
          if decide (pw_length pw - requested state < MaxBlockSize)%Z
          then (pw_length pw - requested state)%Z else MaxBlockSize in
        match SendRequest (client state) (pw_index pw) (requested state) blockSize with
        | (Ok _, c) =>
            requestLoop n' pw
              {| index := index state; client := c; buf := buf state;
                 downloaded := downloaded state;
                 requested := requested state + blockSize;
                 backlog := backlog state + 1 |}
        | (Err e, c) => (Err e, setClient state c)
        | (Panic e, c) => (Panic e, setClient state c)
        | (OutOfFuel, c) => (OutOfFuel, setClient state c)
        end
    end
  else (Ok (), state).

(** One turn of the outer loop: the requests, then one message. *)
Definition iteration (pw : pieceWork) (state : pieceProgress)
    : result unit * pieceProgress :=
  let '(r, state) :=
    if Choked (client state) then (Ok (), state)
    else requestLoop (Z.to_nat (pw_length pw)) pw state in
  match r with
  | Ok _ => readMessage state
  | _ => (r, state)
  end.

Fixpoint downloadLoop (n : nat) (pw : pieceWork) (state : pieceProgress)
    : result bytes * pieceProgress :=
  if decide (downloaded state < pw_length pw)%Z then
    match n with
    | O => (OutOfFuel, state)
    | S n' =>
        match iteration pw state with
        | (Ok _, state) => downloadLoop n' pw state
        | (Err e, state) => (Err e, state)
        | (Panic e, state) => (Panic e, state)
        | (OutOfFuel, state) => (OutOfFuel, state)
        end
    end
  else (Ok (buf state), state).

(** [make([]byte, n)] panics on a negative length. *)
Definition make (n : Z) : result bytes :=
  if decide (n < 0)%Z then Panic "makeslice: len out of range"
  else Ok (replicate (Z.to_nat n) (byteOf 0)).

Definition initialState (c : Client) (pw : pieceWork) (b : bytes) : pieceProgress :=
  {| index := pw_index pw; client := c; buf := b;
     downloaded := 0; requested := 0; backlog := 0 |}.

(** Every turn of the outer loop takes one element of [incoming], so
    its length bounds the turns.  The session the pointer [c] refers to
    is returned next to the result. *)
Definition attemptDownloadPiece (c : Client) (pw : pieceWork)
    : result bytes * Client :=
  match make (pw_length pw) with
  | Ok b =>
      let '(r, state) :=
        downloadLoop (S (length (incoming (conn c)))) pw (initialState c pw b) in
      (r, client state)
  | Err e => (Err e, c)
  | Panic e => (Panic e, c)
  | OutOfFuel => (OutOfFuel, c)
  end.

(** The states the loop of [attemptDownloadPiece] goes through: the
    initial one and the one after every turn, whatever the turn
    returned. *)
Inductive reachable (c : Client) (pw : pieceWork) : pieceProgress -> Prop :=
| reach_init b :
    make (pw_length pw) = Ok b ->
    reachable c pw (initialState c pw b)
| reach_iteration state r state' :
    reachable c pw state ->
    (downloaded state < pw_length pw)%Z ->
    iteration pw state = (r, state') ->
    reachable c pw state'.

(** *** Pieces of the file *)

(** The fields of [Torrent] carry a [t_] in front: their names are those
    of the fields of [TorrentFile]. *)
Record Torrent : Type := mkTorrent {
  t_Peers : list torrent.Peer;
  t_PeerID : bytes;
  t_InfoHash : bytes;
  t_PieceHashes : list bytes;
  t_PieceLength : Z;
  t_Length : Z;
  t_Name : string
}.

Record pieceResult : Type := mkPieceResult {
  pr_index : Z;
  pr_buf : bytes
}.

(** The products and sums are those of [int]. *)
Definition calculateBoundsForPiece (t : Torrent) (index_ : Z) : Z * Z :=
  let begin := wrap64 (index_ * t_PieceLength t) in
  let end_ := wrap64 (begin + t_PieceLength t) in
  let end_ := if decide (t_Length t < end_)%Z then t_Length t else end_ in
  (begin, end_).

Definition calculatePieceSize (t : Torrent) (index_ : Z) : Z :=
  let '(begin, end_) := calculateBoundsForPiece t index_ in
  wrap64 (end_ - begin).

(** The items [Download] puts on the work queue, one for every piece
    hash. *)
Definition workQueue (t : Torrent) : list pieceWork :=
  imap (fun index_ hash =>
          {| pw_index := Z.of_nat index_; pw_hash := hash;
             pw_length := calculatePieceSize t (Z.of_nat index_) |})
       (t_PieceHashes t).

(** [copy(buf[begin:end], src)]. *)
Definition place (buf_ : bytes) (begin end_ : Z) (src : bytes) : result bytes :=
  dst ← slice buf_ begin end_;
  Ok (take (Z.to_nat begin) buf_ ++ copy dst src ++ drop (Z.to_nat end_) buf_).

(** The loop of [Download] that collects the results.  [results] is
    what the workers send on the channel, in the order it is received;
    a receive when nothing is sent any more blocks for good, so that the
    loop does not return, which is [OutOfFuel] here. *)
Fixpoint collect (t : Torrent) (results : list pieceResult) (buf_ : bytes)
    (donePieces : Z) : result bytes :=
  if decide (donePieces < len (t_PieceHashes t))%Z then
    match results with
    | [] => OutOfFuel
    | res :: results =>
        let '(begin, end_) := calculateBoundsForPiece t (pr_index res) in
        buf_ ← place buf_ begin end_ (pr_buf res);
        collect t results buf_ (donePieces + 1)
    end
  else Ok buf_.

(** [Download], the workers being behind [results]. *)
Definition Download (t : Torrent) (results : list pieceResult) : result bytes :=
  buf_ ← make (t_Length t);
  collect t results buf_ 0.

End client.

(** ** Notions the statements use *)
Module props.
Import golib bencode.

(** The number of constructors of a value. *)
Fixpoint vsize (v : value) : nat :=
  match v with
  | VList l => S (foldr (fun x a => vsize x + a) 0 l)
  | VDict m => S (map_fold (fun _ x a => vsize x + a) 0 m)
  | _ => 1
  end.

(** The Go values [Decode] builds: it returns a [string] for every byte
    string, an [int] for every integer, a slice that is nil when it has
    no items, and a map that is never nil.  [canon v] is [v] with every
    [[]byte] turned into the [string] of the same bytes, every [int64]
    into the [int] of the same value, every empty slice into the nil one
    and every nil map into the empty one. *)
Fixpoint canon (v : value) : value :=
  match v with
  | VString s => VString s
  | VBytes b => VString (String.string_of_list_ascii b)
  | VInt n => VInt n
  | VInt64 n => VInt n
  | VList l => appended (canon <$> l)
  | VNilList => VNilList
  | VDict m => VDict (canon <$> m)
  | VNilDict => VDict ∅
  | VOther ty => VOther ty
  end.

(** Values that exist in a Go program: an [int] or [int64] is in the
    64-bit range. *)
Inductive goValue : value -> Prop :=
| go_string s : goValue (VString s)
| go_bytes b : goValue (VBytes b)
| go_int n : inInt64 n -> goValue (VInt n)
| go_int64 n : inInt64 n -> goValue (VInt64 n)
| go_list l : Forall goValue l -> goValue (VList l)
| go_nil_list : goValue VNilList
| go_dict m : map_Forall (fun _ v => goValue v) m -> goValue (VDict m)
| go_nil_dict : goValue VNilDict
| go_other ty : goValue (VOther ty).

(** Values made the way [Decode] makes them: strings, ints, slices that
    hold an item or are nil, and maps that are not nil. *)
Inductive decoded : value -> Prop :=
| dec_string s : decoded (VString s)
| dec_int n : decoded (VInt n)
| dec_list l : l <> [] -> Forall decoded l -> decoded (VList l)
| dec_nil_list : decoded VNilList
| dec_dict m : map_Forall (fun _ v => decoded v) m -> decoded (VDict m).

(** Go's [<] on strings, through the order [sortStrings] sorts by. *)
Definition string_lt (s1 s2 : string) : Prop := String.le s1 s2 /\ s1 <> s2.

(** The lexicographic order of byte sequences, bytes compared as
    numbers: the first difference decides, and a proper prefix comes
    first. *)
Inductive lex_lt : bytes -> bytes -> Prop :=
| lex_prefix c l : lex_lt [] (c :: l)
| lex_head a b l1 l2 : (byteVal a < byteVal b)%Z -> lex_lt (a :: l1) (b :: l2)
| lex_tail a l1 l2 : lex_lt l1 l2 -> lex_lt (a :: l1) (a :: l2).

(** The number a run of decimal digits denotes. *)
Definition digitsValue (ds : string) : Z :=
  foldl (fun a c => 10 * a + (byteVal c - 48))%Z 0%Z (String.list_ascii_of_string ds).

(** The bencoding of a byte string, and the text of a dictionary whose
    pairs are written in the order of [kvs], each value by the bytes
    given for it. *)
Definition stringBytes (s : string) : bytes := encodeString s [].

Definition pairsBytes (kvs : list (string * bytes)) : bytes :=
  concat ((fun kv => stringBytes (fst kv) ++ snd kv) <$> kvs).

Definition dictBytes (kvs : list (string * bytes)) : bytes :=
  "d"%char :: pairsBytes kvs ++ ["e"%char].

Definition listBytes (outs : list bytes) : bytes :=
  "l"%char :: concat outs ++ ["e"%char].

(** The map a sequence of bindings builds when each one is stored as
    [dict[k] = v], in order: a later binding of a key replaces an
    earlier one. *)
Definition bindAll {A} (kvs : list (string * A)) : gmap string A :=
  foldl (fun d kv => <[fst kv := snd kv]> d) ∅ kvs.

(** The number held by byte [i] of [b] (0 outside of [b]). *)
Definition byteAt (b : bytes) (i : nat) : Z := default 0%Z (byteVal <$> b !! i).

(** The bytes [[lo, lo + n)] of [b]. *)
Definition window (b : bytes) (lo n : nat) : bytes := take n (drop lo b).

(** Record [i] of a compact peer list: four address bytes, then the
    port, most significant byte first. *)
Definition peerAt (b : bytes) (i : nat) : torrent.Peer :=
  {| torrent.IP := window b (6 * i) 4;
     torrent.Port := (256 * byteAt b (6 * i + 4) + byteAt b (6 * i + 5))%Z |}.

Definition peersOf (b : bytes) : list torrent.Peer :=
  peerAt b <$> seq 0 (length b / 6).

(** The 20-byte groups of a [pieces] string, in order. *)
Definition hashesOf (pieces : string) : list bytes :=
  (fun i => window (String.list_ascii_of_string pieces) (20 * i) 20)
    <$> seq 0 (String.length pieces / 20).

(** The big-endian 32-bit number in the bytes [[i, i + 4)] of [b]. *)
Definition uint32At (b : bytes) (i : nat) : Z :=
  (2 ^ 24 * byteAt b i + 2 ^ 16 * byteAt b (i + 1)
   + 2 ^ 8 * byteAt b (i + 2) + byteAt b (i + 3))%Z.

(** The bytes of the value bound to [key] in the text of a top-level
    dictionary, as they stand in the input: the decoder is run over the
    pairs, and the positions where the value of [key] starts and ends are
    kept (those of the last occurrence, the one [decodeDict] keeps). *)
Section spans.
Variable dec : bytes -> nat -> result (value * nat).

Fixpoint spanLoop (n : nat) (data : bytes) (pos : nat) (key : string)
    (found : option (nat * nat)) : option (nat * nat) :=
  match n with
  | O => None
  | S n' =>
      match data !! pos with
      | None => None
      | Some c =>
          if decide (c = "e"%char) then found
          else
            match dec data pos with
            | Ok (VString k, vpos) =>
                match dec data vpos with
                | Ok (_, next) =>
                    spanLoop n' data next key
                      (if decide (k = key) then Some (vpos, next) else found)
                | _ => None
                end
            | _ => None
            end
      end
  end.
End spans.

Definition rawValue (data : bytes) (key : string) : option bytes :=
  if decide (data !! 0 = Some "d"%char) then
    match spanLoop (decode (S (length data))) (length data) data 1 key None with
    | Some (lo, hi) => Some (take (hi - lo) (drop lo data))
    | None => None
    end
  else None.

(** The [info] value of a torrent file, as it appears in the file. *)
Definition rawInfo (data : bytes) : option bytes := rawValue data "info".

(** The bytes a list of requests asks for. *)
Definition reqBytes (reqs : list (Z * Z * Z)) : Z :=
  foldr (fun q a => q.2 + a)%Z 0%Z reqs.

(** The message the next call of [Read] returns, if it is one. *)
Definition nextMessage (state : client.pieceProgress) : option peer.Message :=
  match peer.incoming (peer.conn (client.client state)) with
  | peer.ReadMsg (Some msg) :: _ => Some msg
  | _ => None
  end.

(** The requests written during this attempt, the session [c] being the
    one the attempt started with. *)
Definition attemptRequests (c : peer.Client) (state : client.pieceProgress)
    : list (Z * Z * Z) :=
  let log := peer.sent (peer.conn (client.client state)) in
  take (length log - length (peer.sent (peer.conn c))) log.

(** The block a turn of the loop took from a piece message, as the
    request it answers: (index, begin, length). *)
Definition acceptedBlock (state : client.pieceProgress) (r : result unit)
    : option (Z * Z * Z) :=
  match r, nextMessage state with
  | Ok _, Some msg =>
      if decide (peer.ID msg = peer.MsgPiece) then
        match peer.ParsePieceMessage (client.index state) (peer.Payload msg) with
        | Ok (begin, block) => Some (client.index state, begin, len block)
        | _ => None
        end
      else None
  | _, _ => None
  end.

(** The states of an attempt in which the peer only answers: every block
    taken from a piece message is the answer to a request written during
    the attempt and not answered before.  [answered] lists the requests
    answered so far. *)
Inductive answering (c : peer.Client) (pw : client.pieceWork)
    : client.pieceProgress -> list (Z * Z * Z) -> Prop :=
| answering_init b :
    client.make (client.pw_length pw) = Ok b ->
    answering c pw (client.initialState c pw b) []
| answering_quiet state answered r state' :
    answering c pw state answered ->
    (client.downloaded state < client.pw_length pw)%Z ->
    client.iteration pw state = (r, state') ->
    acceptedBlock state r = None ->
    answering c pw state' answered
| answering_block state answered r state' req :
    answering c pw state answered ->
    (client.downloaded state < client.pw_length pw)%Z ->
    client.iteration pw state = (r, state') ->
    acceptedBlock state r = Some req ->
    req ∈ attemptRequests c state' ->
    req ∉ answered ->
    answering c pw state' (req :: answered).

(** ** Vocabulary of the proofs *)

(** A decimal digit. *)
Definition is_digit (c : ascii) : Prop := (48 <= byteVal c <= 57)%Z.

(** What a run of decimal digits [ds] that writes the number [u] does
    to [parseDigits]. *)
Definition writes_number (ds : string) (u : Z) : Prop :=
  forall rest a,
    parseDigits (ds +:+ rest) a
    = parseDigits rest (a * 10 ^ Z.of_nat (String.length ds) + u)%Z.

(** A text made of decimal digits only. *)
Definition all_digits (ds : string) : Prop :=
  Forall is_digit (String.list_ascii_of_string ds).

(** [onto buf r]: the result [r] of writing to an empty buffer, seen
    from a buffer that held [buf] before. *)
Definition onto (buf : bytes) (r : result bytes) : result bytes :=
  match r with
  | Ok e => Ok (buf ++ e)
  | Err e => Err e
  | Panic e => Panic e
  | OutOfFuel => OutOfFuel
  end.

(** The loops of [encode] over list items and dictionary keys: each
    turn writes to the buffer the turn before left, and the first error
    ends the loop. *)
Definition writeAll {X : Type} (g : X -> bytes -> result bytes)
    (acc : result bytes) (xs : list X) : result bytes :=
  foldl (fun acc x => buf ← acc; g x buf) acc xs.

(** One turn of the loop over the sorted keys of a dictionary. *)
Definition dictItem (m : gmap string value) (key : string) (buf : bytes)
    : result bytes :=
  let buf := encodeString key buf in
  match (encode <$> m) !! key with
  | Some enc => enc buf
  | None => Err "unsupported type: <nil>"
  end.

(** [dec] reads the text [o] as the value [v] wherever [o] stands in an
    input that fits a Go slice, and stops right behind it. *)
Definition reads (dec : bytes -> nat -> result (value * nat))
    (o : bytes) (v : value) : Prop :=
  forall pre post,
    (len (pre ++ o ++ post) <= maxInt64)%Z ->
    dec (pre ++ o ++ post) (length pre) = Ok (v, length pre + length o).

(** A byte string behind its decimal length and a colon. *)
Definition lenPrefixed (payload : bytes) : bytes :=
  String.list_ascii_of_string (Itoa (len payload)) ++ ":"%char :: payload.

(** An integer between [i] and [e]. *)
Definition intBytes (n : Z) : bytes :=
  "i"%char :: String.list_ascii_of_string (FormatInt n) ++ ["e"%char].

(** The first byte of an encoding, on which [decode] switches. *)
Definition starts (o : bytes) : Prop :=
  exists c rest, o = c :: rest /\ c <> "e"%char.

(** Every value [dec] reads from [data] takes at least one byte and
    stays inside the input. *)
Definition advances (dec : bytes -> nat -> result (value * nat))
    (data : bytes) : Prop :=
  forall pos v p, dec data pos = Ok (v, p) -> pos < p <= length data.

Import torrent peer client.

(** The fields [parseTorrentDict] asks for, with the types it asserts. *)
Record fields : Type := mkFields {
  f_announce : string;
  f_info : gmap string value;
  f_pieces : string;
  f_pieceLength : Z;
  f_length : Z;
  f_name : string
}.

(** [dict] holds every field of [f] under its key, with the type
    [parseTorrentDict] asserts. *)
Definition has_fields (dict : gmap string value) (f : fields) : Prop :=
  asString (dict !! "announce") = Some (f_announce f)
  /\ asDict (dict !! "info") = Some (f_info f)
  /\ asString (f_info f !! "pieces") = Some (f_pieces f)
  /\ asInt (f_info f !! "piece length") = Some (f_pieceLength f)
  /\ asInt (f_info f !! "length") = Some (f_length f)
  /\ asString (f_info f !! "name") = Some (f_name f).

(** The conditions under which a piece payload is taken. *)
Definition pieceAccepted (state : pieceProgress) (payload : bytes) : Prop :=
  8 <= length payload
  /\ uint32At payload 0 = index state
  /\ (uint32At payload 4 < len (buf state))%Z
  /\ (uint32At payload 4 + len (drop 8 payload) <= len (buf state))%Z.

#[export] Instance pieceAccepted_dec state payload : Decision (pieceAccepted state payload).
Proof. unfold pieceAccepted. apply _. Defined.

(** What the request loop does to the state: it only writes requests. *)
Record requestsWritten (pw : pieceWork) (state state' : pieceProgress)
    (new : list (Z * Z * Z)) : Prop := {
  rw_sent : sent (conn (client state')) = new ++ sent (conn (client state));
  rw_requested : requested state' = (requested state + reqBytes new)%Z;
  rw_backlog : backlog state' = (backlog state + len new)%Z;
  rw_bound : (requested state' <= pw_length pw)%Z;
  rw_window : (backlog state' <= Z.max (backlog state) MaxBacklog)%Z;
  rw_downloaded : downloaded state' = downloaded state;
  rw_buf : buf state' = buf state;
  rw_index : index state' = index state;
  rw_incoming : incoming (conn (client state')) = incoming (conn (client state));
  rw_requests : Forall (fun q => q.1.1 = pw_index pw /\ (0 < q.2)%Z) new
}.

(** The books of an attempt in which the peer only answers. *)
Record balanced (c : Client) (pw : pieceWork) (state : pieceProgress)
    (answered : list (Z * Z * Z)) : Prop := {
  bal_log : sent (conn (client state))
            = attemptRequests c state ++ sent (conn c);
  bal_requested : requested state = reqBytes (attemptRequests c state);
  bal_backlog : backlog state = (len (attemptRequests c state) - len answered)%Z;
  bal_downloaded : downloaded state = reqBytes answered;
  bal_distinct : NoDup answered;
  bal_answers : answered ⊆ attemptRequests c state;
  bal_sizes : Forall (fun q => 0 < q.2)%Z (attemptRequests c state)
}.

(** ** Notions of the further properties *)

(** Values [Encode] has a case for, all the way down. *)
Inductive supported : value -> Prop :=
| sup_string s : supported (VString s)
| sup_bytes b : supported (VBytes b)
| sup_int n : supported (VInt n)
| sup_int64 n : supported (VInt64 n)
| sup_list l : Forall supported l -> supported (VList l)
| sup_nil_list : supported VNilList
| sup_dict m : map_Forall (fun _ v => supported v) m -> supported (VDict m)
| sup_nil_dict : supported VNilDict.

(** A value of a type [Encode] has no case for, named [ty] by [%T],
    sits somewhere in the value. *)
Inductive unsupportedIn (ty : string) : value -> Prop :=
| un_here : unsupportedIn ty (VOther ty)
| un_list l x : x ∈ l -> unsupportedIn ty x -> unsupportedIn ty (VList l)
| un_dict m k x :
    m !! k = Some x -> unsupportedIn ty x -> unsupportedIn ty (VDict m).

(** What the decoder builds: strings, ints in range, lists and maps of
    such values. *)
Definition built (v : value) : Prop := decoded v /\ goValue v.

(** The errors [Parse] returns besides the decoder's. *)
Definition parseErrors : list string :=
  [ "torrent file must be a dictionary";
    "missing or invalid announce URL";
    "missing or invalid info dictionary";
    "missing or invalid pieces";
    "missing or invalid piece length";
    "missing or invalid length";
    "missing or invalid name";
    "invalid pieces length (must be multiple of 20)" ].

(** A tracker that answers with status 200 and whose body, of the
    announced length, arrives in the one read. *)
Definition answers (get : string -> result torrent.Response) (url : string)
    (body : bytes) : Prop :=
  exists resp,
    get url = Ok resp
    /\ torrent.StatusCode resp = torrent.StatusOK
    /\ torrent.ContentLength resp = len body
    /\ torrent.Read resp (replicate (length body) (byteOf 0)) = (body, None).

(** Piece [i] of the file [F], as a worker that downloaded it sends
    it: the bytes of [F] between the bounds of the piece. *)
Definition pieceOf (t : Torrent) (F : bytes) (i : nat) : pieceResult :=
  let '(begin, end_) := calculateBoundsForPiece t (Z.of_nat i) in
  {| pr_index := Z.of_nat i;
     pr_buf := window F (Z.to_nat begin) (Z.to_nat (end_ - begin)) |}.

(** The sum of a list of sizes. *)
Definition total (sizes : list Z) : Z := foldr Z.add 0%Z sizes.

(** Block [k] of a piece: the request for it, as (index, begin,
    length). *)
Definition blockAt (pw : pieceWork) (k : nat) : Z * Z * Z :=
  (pw_index pw, Z.of_nat k * MaxBlockSize,
   Z.min MaxBlockSize (pw_length pw - Z.of_nat k * MaxBlockSize))%Z.

(** The peer sends nothing but bytes of [D]: the block of every piece
    message for this piece that can still be read is what [D] holds at
    the offset of the message. *)
Definition serves (D : bytes) (pw : pieceWork) (inc : list readResult) : Prop :=
  Forall (fun rr =>
            forall msg begin block,
              rr = ReadMsg (Some msg) ->
              ParsePieceMessage (pw_index pw) (Payload msg) = Ok (begin, block) ->
              block = window D (Z.to_nat begin) (length block))
         inc.

(** No message that can still be read unchokes us. *)
Definition neverUnchokes (inc : list readResult) : Prop :=
  Forall (fun rr => forall msg, rr = ReadMsg (Some msg) -> ID msg <> MsgUnchoke) inc.

(** The number of bytes [Decode] reads from its input: the position
    [decode] returns next to the value. *)
Definition consumed (data : bytes) : option nat :=
  match decode (S (length data)) data 0 with
  | Ok (_, p) => Some p
  | _ => None
  end.

(** What becomes of a value read up to position [p] when the input is
    cut to [n] bytes. *)
Definition cutResult (v : value) (p n : nat) : result (value * nat) :=
  if decide (p <= n) then Ok (v, p) else Err ErrUnexpectedEnd.

End props.


(** * Sample inputs *)

Module samples.
Import golib bencode props torrent peer client.

(** A dictionary holding one value of each kind [Decode] changes or
    keeps. *)
Definition C2_sample : value :=
  VDict {[ "k" := VList [VBytes (bs "xy"); VInt64 (-7); VString "z"; VInt 0] ]}.

(** A torrent file whose [info] dictionary has its keys out of order. *)
Definition unsorted_torrent : bytes :=
  bs ("d8:announce1:u4:info"
      +:+ "d6:pieces0:12:piece lengthi1e4:name1:n6:lengthi0ee" +:+ "e").

(** The same torrent file with the keys of [info] in ascending order. *)
Definition sorted_torrent : bytes :=
  bs ("d8:announce1:u4:info"
      +:+ "d6:lengthi0e4:name1:n12:piece lengthi1e6:pieces0:e" +:+ "e").

(** What [Parse] makes of [sorted_torrent]. *)
Definition sorted_torrent_parsed : TorrentFile :=
  {| Announce := "u";
     InfoHash := sha1.Sum (bs "d6:lengthi0e4:name1:n12:piece lengthi1e6:pieces0:e");
     PieceHashes := []; PieceLength := 1; Length := 0; Name := "n" |}.

(** A download of the 4-byte piece 3 with one request out, and a piece
    message waiting on the connection. *)
Definition C7_state (payload : bytes) : pieceProgress :=
  {| index := 3;
     client := {| conn := {| incoming := [ReadMsg (Some {| ID := MsgPiece; Payload := payload |})];
                             writes := []; sent := [(3, 0, 4)%Z] |};
                  Choked := false; Bitfield := [] |};
     buf := bs "....";
     downloaded := 0; requested := 4; backlog := 1 |}.

(** Piece 3, offset 1, block [ab]. *)
Definition C7_payload : bytes := byteOf <$> [0; 0; 0; 3; 0; 0; 0; 1; 97; 98]%Z.

(** A peer that sends a block of piece 3 nobody asked for. *)
Definition unasked_client : Client :=
  {| conn := {| incoming := [ReadMsg (Some {| ID := MsgPiece;
                                              Payload := byteOf <$> [0; 0; 0; 3; 0; 0; 0; 0; 97; 98]%Z |})];
                writes := []; sent := [] |};
     Choked := true; Bitfield := [] |}.

(** A piece of four bytes. *)
Definition small_piece : pieceWork :=
  {| pw_index := 3; pw_hash := []; pw_length := 4 |}.

(** A peer that unchokes us and then answers the one request of a
    4-byte piece. *)
Definition answering_client : Client :=
  {| conn := {| incoming := [ReadMsg (Some {| ID := MsgUnchoke; Payload := [] |});
                             ReadMsg (Some {| ID := MsgPiece;
                                              Payload := byteOf <$> [0; 0; 0; 3; 0; 0; 0; 0;
                                                                     97; 98; 99; 100]%Z |})];
                writes := []; sent := [] |};
     Choked := true; Bitfield := [] |}.

(** The state after [answering_client] has answered. *)
Definition answered_state : pieceProgress :=
  {| index := 3;
     client := {| conn := {| incoming := []; writes := []; sent := [(3, 0, 4)%Z] |};
                  Choked := false; Bitfield := [] |};
     buf := bs "abcd"; downloaded := 4; requested := 4; backlog := 0 |}.

End samples.

(** * Facts about the library models *)
Import golib props.

Section strings_facts.

Lemma string_app_cons (c : ascii) (s1 s2 : string) :
  String c s1 +:+ s2 = String c (s1 +:+ s2).
Proof. reflexivity. Qed.

Lemma string_app_nil (s : string) : "" +:+ s = s.
Proof. reflexivity. Qed.

Lemma string_app_nil_r (s : string) : s +:+ "" = s.
Proof.
  induction s as [|c s IH]; [done|]. by rewrite string_app_cons, IH.
Qed.

Lemma string_app_assoc (s1 s2 s3 : string) :
  (s1 +:+ s2) +:+ s3 = s1 +:+ (s2 +:+ s3).
Proof.
  induction s1 as [|c s1 IH]; [done|].
  by rewrite !string_app_cons, IH.
Qed.

Lemma string_app_length (s1 s2 : string) :
  String.length (s1 +:+ s2) = String.length s1 + String.length s2.
Proof.
  induction s1 as [|c s1 IH]; [done|].
  rewrite string_app_cons. simpl. by rewrite IH.
Qed.

Lemma list_ascii_app (s1 s2 : string) :
  String.list_ascii_of_string (s1 +:+ s2)
  = String.list_ascii_of_string s1 ++ String.list_ascii_of_string s2.
Proof.
  induction s1 as [|c s1 IH]; [done|].
  rewrite string_app_cons. simpl. by rewrite IH.
Qed.

Lemma list_ascii_length (s : string) :
  length (String.list_ascii_of_string s) = String.length s.
Proof. induction s as [|c s IH]; simpl; [done | by rewrite IH]. Qed.

Lemma string_of_list_length (l : bytes) :
  String.length (String.string_of_list_ascii l) = length l.
Proof. induction l as [|c l IH]; simpl; [done | by rewrite IH]. Qed.

End strings_facts.

Section strconv_facts.

Lemma digitVal_digitChar (d : Z) :
  (0 <= d < 10)%Z -> digitVal (digitChar d) = Some d /\ is_digit (digitChar d).
Proof.
  intros Hd. assert (Hc : In d [0;1;2;3;4;5;6;7;8;9]%Z).
  { simpl. lia. }
  simpl in Hc.
  destruct Hc as [<-|[<-|[<-|[<-|[<-|[<-|[<-|[<-|[<-|[<-|[]]]]]]]]]]];
    (split; [reflexivity | unfold is_digit; vm_compute; split; discriminate]).
Qed.

Lemma digitVal_Some (c : ascii) (d : Z) :
  digitVal c = Some d -> is_digit c /\ d = (byteVal c - 48)%Z.
Proof.
  unfold digitVal, is_digit. intros Hd.
  destruct (Z.leb_spec 48 (byteVal c)); destruct (Z.leb_spec (byteVal c) 57);
    simpl in Hd; try discriminate.
  inversion Hd. lia.
Qed.

Lemma digitVal_None (c : ascii) : digitVal c = None <-> ~ is_digit c.
Proof.
  unfold digitVal, is_digit.
  destruct (Z.leb_spec 48 (byteVal c)); destruct (Z.leb_spec (byteVal c) 57);
    simpl; split; intros Hd; try done; try lia; exfalso; lia.
Qed.

Lemma parseDigits_cons (c : ascii) (s : string) (a : Z) :
  parseDigits (String c s) a
  = match digitVal c with
    | Some d => parseDigits s (10 * a + d)%Z
    | None => None
    end.
Proof. reflexivity. Qed.

Lemma writes_number_one (d : Z) :
  (0 <= d < 10)%Z -> writes_number (String (digitChar d) "") d.
Proof.
  intros Hd rest a. rewrite string_app_cons, string_app_nil, parseDigits_cons.
  destruct (digitVal_digitChar d Hd) as [-> _]. f_equal.
  change (Z.of_nat (String.length (String (digitChar d) ""))) with 1%Z. lia.
Qed.

Lemma writes_number_snoc (ds : string) (u d : Z) :
  (0 <= d < 10)%Z ->
  writes_number ds u ->
  writes_number (ds +:+ String (digitChar d) "") (10 * u + d).
Proof.
  intros Hd Hds rest a. rewrite string_app_assoc, Hds.
  rewrite string_app_cons, string_app_nil, parseDigits_cons.
  destruct (digitVal_digitChar d Hd) as [-> _]. f_equal.
  rewrite string_app_length.
  change (String.length (String (digitChar d) "")) with 1.
  rewrite Nat2Z.inj_add, Z.pow_add_r by lia. change (Z.of_nat 1) with 1%Z. lia.
Qed.

Lemma formatBits_spec (fuel : nat) :
  forall (u : Z) (acc : string),
    (0 <= u < 2 ^ Z.of_nat fuel)%Z -> 0 < fuel ->
    exists ds, formatBits fuel u acc = ds +:+ acc
               /\ ds <> EmptyString /\ all_digits ds /\ writes_number ds u.
Proof.
  induction fuel as [|fuel IH]; intros u acc Hu Hfuel; [lia|].
  cbn [formatBits]. destruct (u <? 10)%Z eqn:Hlt.
  - apply Z.ltb_lt in Hlt. exists (String (digitChar u) "").
    rewrite Z.mod_small by lia.
    split; [done|]. split; [done|]. split.
    + constructor; [|constructor]. apply digitVal_digitChar. lia.
    + apply writes_number_one. lia.
  - apply Z.ltb_ge in Hlt.
    assert (Hq : (0 <= u / 10 < 2 ^ Z.of_nat fuel)%Z).
    { split; [apply Z.div_pos; lia|].
      apply Z.div_lt_upper_bound; [lia|].
      rewrite Nat2Z.inj_succ, Z.pow_succ_r in Hu by lia. lia. }
    assert (Hf : 0 < fuel).
    { destruct fuel; [|lia]. simpl in Hq.
      assert (1 <= u / 10)%Z by (apply Z.div_le_lower_bound; lia). lia. }
    destruct (IH (u / 10)%Z (String (digitChar (u mod 10)) acc) Hq Hf)
      as (ds & -> & Hne & Hall & Hw).
    assert (Hm : (0 <= u mod 10 < 10)%Z) by (apply Z.mod_pos_bound; lia).
    exists (ds +:+ String (digitChar (u mod 10)) "").
    split; [by rewrite string_app_assoc|]. split.
    { destruct ds; [done|]. by rewrite string_app_cons. }
    split.
    + unfold all_digits. rewrite list_ascii_app. apply Forall_app. split; [done|].
      constructor; [|constructor]. by apply digitVal_digitChar.
    + replace u with (10 * (u / 10) + u mod 10)%Z at 2
        by (symmetry; apply Z.div_mod; lia).
      by apply writes_number_snoc.
Qed.

Lemma log2_fuel (v : Z) : (0 <= v)%Z -> (0 <= v < 2 ^ Z.of_nat (S (Z.to_nat (Z.log2 v))))%Z.
Proof.
  intros Hv. split; [done|].
  rewrite Nat2Z.inj_succ, Z2Nat.id by apply Z.log2_nonneg.
  destruct (decide (v = 0%Z)) as [->|Hne]; [done|].
  apply Z.log2_spec. lia.
Qed.

(** The text [FormatInt] prints: an optional minus sign and a non-empty
    run of digits that writes the magnitude. *)
Lemma FormatInt_shape (v : Z) :
  exists ds, ds <> EmptyString /\ all_digits ds /\ writes_number ds (Z.abs v)
             /\ FormatInt v = if (v <? 0)%Z then String "-" ds else ds.
Proof.
  unfold FormatInt. destruct (v <? 0)%Z eqn:Hneg.
  - apply Z.ltb_lt in Hneg.
    destruct (formatBits_spec _ (- v) "" (log2_fuel (- v) ltac:(lia)) ltac:(lia))
      as (ds & Heq & Hne & Hall & Hw).
    exists ds. rewrite Heq. replace (Z.abs v) with (- v)%Z by lia.
    rewrite string_app_nil_r. repeat split; done.
  - apply Z.ltb_ge in Hneg.
    destruct (formatBits_spec _ v "" (log2_fuel v Hneg) ltac:(lia))
      as (ds & Heq & Hne & Hall & Hw).
    exists ds. rewrite Heq. replace (Z.abs v) with v by lia.
    rewrite string_app_nil_r. repeat split; done.
Qed.

Lemma writes_number_parse (ds : string) (u : Z) :
  writes_number ds u -> parseDigits ds 0 = Some u.
Proof.
  intros Hw. specialize (Hw "" 0%Z).
  rewrite string_app_nil_r in Hw. rewrite Hw. simpl. f_equal; lia.
Qed.

Lemma is_digit_not_sign (c : ascii) :
  is_digit c -> c <> "+"%char /\ c <> "-"%char /\ c <> "e"%char /\ c <> ":"%char.
Proof.
  unfold is_digit. intros H.
  repeat split; intros ->; vm_compute in H; destruct H as [H1 H2];
    try (by apply H1); try (by apply H2).
Qed.

(** [ParseInt] reads back what [FormatInt] prints for an [int64]. *)
Lemma ParseInt_FormatInt (v : Z) : inInt64 v -> ParseInt (FormatInt v) = Some v.
Proof.
  intros [Hlo Hhi]. unfold minInt64, maxInt64 in *.
  destruct (FormatInt_shape v) as (ds & Hne & Hall & Hw & ->).
  apply writes_number_parse in Hw.
  destruct (v <? 0)%Z eqn:Hneg.
  - apply Z.ltb_lt in Hneg. unfold ParseInt.
    destruct (decide ("-"%char = "+"%char)) as [?|_]; [done|].
    destruct (decide ("-"%char = "-"%char)) as [_|?]; [|done].
    destruct ds as [|c ds]; [done|]. rewrite Hw. simpl negb. simpl andb.
    destruct (2 ^ 63 <? Z.abs v)%Z eqn:Hr; [apply Z.ltb_lt in Hr; lia|].
    f_equal. lia.
  - apply Z.ltb_ge in Hneg. destruct ds as [|c ds]; [done|].
    unfold ParseInt. inversion Hall as [|? ? Hc _]; subst.
    destruct (is_digit_not_sign c Hc) as (Hp & Hm & _).
    destruct (decide (c = "+"%char)) as [?|_]; [done|].
    destruct (decide (c = "-"%char)) as [?|_]; [done|].
    rewrite Hw. simpl negb. simpl andb.
    destruct (2 ^ 63 <=? Z.abs v)%Z eqn:Hr; [apply Z.leb_le in Hr; lia|].
    f_equal. lia.
Qed.

(** The bytes [Itoa] prints are digits, but for a leading minus sign
    on a negative number. *)
Lemma Itoa_nonneg_digits (v : Z) :
  (0 <= v)%Z -> Itoa v <> EmptyString /\ all_digits (Itoa v).
Proof.
  intros Hv. unfold Itoa. destruct (FormatInt_shape v) as (ds & Hne & Hall & _ & ->).
  destruct (v <? 0)%Z eqn:Hneg; [apply Z.ltb_lt in Hneg; lia|]. done.
Qed.

End strconv_facts.

(** * The encoder *)
Import golib bencode props.

Section value_induction.

Lemma vsize_list_elem (l : list value) (v : value) :
  v ∈ l -> vsize v < vsize (VList l).
Proof.
  cbn [vsize]. induction 1 as [v l|v w l _ IH]; simpl; lia.
Qed.

Lemma vsize_dict_lookup (m : gmap string value) (k : string) (v : value) :
  m !! k = Some v -> vsize v < vsize (VDict m).
Proof.
  intros Hk. cbn [vsize].
  rewrite (map_fold_delete_L _ _ k v m); [lia| |done].
  intros. lia.
Qed.

(** Induction on values, through lists and maps. *)
Lemma value_ind' (P : value -> Prop) :
  (forall s, P (VString s)) ->
  (forall b, P (VBytes b)) ->
  (forall n, P (VInt n)) ->
  (forall n, P (VInt64 n)) ->
  (forall l, Forall P l -> P (VList l)) ->
  P VNilList ->
  (forall m, map_Forall (fun _ v => P v) m -> P (VDict m)) ->
  P VNilDict ->
  (forall ty, P (VOther ty)) ->
  forall v, P v.
Proof.
  intros Hs Hb Hi Hi64 Hl Hnl Hd Hnd Ho v.
  remember (vsize v) as n eqn:Hn. revert v Hn.
  induction n as [n IH] using lt_wf_ind. intros v ->.
  destruct v as [s|b|z|z|l| |m| |ty]; auto.
  - apply Hl, Forall_forall. intros x Hx.
    apply (IH (vsize x)); [by apply vsize_list_elem | done].
  - apply Hd. intros k x Hk.
    apply (IH (vsize x)); [by eapply vsize_dict_lookup | done].
Qed.

End value_induction.

Section encode_facts.

Lemma onto_onto (b1 b2 : bytes) (r : result bytes) :
  onto b1 (onto b2 r) = onto (b1 ++ b2) r.
Proof. destruct r; simpl; [by rewrite app_assoc|done..]. Qed.

Lemma onto_nil (r : result bytes) : onto [] r = r.
Proof. by destruct r. Qed.

Lemma encodeString_buf (s : string) (buf : bytes) :
  encodeString s buf = buf ++ stringBytes s.
Proof.
  unfold stringBytes, encodeString, WriteString, WriteByte.
  by rewrite !app_nil_l, <- !app_assoc.
Qed.

Lemma stringBytes_eq (s : string) :
  stringBytes s
  = String.list_ascii_of_string (Itoa (Z.of_nat (String.length s)))
    ++ ":"%char :: String.list_ascii_of_string s.
Proof.
  unfold stringBytes, encodeString, WriteString, WriteByte.
  by rewrite !app_nil_l, <- !app_assoc.
Qed.

Section writer_fold.
(** A loop that writes one item after the other into the buffer and
    stops at the first error. *)
Context {X : Type} (g : X -> bytes -> result bytes).

Lemma writeAll_not_ok (r : result bytes) (xs : list X) :
  (forall b, r <> Ok b) -> writeAll g r xs = r.
Proof.
  revert r. induction xs as [|x xs IH]; intros r Hr; [done|].
  simpl. destruct r as [b| | |]; [by destruct (Hr b)|..];
    by rewrite IH.
Qed.

Lemma writeAll_onto (xs : list X) :
  Forall (fun x => forall buf, g x buf = onto buf (g x [])) xs ->
  forall buf, writeAll g (Ok buf) xs = onto buf (writeAll g (Ok []) xs).
Proof.
  induction 1 as [|x xs Hx _ IH]; intros buf.
  { simpl. by rewrite app_nil_r. }
  simpl. change (foldl _ ?a xs) with (writeAll g a xs).
  change (Ok buf ≫= g x) with (g x buf). change (Ok [] ≫= g x) with (g x []).
  rewrite Hx. destruct (g x []) as [e| | |]; simpl.
  - rewrite IH, (IH e), onto_onto. done.
  - by rewrite writeAll_not_ok.
  - by rewrite writeAll_not_ok.
  - by rewrite writeAll_not_ok.
Qed.

(** The loop succeeds exactly when every item does, and then writes
    the items' outputs one after the other. *)
Lemma writeAll_Ok (xs : list X) (out : bytes) :
  Forall (fun x => forall buf, g x buf = onto buf (g x [])) xs ->
  writeAll g (Ok []) xs = Ok out <->
  exists outs, Forall2 (fun x o => g x [] = Ok o) xs outs /\ out = concat outs.
Proof.
  intros Hxs. revert out. induction Hxs as [|x xs Hx Hxs IH]; intros out.
  { simpl. split.
    - intros [= <-]. exists []. by split; [constructor|].
    - intros (outs & Hf & ->). by inversion Hf. }
  simpl. change (foldl _ ?a xs) with (writeAll g a xs).
  change (Ok [] ≫= g x) with (g x []).
  destruct (g x []) as [e| | |] eqn:He.
  - rewrite writeAll_onto by done.
    destruct (writeAll g (Ok []) xs) as [o| | |] eqn:Hw; simpl.
    + split.
      * intros [= <-]. destruct (proj1 (IH o) eq_refl) as (outs & Hf & ->).
        exists (e :: outs). split; [by constructor | done].
      * intros (outs & Hf & ->). inversion Hf as [|? o1 ? outs' H1 H2]; subst.
        assert (o1 = e) as -> by congruence.
        assert (Ok o = Ok (concat outs')) as [= ->]; [|done].
        apply IH. eauto.
    + split; [done|]. intros (outs & Hf & ->).
      inversion Hf as [|? o1 ? outs' H1 H2]; subst.
      assert (@Err bytes msg = Ok (concat outs')); [|done]. apply IH. eauto.
    + split; [done|]. intros (outs & Hf & ->).
      inversion Hf as [|? o1 ? outs' H1 H2]; subst.
      assert (@Panic bytes msg = Ok (concat outs')); [|done]. apply IH. eauto.
    + split; [done|]. intros (outs & Hf & ->).
      inversion Hf as [|? o1 ? outs' H1 H2]; subst.
      assert (@OutOfFuel bytes = Ok (concat outs')); [|done]. apply IH. eauto.
  - rewrite writeAll_not_ok by done. split; [done|].
    intros (outs & Hf & ->). inversion Hf; congruence.
  - rewrite writeAll_not_ok by done. split; [done|].
    intros (outs & Hf & ->). inversion Hf; congruence.
  - rewrite writeAll_not_ok by done. split; [done|].
    intros (outs & Hf & ->). inversion Hf; congruence.
Qed.
End writer_fold.


Lemma encode_list_eq (l : list value) (buf : bytes) :
  encode (VList l) buf
  = (writeAll encode (Ok (buf ++ ["l"%char])) l
       ≫= fun buf => Ok (buf ++ ["e"%char])).
Proof. reflexivity. Qed.

Lemma encode_dict_eq (m : gmap string value) (buf : bytes) :
  encode (VDict m) buf
  = (writeAll (dictItem m) (Ok (buf ++ ["d"%char])) (sortStrings (rangeKeys m))
       ≫= fun buf => Ok (buf ++ ["e"%char])).
Proof. reflexivity. Qed.

Lemma dictItem_lookup (m : gmap string value) (key : string) (buf : bytes) :
  dictItem m key buf
  = match m !! key with
    | Some v => encode v (buf ++ stringBytes key)
    | None => Err "unsupported type: <nil>"
    end.
Proof.
  unfold dictItem. rewrite lookup_fmap, encodeString_buf.
  by destruct (m !! key).
Qed.

Lemma bind_onto (buf : bytes) (r : result bytes) (c : ascii) :
  (onto buf r ≫= fun b => Ok (b ++ [c]))
  = onto buf (r ≫= fun b => Ok (b ++ [c])).
Proof. destruct r; simpl; [|done..]. by rewrite app_assoc. Qed.

(** Writing into a buffer appends to it what writing into an empty
    buffer gives. *)
Lemma encode_buf (v : value) :
  forall buf, encode v buf = onto buf (encode v []).
Proof.
  induction v as [s|b|n|n|l IH| |m IH| |ty] using value_ind'; intros buf.
  - cbn [encode onto]. by rewrite !encodeString_buf, app_nil_l.
  - cbn [encode onto]. unfold Write, WriteString, WriteByte.
    by rewrite !app_nil_l, <- !app_assoc.
  - cbn [encode onto]. unfold Write, WriteString, WriteByte.
    by rewrite !app_nil_l, <- !app_assoc.
  - cbn [encode onto]. unfold Write, WriteString, WriteByte.
    by rewrite !app_nil_l, <- !app_assoc.
  - rewrite !encode_list_eq.
    rewrite (writeAll_onto encode l IH (buf ++ ["l"%char])).
    rewrite (writeAll_onto encode l IH ([] ++ ["l"%char])).
    rewrite !bind_onto, onto_onto. by rewrite app_nil_l.
  - cbn [encode onto]. unfold WriteByte. by rewrite !app_nil_l, <- !app_assoc.
  - rewrite !encode_dict_eq.
    assert (Hitems : Forall (fun x => forall buf, dictItem m x buf = onto buf (dictItem m x []))
                            (sortStrings (rangeKeys m))).
    { apply Forall_forall. intros key _ b. rewrite !dictItem_lookup.
      destruct (m !! key) as [v|] eqn:Hk; [|done].
      rewrite (IH key v Hk (b ++ stringBytes key)), (IH key v Hk ([] ++ stringBytes key)).
      by rewrite onto_onto, app_nil_l. }
    rewrite (writeAll_onto _ _ Hitems (buf ++ ["d"%char])).
    rewrite (writeAll_onto _ _ Hitems ([] ++ ["d"%char])).
    rewrite !bind_onto, onto_onto. by rewrite app_nil_l.
  - cbn [encode onto]. unfold WriteByte. by rewrite !app_nil_l, <- !app_assoc.
  - done.
Qed.

(** The output for a list: the outputs of its items between [l] and
    [e]. *)
Lemma Encode_list (l : list value) (out : bytes) :
  Encode (VList l) = Ok out <->
  exists outs, Forall2 (fun v o => Encode v = Ok o) l outs /\ out = listBytes outs.
Proof.
  unfold Encode. rewrite encode_list_eq, app_nil_l.
  assert (Hl : Forall (fun x => forall buf, encode x buf = onto buf (encode x [])) l).
  { apply Forall_forall. intros x _. apply encode_buf. }
  rewrite (writeAll_onto encode l Hl). unfold listBytes.
  destruct (writeAll encode (Ok []) l) as [o| | |] eqn:Hw; simpl.
  - apply (writeAll_Ok encode l o Hl) in Hw as (outs & Hf & ->). split.
    + intros [= <-]. exists outs. by split.
    + intros (outs' & Hf' & ->). do 3 f_equal.
      clear Hl. revert outs' Hf'. induction Hf as [|v o l outs H1 _ IH];
        intros outs' Hf'; inversion Hf'; subst; [done|].
      simpl. f_equal; [congruence | by apply IH].
  - split; [done|]. intros (outs & Hf & _).
    assert (@Err bytes msg = Ok (concat outs)); [|done].
    rewrite <- Hw. apply writeAll_Ok; eauto.
  - split; [done|]. intros (outs & Hf & _).
    assert (@Panic bytes msg = Ok (concat outs)); [|done].
    rewrite <- Hw. apply writeAll_Ok; eauto.
  - split; [done|]. intros (outs & Hf & _).
    assert (@OutOfFuel bytes = Ok (concat outs)); [|done].
    rewrite <- Hw. apply writeAll_Ok; eauto.
Qed.


Lemma dictItem_Ok (m : gmap string value) (key : string) (o : bytes) :
  dictItem m key [] = Ok o <->
  exists v o', m !! key = Some v /\ Encode v = Ok o' /\ o = stringBytes key ++ o'.
Proof.
  rewrite dictItem_lookup, app_nil_l. unfold Encode. split.
  - destruct (m !! key) as [v|]; [|done]. rewrite encode_buf.
    destruct (encode v []) as [o'| | |] eqn:He; simpl; try done.
    intros [= <-]. by eexists _, _.
  - intros (v & o' & -> & Hv & ->). by rewrite encode_buf, Hv.
Qed.

Lemma pairsBytes_cons (k : string) (o : bytes) (kvs : list (string * bytes)) :
  pairsBytes ((k, o) :: kvs) = (stringBytes k ++ o) ++ pairsBytes kvs.
Proof. reflexivity. Qed.

Lemma pairsBytes_app (kvs1 kvs2 : list (string * bytes)) :
  pairsBytes (kvs1 ++ kvs2) = pairsBytes kvs1 ++ pairsBytes kvs2.
Proof. unfold pairsBytes. by rewrite fmap_app, concat_app. Qed.

(** The output for a dictionary: between [d] and [e], for each key in
    the order [sortStrings] gives, the key and the output of the value
    bound to it. *)
Lemma Encode_dict (m : gmap string value) (out : bytes) :
  Encode (VDict m) = Ok out <->
  exists kvs : list (string * bytes),
    kvs.*1 = sortStrings (rangeKeys m)
    /\ Forall (fun kv => exists v, m !! kv.1 = Some v /\ Encode v = Ok kv.2) kvs
    /\ out = dictBytes kvs.
Proof.
  unfold Encode at 1. rewrite encode_dict_eq, app_nil_l.
  assert (Hitems : Forall (fun x => forall buf, dictItem m x buf = onto buf (dictItem m x []))
                          (sortStrings (rangeKeys m))).
  { apply Forall_forall. intros key _ b. rewrite !dictItem_lookup.
    destruct (m !! key) as [v|] eqn:Hk; [|done].
    rewrite (encode_buf v (b ++ _)), (encode_buf v ([] ++ _)).
    by rewrite onto_onto, app_nil_l. }
  rewrite (writeAll_onto _ _ Hitems).
  pose proof (writeAll_Ok (dictItem m) (sortStrings (rangeKeys m))) as Hw.
  generalize dependent (sortStrings (rangeKeys m)). intros ks Hitems Hw.
  assert (Hconv : forall o,
    (exists outs, Forall2 (fun x o => dictItem m x [] = Ok o) ks outs /\ o = concat outs)
    <-> (exists kvs : list (string * bytes), kvs.*1 = ks
          /\ Forall (fun kv => exists v, m !! kv.1 = Some v /\ Encode v = Ok kv.2) kvs
          /\ o = pairsBytes kvs)).
  { clear. intros o. split.
    - intros (outs & Hf & ->). induction Hf as [|k o ks outs Hk _ IH].
      { exists []. by repeat split. }
      destruct IH as (kvs & <- & Hall & Heq).
      apply dictItem_Ok in Hk as (v & o' & Hv & Ho' & ->).
      exists ((k, o') :: kvs). split; [done|]. split; [constructor; eauto|].
      rewrite pairsBytes_cons, <- Heq. done.
    - intros (kvs & <- & Hall & ->). induction Hall as [|[k o'] kvs (v & Hv & Ho') _ IH].
      { exists []. by split; [constructor|]. }
      destruct IH as (outs & Hf & Heq).
      exists ((stringBytes k ++ o') :: outs). split.
      + constructor; [|done]. apply dictItem_Ok. eauto.
      + rewrite pairsBytes_cons, Heq. done. }
  destruct (writeAll (dictItem m) (Ok []) ks) as [o| | |] eqn:Hwo; simpl.
  - pose proof (proj1 (Hconv o) (proj1 (Hw o Hitems) eq_refl)) as (kvs & Hk & Hall & ->).
    split.
    + intros [= <-]. exists kvs. by repeat split.
    + intros (kvs' & Hk' & Hall' & ->). f_equal. unfold dictBytes. do 2 f_equal.
      assert (Ok (pairsBytes kvs) = Ok (pairsBytes kvs')) as [= ->]; [|done].
      apply (Hw _ Hitems), Hconv. eauto.
  - split; [done|]. intros (kvs & Hk & Hall & _).
    assert (@Err bytes msg = Ok (pairsBytes kvs)); [|done].
    apply (Hw _ Hitems), Hconv. eauto.
  - split; [done|]. intros (kvs & Hk & Hall & _).
    assert (@Panic bytes msg = Ok (pairsBytes kvs)); [|done].
    apply (Hw _ Hitems), Hconv. eauto.
  - split; [done|]. intros (kvs & Hk & Hall & _).
    assert (@OutOfFuel bytes = Ok (pairsBytes kvs)); [|done].
    apply (Hw _ Hitems), Hconv. eauto.
Qed.

(** *** The order of the keys *)

Lemma rangeKeys_NoDup {A} (m : gmap string A) : NoDup (rangeKeys m).
Proof. apply NoDup_fst_map_to_list. Qed.

Lemma elem_of_rangeKeys {A} (m : gmap string A) (k : string) :
  k ∈ rangeKeys m <-> is_Some (m !! k).
Proof.
  unfold rangeKeys. rewrite list_elem_of_fmap. split.
  - intros ([k' v] & -> & Hin). apply elem_of_map_to_list in Hin. eauto.
  - intros [v Hv]. exists (k, v). split; [done|]. by apply elem_of_map_to_list.
Qed.

Lemma sortStrings_Permutation (l : list string) : sortStrings l ≡ₚ l.
Proof. apply merge_sort_Permutation. Qed.

Lemma sortStrings_sorted (l : list string) : StronglySorted String.le (sortStrings l).
Proof. apply StronglySorted_merge_sort; apply _. Qed.

(** Without duplicates the order is strict. *)
Lemma sortStrings_strict (l : list string) :
  NoDup l -> StronglySorted string_lt (sortStrings l).
Proof.
  intros Hnd. rewrite <- (sortStrings_Permutation l) in Hnd.
  pose proof (sortStrings_sorted l) as Hs.
  induction Hs as [|k ks Hs IH Hall]; [constructor|].
  apply NoDup_cons in Hnd as [Hk Hnd].
  constructor; [by apply IH|].
  apply Forall_forall. intros k' Hk'. split.
  - by eapply Forall_forall in Hall.
  - intros ->. done.
Qed.

(** [sort.Strings] gives the same list whatever order the [range] loop
    handed the keys in. *)
Lemma sortStrings_order_irrelevant (l1 l2 : list string) :
  l1 ≡ₚ l2 -> sortStrings l1 = sortStrings l2.
Proof.
  intros Hp. apply (StronglySorted_unique String.le); try apply sortStrings_sorted.
  by rewrite !sortStrings_Permutation.
Qed.

End encode_facts.

(** * The decoder on the encoder's output *)
Import golib bencode props.

(** Lengths of concatenations, down to linear arithmetic. *)
Ltac list_len :=
  unfold len in *;
  repeat (rewrite length_app in * || rewrite length_cons in *
          || rewrite length_nil in * );
  try lia.

Section positions.

Lemma wrap64_small (z : Z) : inInt64 z -> wrap64 z = z.
Proof.
  unfold inInt64, minInt64, maxInt64, wrap64. intros Hz.
  rewrite Z.mod_small; lia.
Qed.

Lemma indexFrom_skip (c : ascii) (xs rest : bytes) (pos : nat) :
  c ∉ xs -> indexFrom c (xs ++ c :: rest) pos = pos + length xs.
Proof.
  revert pos. induction xs as [|x xs IH]; intros pos Hnotin; simpl.
  - destruct (decide (c = c)); [lia | done].
  - apply not_elem_of_cons in Hnotin as [Hne Hnotin].
    destruct (decide (x = c)) as [->|_]; [done|].
    rewrite IH by done. lia.
Qed.

Lemma indexFrom_bound (c : ascii) (l : bytes) (pos : nat) :
  pos <= indexFrom c l pos <= pos + length l.
Proof.
  revert pos. induction l as [|x l IH]; intros pos; simpl; [lia|].
  destruct (decide (x = c)); [lia|]. specialize (IH (S pos)). lia.
Qed.

Lemma indexFrom_found (c : ascii) (l : bytes) (pos : nat) :
  indexFrom c l pos < pos + length l ->
  l !! (indexFrom c l pos - pos) = Some c
  /\ c ∉ take (indexFrom c l pos - pos) l.
Proof.
  revert pos. induction l as [|x l IH]; intros pos; simpl; [lia|].
  destruct (decide (x = c)) as [->|Hne].
  - intros _. rewrite Nat.sub_diag. simpl. split; [done | apply not_elem_of_nil].
  - intros Hlt. pose proof (indexFrom_bound c l (S pos)).
    destruct (IH (S pos) ltac:(lia)) as [Hl Hn].
    replace (indexFrom c l (S pos) - pos) with (S (indexFrom c l (S pos) - S pos)) by lia.
    simpl. split; [done|]. apply not_elem_of_cons. split; [congruence | done].
Qed.

Lemma lookup_at_start (pre o post : bytes) (c : ascii) (rest : bytes) :
  o = c :: rest -> (pre ++ o ++ post) !! length pre = Some c.
Proof. intros ->. simpl. by apply list_lookup_middle. Qed.

Lemma scanTo_at (c : ascii) (pre xs rest : bytes) :
  c ∉ xs -> scanTo c (pre ++ xs ++ c :: rest) (length pre) = length pre + length xs.
Proof.
  intros Hnotin. unfold scanTo. rewrite drop_app_length. by apply indexFrom_skip.
Qed.

Lemma substr_at (pre xs rest : bytes) :
  substr (pre ++ xs ++ rest) (length pre) (length pre + length xs)
  = String.string_of_list_ascii xs.
Proof.
  unfold substr. rewrite drop_app_length.
  replace (length pre + length xs - length pre) with (length xs) by lia.
  by rewrite take_app_length.
Qed.

Lemma slice_at (pre xs rest : bytes) :
  slice (pre ++ xs ++ rest) (len pre) (len pre + len xs) = Ok xs.
Proof.
  unfold slice, len.
  assert (Hlen : length (pre ++ xs ++ rest) = length pre + length xs + length rest).
  { rewrite !length_app. lia. }
  rewrite Hlen.
  destruct (Z.leb_spec 0 (Z.of_nat (length pre))); [|lia].
  destruct (Z.leb_spec (Z.of_nat (length pre))
              (Z.of_nat (length pre) + Z.of_nat (length xs))); [|lia].
  destruct (Z.leb_spec (Z.of_nat (length pre) + Z.of_nat (length xs))
              (Z.of_nat (length pre + length xs + length rest))); [|lia].
  simpl. rewrite Nat2Z.id, drop_app_length.
  replace (Z.to_nat _) with (length xs) by lia.
  by rewrite take_app_length.
Qed.

End positions.

Section decode_leaves.

Lemma all_digits_no (c : ascii) (ds : string) :
  all_digits ds -> ~ is_digit c -> c ∉ String.list_ascii_of_string ds.
Proof.
  unfold all_digits. intros Hall Hc Hin.
  by eapply Forall_forall in Hall.
Qed.

Lemma colon_not_digit : ~ is_digit ":"%char.
Proof. unfold is_digit. vm_compute. intros [_ H]. by apply H. Qed.

Lemma e_not_digit : ~ is_digit "e"%char.
Proof. unfold is_digit. vm_compute. intros [_ H]. by apply H. Qed.

Lemma decodeString_at (payload : bytes) :
  reads decodeString (lenPrefixed payload)
        (VString (String.string_of_list_ascii payload)).
Proof.
  intros pre post Hfit. unfold lenPrefixed in *.
  set (digits := String.list_ascii_of_string (Itoa (len payload))) in *.
  assert (Hn : (0 <= len payload)%Z) by (unfold len; lia).
  destruct (Itoa_nonneg_digits _ Hn) as [_ Hall].
  replace (pre ++ (digits ++ ":"%char :: payload) ++ post)
    with (pre ++ digits ++ ":"%char :: payload ++ post) in *
    by (by rewrite <- (app_assoc digits)).
  assert (Hlen : length (pre ++ digits ++ ":"%char :: payload ++ post)
                 = length pre + length digits + 1 + length payload + length post)
    by list_len.
  unfold len in Hfit. rewrite Hlen in Hfit. unfold maxInt64 in Hfit.
  unfold decodeString.
  rewrite scanTo_at by (by apply all_digits_no; [|apply colon_not_digit]).
  rewrite Hlen.
  destruct (decide (_ <= _)) as [?|_]; [lia|].
  rewrite substr_at.
  unfold digits at 1. rewrite String.string_of_list_ascii_of_string.
  unfold Atoi, Itoa. rewrite ParseInt_FormatInt
    by (unfold inInt64, minInt64, maxInt64, len; lia).
  rewrite wrap64_small by (unfold inInt64, minInt64, maxInt64, len; lia).
  unfold len at 1. rewrite Hlen.
  destruct (Z.ltb_spec (Z.of_nat (length pre + length digits + 1 + length payload + length post))
              (Z.of_nat (length pre + length digits) + 1 + len payload)) as [Hlt|_].
  { unfold len in Hlt. lia. }
  replace (pre ++ digits ++ ":"%char :: payload ++ post)
    with ((pre ++ digits ++ [":"%char]) ++ payload ++ post)
    by (by rewrite <- !app_assoc).
  replace (Z.of_nat (length pre + length digits) + 1)%Z
    with (len (pre ++ digits ++ [":"%char])) by list_len.
  rewrite slice_at. simpl. do 2 f_equal. list_len.
Qed.


Lemma FormatInt_no_e (n : Z) : "e"%char ∉ String.list_ascii_of_string (FormatInt n).
Proof.
  destruct (FormatInt_shape n) as (ds & _ & Hall & _ & ->).
  pose proof (all_digits_no "e" ds Hall e_not_digit) as Hds.
  destruct (n <? 0)%Z; [|done].
  simpl. apply not_elem_of_cons. by split.
Qed.

Lemma decodeInt_at (n : Z) :
  inInt64 n -> reads decodeInt (intBytes n) (VInt n).
Proof.
  intros Hn pre post Hfit. unfold intBytes in *.
  set (digits := String.list_ascii_of_string (FormatInt n)) in *.
  replace (pre ++ ("i"%char :: digits ++ ["e"%char]) ++ post)
    with ((pre ++ ["i"%char]) ++ digits ++ "e"%char :: post) in *
    by (rewrite <- !app_assoc; simpl; by rewrite <- app_assoc).
  assert (Hlen : length ((pre ++ ["i"%char]) ++ digits ++ "e"%char :: post)
                 = length pre + 1 + length digits + 1 + length post)
    by list_len.
  unfold decodeInt.
  destruct (decide (_ !! length pre = Some "i"%char)) as [_|Hno].
  2:{ destruct Hno. rewrite <- app_assoc. simpl. by rewrite list_lookup_middle. }
  replace (length pre + 1) with (length (pre ++ ["i"%char])) by list_len.
  rewrite scanTo_at by apply FormatInt_no_e.
  rewrite Hlen.
  destruct (decide (_ <= _)) as [Hle|_]; [list_len|].
  rewrite substr_at. unfold digits.
  rewrite String.string_of_list_ascii_of_string, ParseInt_FormatInt by done.
  do 2 f_equal. list_len.
Qed.

Lemma lenPrefixed_head (payload : bytes) :
  exists c rest, lenPrefixed payload = c :: rest /\ is_digit c.
Proof.
  unfold lenPrefixed.
  destruct (Itoa_nonneg_digits (len payload)) as [Hne Hall]; [unfold len; lia|].
  destruct (Itoa (len payload)) as [|c ds]; [done|].
  inversion Hall; subst. simpl. eauto.
Qed.

Lemma stringBytes_lenPrefixed (s : string) :
  stringBytes s = lenPrefixed (String.list_ascii_of_string s).
Proof.
  rewrite stringBytes_eq. unfold lenPrefixed, len.
  by rewrite list_ascii_length.
Qed.

Lemma is_digit_isDigit (c : ascii) : is_digit c -> isDigit c = true.
Proof.
  unfold is_digit, isDigit. intros [H1 H2].
  destruct (Z.leb_spec 48 (byteVal c)); [|lia].
  destruct (Z.leb_spec (byteVal c) 57); [done|lia].
Qed.

Lemma is_digit_not_tag (c : ascii) :
  is_digit c -> c <> "i"%char /\ c <> "l"%char /\ c <> "d"%char.
Proof.
  unfold is_digit. intros H.
  repeat split; intros ->; vm_compute in H; destruct H as [H1 H2];
    try (by apply H1); try (by apply H2).
Qed.

Lemma decode_digit (fuel : nat) (data : bytes) (start : nat) (c : ascii) :
  data !! start = Some c -> is_digit c ->
  decode (S fuel) data start = decodeString data start.
Proof.
  intros Hc Hd. cbn [decode]. rewrite Hc.
  destruct (is_digit_not_tag c Hd) as (Hi & Hl & Hdd).
  destruct (decide (c = "i"%char)); [done|].
  destruct (decide (c = "l"%char)); [done|].
  destruct (decide (c = "d"%char)); [done|].
  by rewrite is_digit_isDigit.
Qed.

Lemma decode_i (fuel : nat) (data : bytes) (start : nat) :
  data !! start = Some "i"%char ->
  decode (S fuel) data start = decodeInt data start.
Proof. intros Hc. cbn [decode]. rewrite Hc. by destruct (decide _). Qed.

Lemma decode_l (fuel : nat) (data : bytes) (start : nat) :
  data !! start = Some "l"%char ->
  decode (S fuel) data start = decodeList (decode fuel) data start.
Proof.
  intros Hc. cbn [decode]. rewrite Hc.
  destruct (decide ("l"%char = "i"%char)); [done|]. by destruct (decide _).
Qed.

Lemma decode_d (fuel : nat) (data : bytes) (start : nat) :
  data !! start = Some "d"%char ->
  decode (S fuel) data start = decodeDict (decode fuel) data start.
Proof.
  intros Hc. cbn [decode]. rewrite Hc.
  destruct (decide ("d"%char = "i"%char)); [done|].
  destruct (decide ("d"%char = "l"%char)); [done|]. by destruct (decide _).
Qed.

Lemma decode_lenPrefixed (fuel : nat) (payload : bytes) :
  reads (decode (S fuel)) (lenPrefixed payload)
        (VString (String.string_of_list_ascii payload)).
Proof.
  intros pre post Hfit.
  destruct (lenPrefixed_head payload) as (c & rest & Heq & Hc).
  rewrite (decode_digit _ _ _ c); [by apply decodeString_at | | done].
  rewrite Heq. simpl. by rewrite list_lookup_middle.
Qed.

Lemma decode_stringBytes (fuel : nat) (s : string) :
  reads (decode (S fuel)) (stringBytes s) (VString s).
Proof.
  rewrite stringBytes_lenPrefixed.
  rewrite <- (String.string_of_list_ascii_of_string s) at 2.
  apply decode_lenPrefixed.
Qed.

Lemma decode_intBytes (fuel : nat) (n : Z) :
  inInt64 n -> reads (decode (S fuel)) (intBytes n) (VInt n).
Proof.
  intros Hn pre post Hfit.
  rewrite decode_i; [by apply decodeInt_at|].
  unfold intBytes. simpl. by rewrite list_lookup_middle.
Qed.

End decode_leaves.

Section decode_loops.
Variable dec : bytes -> nat -> result (value * nat).

Lemma decodeListLoop_at (vs : list value) (outs : list bytes) :
  Forall2 (fun v o => reads dec o v /\ starts o) vs outs ->
  forall n acc pre post,
    length vs < n ->
    (len (pre ++ concat outs ++ "e"%char :: post) <= maxInt64)%Z ->
    decodeListLoop dec n (pre ++ concat outs ++ "e"%char :: post) (length pre) acc
    = Ok (appended (acc ++ vs), length pre + length (concat outs) + 1).
Proof.
  induction 1 as [|v o vs outs [Hv (c & rest & -> & Hc)] _ IH];
    intros n acc pre post Hn Hfit.
  - destruct n as [|n]; [simpl in Hn; lia|]. simpl.
    rewrite list_lookup_middle by done.
    destruct (decide ("e"%char = "e"%char)); [|done].
    rewrite app_nil_r. do 2 f_equal. lia.
  - destruct n as [|n]; [simpl in Hn; lia|]. cbn [decodeListLoop].
    cbn [concat] in *.
    replace (pre ++ ((c :: rest) ++ concat outs) ++ "e"%char :: post)
      with (pre ++ (c :: rest) ++ (concat outs ++ "e"%char :: post)) in *
      by (by rewrite <- !app_assoc).
    rewrite (lookup_at_start pre _ _ c rest) by done.
    destruct (decide (c = "e"%char)); [done|].
    rewrite Hv by done. cbn [mbind result_bind].
    replace (pre ++ (c :: rest) ++ concat outs ++ "e"%char :: post)
      with ((pre ++ c :: rest) ++ concat outs ++ "e"%char :: post) in *
      by (by rewrite <- !app_assoc).
    replace (length pre + length (c :: rest)) with (length (pre ++ c :: rest))
      by list_len.
    rewrite IH by (done || simpl in Hn; lia).
    rewrite <- app_assoc. do 2 f_equal. list_len.
Qed.

Lemma decodeDictLoop_at (kvs : list (string * bytes)) (vs : list value) :
  Forall2 (fun kv v => reads dec (stringBytes kv.1) (VString kv.1)
                       /\ reads dec kv.2 v /\ starts kv.2) kvs vs ->
  forall n acc pre post,
    length kvs < n ->
    (len (pre ++ pairsBytes kvs ++ "e"%char :: post) <= maxInt64)%Z ->
    decodeDictLoop dec n (pre ++ pairsBytes kvs ++ "e"%char :: post) (length pre) acc
    = Ok (VDict (foldl (fun d kv => <[kv.1 := kv.2]> d) acc (zip kvs.*1 vs)),
          length pre + length (pairsBytes kvs) + 1).
Proof.
  induction 1 as [|[k o] v kvs vs (Hkey & Hv & (c & rest & Ho & Hc)) _ IH];
    intros n acc pre post Hn Hfit.
  - destruct n as [|n]; [simpl in Hn; lia|]. simpl.
    rewrite list_lookup_middle by done.
    destruct (decide ("e"%char = "e"%char)); [|done].
    do 2 f_equal. lia.
  - destruct n as [|n]; [simpl in Hn; lia|]. cbn [decodeDictLoop].
    rewrite pairsBytes_cons in *. simpl fst in *. simpl snd in *.
    replace (pre ++ ((stringBytes k ++ o) ++ pairsBytes kvs) ++ "e"%char :: post)
      with (pre ++ stringBytes k ++ (o ++ pairsBytes kvs ++ "e"%char :: post)) in *
      by (by rewrite <- !app_assoc).
    destruct (lenPrefixed_head (String.list_ascii_of_string k)) as (ck & restk & Hk & Hck).
    rewrite <- stringBytes_lenPrefixed in Hk.
    assert (Hlook : (pre ++ stringBytes k ++ o ++ pairsBytes kvs ++ "e"%char :: post)
                    !! length pre = Some ck).
    { by eapply lookup_at_start. }
    rewrite Hlook.
    destruct (decide (ck = "e"%char)) as [->|_]; [by destruct e_not_digit|].
    rewrite Hkey by done. cbn [mbind result_bind].
    replace (pre ++ stringBytes k ++ o ++ pairsBytes kvs ++ "e"%char :: post)
      with ((pre ++ stringBytes k) ++ o ++ (pairsBytes kvs ++ "e"%char :: post)) in *
      by (by rewrite <- !app_assoc).
    replace (length pre + length (stringBytes k)) with (length (pre ++ stringBytes k))
      by list_len.
    rewrite Hv by done. cbn [mbind result_bind].
    replace ((pre ++ stringBytes k) ++ o ++ pairsBytes kvs ++ "e"%char :: post)
      with (((pre ++ stringBytes k) ++ o) ++ pairsBytes kvs ++ "e"%char :: post) in *
      by (by rewrite <- !app_assoc).
    replace (length (pre ++ stringBytes k) + length o)
      with (length ((pre ++ stringBytes k) ++ o)) by list_len.
    rewrite IH by (done || simpl in Hn; lia).
    do 2 f_equal. list_len.
Qed.

End decode_loops.

Section bindings.
Context {A : Type}.

Lemma bindAll_snoc (ps : list (string * A)) (p : string * A) :
  bindAll (ps ++ [p]) = <[p.1 := p.2]> (bindAll ps).
Proof. unfold bindAll. by rewrite foldl_app. Qed.

(** The binding of a key is the one written last. *)
Lemma bindAll_lookup_last (ps1 ps2 : list (string * A)) (k : string) (v : A) :
  k ∉ ps2.*1 -> bindAll (ps1 ++ (k, v) :: ps2) !! k = Some v.
Proof.
  induction ps2 as [|p ps2 IH] using rev_ind; intros Hk.
  - rewrite bindAll_snoc. simpl. by rewrite lookup_insert_eq.
  - rewrite app_comm_cons, app_assoc, bindAll_snoc.
    rewrite fmap_app in Hk. apply not_elem_of_app in Hk as [Hk1 Hk2].
    simpl in Hk2. apply not_elem_of_cons in Hk2 as [Hne _].
    rewrite lookup_insert_ne by done. by apply IH.
Qed.

Lemma bindAll_lookup_None (ps : list (string * A)) (k : string) :
  k ∉ ps.*1 -> bindAll ps !! k = None.
Proof.
  induction ps as [|p ps IH] using rev_ind; intros Hk; [done|].
  rewrite bindAll_snoc. rewrite fmap_app in Hk.
  apply not_elem_of_app in Hk as [Hk1 Hk2].
  simpl in Hk2. apply not_elem_of_cons in Hk2 as [Hne _].
  rewrite lookup_insert_ne by done. by apply IH.
Qed.

(** Bindings taken from a map, one for each of its keys, build the
    map. *)
Lemma bindAll_of_map (m : gmap string A) (ps : list (string * A)) :
  (forall k, is_Some (m !! k) -> k ∈ ps.*1) ->
  Forall (fun p => m !! p.1 = Some p.2) ps ->
  bindAll ps = m.
Proof.
  intros Hdom Hall. apply map_eq. intros k.
  induction ps as [|p ps IH] using rev_ind.
  - simpl. destruct (m !! k) eqn:Hk; [|done].
    specialize (Hdom k ltac:(eauto)). by apply elem_of_nil in Hdom.
  - rewrite bindAll_snoc. apply Forall_app in Hall as [Hall Hp].
    inversion Hp as [|? ? Hp' _]; subst.
    destruct (decide (p.1 = k)) as [<-|Hne].
    + by rewrite lookup_insert_eq.
    + rewrite lookup_insert_ne by done.
      destruct (decide (k ∈ ps.*1)) as [Hin|Hnotin].
      * apply list_elem_of_fmap in Hin as (q & -> & Hq).
        apply list_elem_of_split in Hq as (l1 & l2 & ->).
        clear IH Hdom. rewrite (proj1 (Forall_forall _ _) Hall q)
          by (apply elem_of_app; right; left).
        destruct q as [k v]. simpl.
        induction l2 as [|r l2 IH2] using rev_ind.
        { rewrite bindAll_snoc. simpl. by rewrite lookup_insert_eq. }
        rewrite app_comm_cons, app_assoc, bindAll_snoc.
        rewrite app_comm_cons, app_assoc in Hall.
        apply Forall_app in Hall as [Hall Hr]. inversion Hr as [|? ? Hr' _]; subst.
        destruct (decide (r.1 = k)) as [<-|Hne'].
        { rewrite lookup_insert_eq.
          assert (Hkv : m !! r.1 = Some v).
          { eapply (proj1 (Forall_forall _ _) Hall (r.1, v)).
            apply elem_of_app; right; left. }
          congruence. }
        rewrite lookup_insert_ne by done. apply IH2. done.
      * rewrite bindAll_lookup_None by done.
        destruct (m !! k) eqn:Hk; [|done].
        specialize (Hdom k ltac:(eauto)). rewrite fmap_app in Hdom.
        apply elem_of_app in Hdom as [?|Hin]; [done|].
        simpl in Hin. apply elem_of_cons in Hin as [->|Hin]; [done|].
        by apply elem_of_nil in Hin.
Qed.

End bindings.

Section roundtrip.

Lemma Encode_leaf (v : value) :
  match v with
  | VString s => Encode v = Ok (stringBytes s)
  | VBytes b => Encode v = Ok (lenPrefixed b)
  | VInt n | VInt64 n => Encode v = Ok (intBytes n)
  | VNilList => Encode v = Ok (listBytes [])
  | VNilDict => Encode v = Ok (dictBytes [])
  | VOther ty => Encode v = Err ("unsupported type: " +:+ ty)
  | _ => True
  end.
Proof.
  destruct v; try done; unfold Encode; cbn [encode];
    unfold lenPrefixed, intBytes, Write, WriteString, WriteByte, Itoa;
    rewrite ?app_nil_l, <- ?app_assoc; done.
Qed.

Lemma lenPrefixed_starts (payload : bytes) : starts (lenPrefixed payload).
Proof.
  destruct (lenPrefixed_head payload) as (c & rest & -> & Hc).
  exists c, rest. split; [done|]. intros ->. by destruct e_not_digit.
Qed.

Lemma Encode_starts (v : value) (out : bytes) : Encode v = Ok out -> starts out.
Proof.
  pose proof (Encode_leaf v) as Hleaf.
  destruct v as [s|b|n|n|l| |m| |ty]; intros Henc.
  - rewrite Hleaf in Henc. injection Henc as <-.
    rewrite stringBytes_lenPrefixed. apply lenPrefixed_starts.
  - rewrite Hleaf in Henc. injection Henc as <-. apply lenPrefixed_starts.
  - rewrite Hleaf in Henc. injection Henc as <-. by eexists _, _.
  - rewrite Hleaf in Henc. injection Henc as <-. by eexists _, _.
  - apply Encode_list in Henc as (outs & _ & ->). by eexists _, _.
  - rewrite Hleaf in Henc. injection Henc as <-. by eexists _, _.
  - apply Encode_dict in Henc as (kvs & _ & _ & ->). by eexists _, _.
  - rewrite Hleaf in Henc. injection Henc as <-. by eexists _, _.
  - by rewrite Hleaf in Henc.
Qed.

Lemma starts_length (o : bytes) : starts o -> 0 < length o.
Proof. intros (c & rest & -> & _). simpl. lia. Qed.

Lemma concat_length_elem (outs : list bytes) (o : bytes) :
  o ∈ outs -> length o <= length (concat outs).
Proof.
  induction 1 as [o outs|o o' outs _ IH]; simpl; rewrite length_app; lia.
Qed.

Lemma concat_length_count (outs : list bytes) :
  Forall starts outs -> length outs <= length (concat outs).
Proof.
  induction 1 as [|o outs Ho _ IH]; simpl; [lia|].
  apply starts_length in Ho. rewrite length_app. lia.
Qed.

Lemma pairsBytes_length_elem (kvs : list (string * bytes)) (kv : string * bytes) :
  kv ∈ kvs -> length (stringBytes kv.1) + length kv.2 <= length (pairsBytes kvs).
Proof.
  induction 1 as [[k o] kvs|[k o] [k' o'] kvs _ IH];
    rewrite pairsBytes_cons; cbn [fst snd] in *; list_len.
Qed.

Lemma pairsBytes_length_count (kvs : list (string * bytes)) :
  length kvs <= length (pairsBytes kvs).
Proof.
  induction kvs as [|[k o] kvs IH]; [simpl; lia|].
  rewrite pairsBytes_cons.
  pose proof (starts_length _ (lenPrefixed_starts (String.list_ascii_of_string k))) as Hk.
  rewrite <- stringBytes_lenPrefixed in Hk. list_len.
Qed.

Lemma Forall_pick {X Y} (R : X -> Y -> Prop) (xs : list X) :
  Forall (fun x => exists y, R x y) xs -> exists ys, Forall2 R xs ys.
Proof.
  induction 1 as [|x xs [y Hy] _ [ys IH]]; [by exists []|].
  exists (y :: ys). by constructor.
Qed.

(** A list text is read as the slice of its items, nil when there are
    none. *)
Lemma decode_listBytes (fuel : nat) (vs : list value) (outs : list bytes) :
  Forall2 (fun v o => reads (decode fuel) o v /\ starts o) vs outs ->
  reads (decode (S fuel)) (listBytes outs) (appended vs).
Proof.
  intros Hitems pre post Hfit. unfold listBytes in *.
  rewrite decode_l by (by eapply lookup_at_start).
  unfold decodeList.
  destruct (decide (_ !! length pre = Some "l"%char)) as [_|Hno].
  2:{ destruct Hno. by eapply lookup_at_start. }
  replace (pre ++ ("l"%char :: concat outs ++ ["e"%char]) ++ post)
    with ((pre ++ ["l"%char]) ++ concat outs ++ "e"%char :: post) in *
    by (rewrite <- !app_assoc; simpl; by rewrite <- app_assoc).
  replace (length pre + 1) with (length (pre ++ ["l"%char])) by list_len.
  rewrite (decodeListLoop_at _ _ _ Hitems); [| |done].
  - rewrite app_nil_l. do 2 f_equal. list_len.
  - pose proof (Forall2_length _ _ _ Hitems) as Hlen2. rewrite Hlen2.
    assert (length outs <= length (concat outs)).
    { apply concat_length_count. eapply Forall2_Forall_r; [exact Hitems|].
      apply Forall_true. intros. tauto. }
    list_len.
Qed.

(** A dictionary text is read as the map its pairs leave when they are
    stored one after the other. *)
Lemma decode_dictBytes (fuel : nat) (kvs : list (string * bytes)) (vs : list value) :
  Forall2 (fun kv v => reads (decode fuel) (stringBytes kv.1) (VString kv.1)
                       /\ reads (decode fuel) kv.2 v /\ starts kv.2) kvs vs ->
  reads (decode (S fuel)) (dictBytes kvs) (VDict (bindAll (zip kvs.*1 vs))).
Proof.
  intros Hitems pre post Hfit. unfold dictBytes in *.
  rewrite decode_d by (by eapply lookup_at_start).
  unfold decodeDict.
  destruct (decide (_ !! length pre = Some "d"%char)) as [_|Hno].
  2:{ destruct Hno. by eapply lookup_at_start. }
  replace (pre ++ ("d"%char :: pairsBytes kvs ++ ["e"%char]) ++ post)
    with ((pre ++ ["d"%char]) ++ pairsBytes kvs ++ "e"%char :: post) in *
    by (rewrite <- !app_assoc; simpl; by rewrite <- app_assoc).
  replace (length pre + 1) with (length (pre ++ ["d"%char])) by list_len.
  rewrite (decodeDictLoop_at _ _ _ Hitems); [| |done].
  2:{ pose proof (pairsBytes_length_count kvs). list_len. }
  f_equal. f_equal. list_len.
Qed.

(** [decode] reads the output of [Encode] back as the value in its
    canonical Go types, wherever the output stands in the input. *)
Lemma decode_Encode (v : value) :
  goValue v ->
  forall out, Encode v = Ok out ->
  forall fuel, length out <= fuel ->
  reads (decode fuel) out (canon v).
Proof.
  induction v as [s|b|n|n|l IH| |m IH| |ty] using value_ind';
    intros Hgo out Henc fuel Hfuel;
    pose proof (starts_length _ (Encode_starts _ _ Henc)) as Hpos;
    (destruct fuel as [|fuel]; [lia|]).
  - pose proof (Encode_leaf (VString s)) as Hl. simpl in Hl.
    rewrite Hl in Henc. injection Henc as <-. apply decode_stringBytes.
  - pose proof (Encode_leaf (VBytes b)) as Hl. simpl in Hl.
    rewrite Hl in Henc. injection Henc as <-. apply decode_lenPrefixed.
  - pose proof (Encode_leaf (VInt n)) as Hl. simpl in Hl.
    rewrite Hl in Henc. injection Henc as <-. apply decode_intBytes.
    by inversion Hgo.
  - pose proof (Encode_leaf (VInt64 n)) as Hl. simpl in Hl.
    rewrite Hl in Henc. injection Henc as <-. apply decode_intBytes.
    by inversion Hgo.
  - apply Encode_list in Henc as (outs & Hf & ->).
    inversion Hgo as [| | | |? Hgol| | | |]; subst.
    cbn [canon]. apply decode_listBytes.
    apply Forall2_fmap_l.
    assert (Hlen : forall o, o ∈ outs -> length o <= fuel).
    { intros o Ho. apply concat_length_elem in Ho.
      unfold listBytes in Hfuel. simpl in Hfuel. rewrite length_app in Hfuel.
      simpl in Hfuel. lia. }
    clear Hfuel Hpos Hgo. induction Hf as [|v o l outs Hv _ IHf]; [constructor|].
    inversion IH; subst. inversion Hgol; subst.
    constructor.
    + split; [|by eapply Encode_starts].
      apply H1; [done..|]. apply Hlen. left.
    + apply IHf; [done..|]. intros o' Ho'. apply Hlen. by right.
  - pose proof (Encode_leaf VNilList) as Hl. simpl in Hl.
    rewrite Hl in Henc. injection Henc as <-.
    apply (decode_listBytes fuel [] []). constructor.
  - apply Encode_dict in Henc as (kvs & Hkeys & Hall & ->).
    inversion Hgo as [| | | | | |? Hgom| |]; subst.
    assert (Hpick : exists vs, Forall2 (fun kv v' =>
              exists v, v' = canon v /\ m !! kv.1 = Some v /\ Encode v = Ok kv.2) kvs vs).
    { apply Forall_pick. eapply Forall_impl; [exact Hall|].
      intros kv (v & Hv & He). by exists (canon v), v. }
    destruct Hpick as [vs Hvs].
    assert (Hitems : Forall2 (fun kv v =>
              reads (decode fuel) (stringBytes kv.1) (VString kv.1)
              /\ reads (decode fuel) kv.2 v /\ starts kv.2) kvs vs).
    { assert (Hlen : forall kv, kv ∈ kvs ->
                length (stringBytes kv.1) + length kv.2 <= fuel).
      { intros kv Hkv. apply pairsBytes_length_elem in Hkv.
        unfold dictBytes in Hfuel. simpl in Hfuel. rewrite length_app in Hfuel.
        simpl in Hfuel. lia. }
      clear Hfuel Hpos Hgo Hkeys Hall.
      induction Hvs as [|kv v' kvs vs (v & -> & Hv & He) _ IHf]; [constructor|].
      constructor.
      - pose proof (Hlen kv ltac:(left)) as Hkv.
        pose proof (starts_length _ (lenPrefixed_starts (String.list_ascii_of_string kv.1))) as Hk.
        rewrite <- stringBytes_lenPrefixed in Hk.
        split; [|split].
        + destruct fuel as [|fuel]; [lia|]. apply decode_stringBytes.
        + apply (IH kv.1 v Hv); [by eapply Hgom | done | lia].
        + by eapply Encode_starts.
      - apply IHf. intros kv' Hkv'. apply Hlen. by right. }
    replace (canon (VDict m)) with (VDict (bindAll (zip kvs.*1 vs)));
      [by apply decode_dictBytes|].
    cbn [canon]. f_equal.
    pose proof (Forall2_length _ _ _ Hvs) as Hlen2.
    apply bindAll_of_map.
    + intros k [v' Hk]. rewrite fst_zip by (rewrite length_fmap; lia).
      rewrite Hkeys, sortStrings_Permutation. apply elem_of_rangeKeys.
      rewrite lookup_fmap in Hk. destruct (m !! k); [eauto | done].
    + clear -Hvs. induction Hvs as [|kv v' kvs vs (v & -> & Hv & _) _ IHf];
        [constructor|].
      simpl. constructor; [|done]. simpl. by rewrite lookup_fmap, Hv.
  - pose proof (Encode_leaf VNilDict) as Hl. simpl in Hl.
    rewrite Hl in Henc. injection Henc as <-.
    apply (decode_dictBytes fuel [] []). constructor.
  - pose proof (Encode_leaf (VOther ty)) as Hl. simpl in Hl. by rewrite Hl in Henc.
Qed.

(** The fuel [Decode] passes is enough for the output of [Encode]. *)
Lemma Decode_Encode_canon (v : value) (data : bytes) :
  goValue v -> Encode v = Ok data -> (len data <= maxInt64)%Z ->
  Decode data = Ok (canon v).
Proof.
  intros Hgo Henc Hfit. unfold Decode.
  pose proof (decode_Encode v Hgo data Henc (S (length data)) ltac:(lia) [] []) as Hd.
  rewrite app_nil_l, app_nil_r in Hd. simpl length in Hd.
  by rewrite Hd.
Qed.

End roundtrip.

(** * The decoder on any input *)
Import golib bencode props.

Section scanning.

Lemma indexFrom_app (c : ascii) (l suf : bytes) (pos : nat) :
  indexFrom c l pos < pos + length l ->
  indexFrom c (l ++ suf) pos = indexFrom c l pos.
Proof.
  revert pos. induction l as [|x l IH]; intros pos; simpl; [lia|].
  destruct (decide (x = c)); [done|]. intros Hlt. apply IH. lia.
Qed.

Lemma scanTo_lower (c : ascii) (data : bytes) (pos : nat) :
  pos <= scanTo c data pos.
Proof. unfold scanTo. apply indexFrom_bound. Qed.

Lemma scanTo_app (c : ascii) (data suf : bytes) (pos : nat) :
  scanTo c data pos < length data ->
  scanTo c (data ++ suf) pos = scanTo c data pos.
Proof.
  unfold scanTo. intros Hlt.
  pose proof (indexFrom_bound c (drop pos data) pos) as [Hlo _].
  rewrite drop_app_le by lia. apply indexFrom_app.
  rewrite length_drop. lia.
Qed.

Lemma substr_app (data suf : bytes) (lo hi : nat) :
  hi <= length data -> substr (data ++ suf) lo hi = substr data lo hi.
Proof.
  intros Hhi. unfold substr. f_equal.
  destruct (decide (lo <= length data)) as [Hlo|Hlo].
  - rewrite drop_app_le by done. apply take_app_le. rewrite length_drop. lia.
  - replace (hi - lo) with 0 by lia. by rewrite !take_0.
Qed.

Lemma slice_Ok (data : bytes) (lo hi : Z) (x : bytes) :
  slice data lo hi = Ok x ->
  (0 <= lo <= hi)%Z /\ (hi <= len data)%Z
  /\ x = take (Z.to_nat (hi - lo)) (drop (Z.to_nat lo) data).
Proof.
  unfold slice.
  destruct (Z.leb_spec 0 lo); [|done].
  destruct (Z.leb_spec lo hi); [|done].
  destruct (Z.leb_spec hi (len data)); [|done].
  simpl. intros [= <-]. repeat split; lia || done.
Qed.

Lemma slice_app (data suf : bytes) (lo hi : Z) (x : bytes) :
  slice data lo hi = Ok x -> slice (data ++ suf) lo hi = Ok x.
Proof.
  intros Hs. apply slice_Ok in Hs as (Hlo & Hhi & ->). unfold slice, len in *.
  rewrite length_app.
  destruct (Z.leb_spec 0 lo); [|lia].
  destruct (Z.leb_spec lo hi); [|lia].
  destruct (Z.leb_spec hi (Z.of_nat (length data + length suf))); [|lia].
  simpl. f_equal. rewrite drop_app_le by lia.
  apply take_app_le. rewrite length_drop. lia.
Qed.

End scanning.

Section leaves.

Lemma decodeInt_Ok (data : bytes) (start : nat) (v : value) (p : nat) :
  decodeInt data start = Ok (v, p) ->
  data !! start = Some "i"%char
  /\ scanTo "e" data (start + 1) < length data
  /\ p = scanTo "e" data (start + 1) + 1
  /\ exists n, v = VInt n
       /\ ParseInt (substr data (start + 1) (scanTo "e" data (start + 1))) = Some n.
Proof.
  unfold decodeInt.
  destruct (decide (data !! start = Some "i"%char)) as [Hi|]; [|done].
  destruct (decide (length data <= _)) as [|Hlt]; [done|].
  destruct (ParseInt _) as [n|] eqn:Hp; [|done].
  intros [= <- <-]. repeat split; [done | lia | eauto].
Qed.

Lemma decodeInt_progress (data : bytes) (start : nat) (v : value) (p : nat) :
  decodeInt data start = Ok (v, p) -> start < p <= length data.
Proof.
  intros (_ & Hlt & -> & _)%decodeInt_Ok.
  pose proof (scanTo_lower "e" data (start + 1)). lia.
Qed.

Lemma decodeInt_app (data suf : bytes) (start : nat) (r : value * nat) :
  decodeInt data start = Ok r -> decodeInt (data ++ suf) start = Ok r.
Proof.
  destruct r as [v p]. intros (Hi & Hlt & -> & n & -> & Hp)%decodeInt_Ok.
  unfold decodeInt. rewrite lookup_app_l by (by eapply lookup_lt_Some).
  destruct (decide (data !! start = Some "i"%char)); [|done].
  rewrite scanTo_app by done.
  destruct (decide (length (data ++ suf) <= _)) as [Hle|_].
  { rewrite length_app in Hle. lia. }
  rewrite substr_app by lia. by rewrite Hp.
Qed.

Lemma decodeString_Ok (data : bytes) (start : nat) (v : value) (p : nat) :
  decodeString data start = Ok (v, p) ->
  scanTo ":" data start < length data
  /\ exists length_ str,
       Atoi (substr data start (scanTo ":" data start)) = Some length_
       /\ (Z.of_nat p = wrap64 (Z.of_nat (scanTo ":" data start) + 1 + length_))%Z
       /\ slice data (Z.of_nat (scanTo ":" data start) + 1) (Z.of_nat p) = Ok str
       /\ v = VString (String.string_of_list_ascii str).
Proof.
  unfold decodeString. intros Hd. cbv zeta in Hd.
  set (colon := scanTo ":" data start) in *.
  destruct (decide (length data <= colon)) as [|Hlt]; [done|].
  destruct (Atoi _) as [length_|] eqn:Ha; [|done].
  destruct (Z.ltb_spec (len data) (wrap64 (Z.of_nat colon + 1 + length_))); [done|].
  destruct (slice _ _ _) as [str| | |] eqn:Hs; try done.
  simpl in Hd. injection Hd as <- <-.
  pose proof (slice_Ok _ _ _ _ Hs) as (Hlo & Hhi & _).
  split; [lia|]. exists length_, str.
  rewrite Z2Nat.id by lia. done.
Qed.

Lemma decodeString_progress (data : bytes) (start : nat) (v : value) (p : nat) :
  decodeString data start = Ok (v, p) -> start < p <= length data.
Proof.
  intros (Hlt & length_ & str & _ & _ & Hs & _)%decodeString_Ok.
  apply slice_Ok in Hs as (Hlo & Hhi & _). unfold len in Hhi.
  pose proof (scanTo_lower ":" data start). lia.
Qed.

Lemma decodeString_app (data suf : bytes) (start : nat) (r : value * nat) :
  decodeString data start = Ok r -> decodeString (data ++ suf) start = Ok r.
Proof.
  destruct r as [v p]. intros Hd.
  pose proof (decodeString_Ok _ _ _ _ Hd) as (Hlt & length_ & str & Ha & Hp & Hs & ->).
  unfold decodeString. rewrite scanTo_app by done.
  destruct (decide (length (data ++ suf) <= _)) as [Hle|_].
  { rewrite length_app in Hle. lia. }
  rewrite substr_app by lia. rewrite Ha, <- Hp.
  pose proof (slice_Ok _ _ _ _ Hs) as (Hlo & Hhi & _).
  destruct (Z.ltb_spec (len (data ++ suf)) (Z.of_nat p)) as [Hbad|_].
  { unfold len in *. rewrite length_app in Hbad. lia. }
  rewrite (slice_app _ _ _ _ _ Hs). simpl. by rewrite Nat2Z.id.
Qed.

End leaves.

Section loops_facts.
Variables (dec : bytes -> nat -> result (value * nat)) (data : bytes).

Lemma decodeListLoop_progress (n pos : nat) (acc : list value) (v : value) (p : nat) :
  advances dec data ->
  decodeListLoop dec n data pos acc = Ok (v, p) -> pos < p <= length data.
Proof.
  intros Hadv. revert pos acc.
  induction n as [|n IH]; intros pos acc; [done|]. cbn [decodeListLoop].
  destruct (data !! pos) as [c|] eqn:Hc; [|done].
  apply lookup_lt_Some in Hc.
  destruct (decide (c = "e"%char)); [intros [= <- <-]; lia|].
  destruct (dec data pos) as [[item newPos]| | |] eqn:Hdec; try done.
  cbn [mbind result_bind]. intros Hloop%IH.
  apply Hadv in Hdec. lia.
Qed.

Lemma decodeDictLoop_progress (n pos : nat) (acc : gmap string value)
    (v : value) (p : nat) :
  advances dec data ->
  decodeDictLoop dec n data pos acc = Ok (v, p) -> pos < p <= length data.
Proof.
  intros Hadv. revert pos acc.
  induction n as [|n IH]; intros pos acc; [done|]. cbn [decodeDictLoop].
  destruct (data !! pos) as [c|] eqn:Hc; [|done].
  apply lookup_lt_Some in Hc.
  destruct (decide (c = "e"%char)); [intros [= <- <-]; lia|].
  destruct (dec data pos) as [[key newPos]| | |] eqn:Hdec; try done.
  cbn [mbind result_bind]. destruct key; try done.
  destruct (dec data newPos) as [[value_ newPos']| | |] eqn:Hdec'; try done.
  cbn [mbind result_bind]. intros Hloop%IH.
  apply Hadv in Hdec, Hdec'. lia.
Qed.

(** The loops build slices and maps the way [decoded] says. *)
Lemma appended_decoded (l : list value) : Forall decoded l -> decoded (appended l).
Proof. destruct l; intros Hl; [constructor | by constructor]. Qed.

Lemma decodeListLoop_decoded (n pos : nat) (acc : list value) (v : value) (p : nat) :
  (forall pos v p, dec data pos = Ok (v, p) -> decoded v) ->
  Forall decoded acc ->
  decodeListLoop dec n data pos acc = Ok (v, p) -> decoded v.
Proof.
  intros Hdec. revert pos acc.
  induction n as [|n IH]; intros pos acc Hacc; [done|]. cbn [decodeListLoop].
  destruct (data !! pos) as [c|]; [|done].
  destruct (decide (c = "e"%char)); [intros [= <- <-]; by apply appended_decoded|].
  destruct (dec data pos) as [[item newPos]| | |] eqn:Hitem; try done.
  cbn [mbind result_bind]. apply IH.
  apply Forall_app. split; [done|]. constructor; [by eapply Hdec | constructor].
Qed.

Lemma decodeDictLoop_decoded (n pos : nat) (acc : gmap string value)
    (v : value) (p : nat) :
  (forall pos v p, dec data pos = Ok (v, p) -> decoded v) ->
  map_Forall (fun _ x => decoded x) acc ->
  decodeDictLoop dec n data pos acc = Ok (v, p) -> decoded v.
Proof.
  intros Hdec. revert pos acc.
  induction n as [|n IH]; intros pos acc Hacc; [done|]. cbn [decodeDictLoop].
  destruct (data !! pos) as [c|]; [|done].
  destruct (decide (c = "e"%char)); [intros [= <- <-]; by constructor|].
  destruct (dec data pos) as [[key newPos]| | |]; try done.
  cbn [mbind result_bind]. destruct key; try done.
  destruct (dec data newPos) as [[value_ newPos']| | |] eqn:Hvalue; try done.
  cbn [mbind result_bind]. apply IH.
  apply map_Forall_insert_2; [by eapply Hdec | done].
Qed.

(** With a turn of fuel for every byte left, the loops do not run
    out. *)
Lemma decodeListLoop_fuel (n pos : nat) (acc : list value) :
  advances dec data ->
  (forall pos', pos <= pos' -> dec data pos' <> OutOfFuel) ->
  length data - pos < n ->
  decodeListLoop dec n data pos acc <> OutOfFuel.
Proof.
  intros Hadv. revert pos acc.
  induction n as [|n IH]; intros pos acc Hdec Hn; [lia|]. cbn [decodeListLoop].
  destruct (data !! pos) as [c|] eqn:Hc; [|done].
  apply lookup_lt_Some in Hc.
  destruct (decide (c = "e"%char)); [done|].
  destruct (dec data pos) as [[item newPos]| | |] eqn:Hd; try done.
  - cbn [mbind result_bind]. apply Hadv in Hd. apply IH; [|lia].
    intros pos' Hpos'. apply Hdec. lia.
  - by destruct (Hdec pos).
Qed.

Lemma decodeDictLoop_fuel (n pos : nat) (acc : gmap string value) :
  advances dec data ->
  (forall pos', pos <= pos' -> dec data pos' <> OutOfFuel) ->
  length data - pos < n ->
  decodeDictLoop dec n data pos acc <> OutOfFuel.
Proof.
  intros Hadv. revert pos acc.
  induction n as [|n IH]; intros pos acc Hdec Hn; [lia|]. cbn [decodeDictLoop].
  destruct (data !! pos) as [c|] eqn:Hc; [|done].
  apply lookup_lt_Some in Hc.
  destruct (decide (c = "e"%char)); [done|].
  destruct (dec data pos) as [[key newPos]| | |] eqn:Hd; try done.
  - cbn [mbind result_bind]. apply Hadv in Hd. destruct key; try done.
    destruct (dec data newPos) as [[value_ newPos']| | |] eqn:Hd'; try done.
    + cbn [mbind result_bind]. apply Hadv in Hd'. apply IH; [|lia].
      intros pos' Hpos'. apply Hdec. lia.
    + destruct (Hdec newPos); [lia | done].
  - by destruct (Hdec pos).
Qed.

(** More input behind, more fuel and a decoder that reads at least as
    much leave the result of a loop as it is. *)
Variables (dec' : bytes -> nat -> result (value * nat)) (suf : bytes).
Hypothesis dec_app : forall pos r, dec data pos = Ok r -> dec' (data ++ suf) pos = Ok r.

Lemma decodeListLoop_app (n n' pos : nat) (acc : list value) (r : value * nat) :
  n <= n' ->
  decodeListLoop dec n data pos acc = Ok r ->
  decodeListLoop dec' n' (data ++ suf) pos acc = Ok r.
Proof.
  revert n' pos acc.
  induction n as [|n IH]; intros n' pos acc Hn; [done|].
  destruct n' as [|n']; [lia|]. cbn [decodeListLoop].
  destruct (data !! pos) as [c|] eqn:Hc; [|done].
  rewrite lookup_app_l by (by eapply lookup_lt_Some). rewrite Hc.
  destruct (decide (c = "e"%char)); [done|].
  destruct (dec data pos) as [[item newPos]| | |] eqn:Hd; try done.
  rewrite (dec_app _ _ Hd). cbn [mbind result_bind]. apply IH. lia.
Qed.

Lemma decodeDictLoop_app (n n' pos : nat) (acc : gmap string value) (r : value * nat) :
  n <= n' ->
  decodeDictLoop dec n data pos acc = Ok r ->
  decodeDictLoop dec' n' (data ++ suf) pos acc = Ok r.
Proof.
  revert n' pos acc.
  induction n as [|n IH]; intros n' pos acc Hn; [done|].
  destruct n' as [|n']; [lia|]. cbn [decodeDictLoop].
  destruct (data !! pos) as [c|] eqn:Hc; [|done].
  rewrite lookup_app_l by (by eapply lookup_lt_Some). rewrite Hc.
  destruct (decide (c = "e"%char)); [done|].
  destruct (dec data pos) as [[key newPos]| | |] eqn:Hd; try done.
  rewrite (dec_app _ _ Hd). cbn [mbind result_bind]. destruct key; try done.
  destruct (dec data newPos) as [[value_ newPos']| | |] eqn:Hd'; try done.
  rewrite (dec_app _ _ Hd'). cbn [mbind result_bind]. apply IH. lia.
Qed.

End loops_facts.

Section decode_facts.

Lemma decode_progress (fuel : nat) (data : bytes) : advances (decode fuel) data.
Proof.
  induction fuel as [|fuel IH]; intros pos v p; [done|]. cbn [decode].
  destruct (data !! pos) as [c|] eqn:Hc; [|done].
  destruct (decide (c = "i"%char)); [apply decodeInt_progress|].
  destruct (decide (c = "l"%char)).
  { unfold decodeList. destruct (decide _); [|done].
    intros Hl%decodeListLoop_progress; [lia | done]. }
  destruct (decide (c = "d"%char)).
  { unfold decodeDict. destruct (decide _); [|done].
    intros Hl%decodeDictLoop_progress; [lia | done]. }
  destruct (isDigit c); [apply decodeString_progress | done].
Qed.

(** What [decode] returns is made of strings, ints, slices that hold an
    item or are nil, and maps that are not nil. *)
Lemma decode_decoded (fuel : nat) (data : bytes) :
  forall pos v p, decode fuel data pos = Ok (v, p) -> decoded v.
Proof.
  induction fuel as [|fuel IH]; intros pos v p; [done|]. cbn [decode].
  destruct (data !! pos) as [c|]; [|done].
  destruct (decide (c = "i"%char)).
  { unfold decodeInt. destruct (decide _); [|done].
    destruct (decide _); [done|]. destruct (ParseInt _); [|done].
    intros [= <- <-]. constructor. }
  destruct (decide (c = "l"%char)).
  { unfold decodeList. destruct (decide _); [|done].
    apply decodeListLoop_decoded; [done | constructor]. }
  destruct (decide (c = "d"%char)).
  { unfold decodeDict. destruct (decide _); [|done].
    apply decodeDictLoop_decoded; [done | apply map_Forall_empty]. }
  destruct (isDigit c); [|done].
  unfold decodeString. destruct (decide _); [done|].
  destruct (Atoi _); [|done]. destruct (_ <? _)%Z; [done|].
  destruct (slice _ _ _); try done. cbn [mbind result_bind].
  intros [= <- <-]. constructor.
Qed.

Lemma Decode_decoded (data : bytes) (v : value) : Decode data = Ok v -> decoded v.
Proof.
  unfold Decode. destruct (decode _ data 0) as [[v' p]| | |] eqn:Hd; try done.
  cbn [mbind result_bind]. intros [= <-]. by eapply decode_decoded.
Qed.

Lemma decodeInt_fuel (data : bytes) (pos : nat) : decodeInt data pos <> OutOfFuel.
Proof.
  unfold decodeInt. destruct (decide _); [|done].
  destruct (decide _); [done|]. by destruct (ParseInt _).
Qed.

Lemma decodeString_fuel (data : bytes) (pos : nat) : decodeString data pos <> OutOfFuel.
Proof.
  unfold decodeString. destruct (decide _); [done|].
  destruct (Atoi _); [|done]. destruct (_ <? _)%Z; [done|].
  unfold slice. by destruct (_ && _).
Qed.

(** One unit of fuel for every byte left, and one more, is enough. *)
Lemma decode_fuel (fuel : nat) (data : bytes) (pos : nat) :
  length data - pos < fuel -> decode fuel data pos <> OutOfFuel.
Proof.
  revert pos. induction fuel as [|fuel IH]; intros pos Hfuel; [lia|]. cbn [decode].
  destruct (data !! pos) as [c|] eqn:Hc; [|done].
  apply lookup_lt_Some in Hc.
  destruct (decide (c = "i"%char)); [apply decodeInt_fuel|].
  destruct (decide (c = "l"%char)).
  { unfold decodeList. destruct (decide _); [|done].
    apply decodeListLoop_fuel; [apply decode_progress | | lia].
    intros pos' Hpos'. apply IH. lia. }
  destruct (decide (c = "d"%char)).
  { unfold decodeDict. destruct (decide _); [|done].
    apply decodeDictLoop_fuel; [apply decode_progress | | lia].
    intros pos' Hpos'. apply IH. lia. }
  destruct (isDigit c); [apply decodeString_fuel | done].
Qed.

(** [Decode] never stops for lack of fuel: it is the total function the
    Go code is. *)
Lemma Decode_fuel (data : bytes) : Decode data <> OutOfFuel.
Proof.
  unfold Decode. pose proof (decode_fuel (S (length data)) data 0 ltac:(lia)) as Hf.
  destruct (decode _ data 0) as [[v p]| | |]; done.
Qed.

Lemma decode_app (fuel : nat) :
  forall fuel' data suf pos r,
    fuel <= fuel' ->
    decode fuel data pos = Ok r -> decode fuel' (data ++ suf) pos = Ok r.
Proof.
  induction fuel as [|fuel IH]; intros fuel' data suf pos r Hfuel; [done|].
  destruct fuel' as [|fuel']; [lia|]. cbn [decode].
  destruct (data !! pos) as [c|] eqn:Hc; [|done].
  rewrite lookup_app_l by (by eapply lookup_lt_Some). rewrite Hc.
  destruct (decide (c = "i"%char)); [apply decodeInt_app|].
  destruct (decide (c = "l"%char)).
  { unfold decodeList.
    rewrite lookup_app_l by (by eapply lookup_lt_Some).
    destruct (decide _); [|done].
    apply decodeListLoop_app; [|rewrite length_app; lia].
    intros pos' r'. apply IH. lia. }
  destruct (decide (c = "d"%char)).
  { unfold decodeDict.
    rewrite lookup_app_l by (by eapply lookup_lt_Some).
    destruct (decide _); [|done].
    apply decodeDictLoop_app; [|rewrite length_app; lia].
    intros pos' r'. apply IH. lia. }
  destruct (isDigit c); [apply decodeString_app | done].
Qed.

End decode_facts.

(** * The claims about package bencode *)
Import golib bencode props samples.

Section canon_facts.

Lemma canon_decoded (v : value) : decoded v -> canon v = v.
Proof.
  induction v as [s|b|n|n|l IH| |m IH| |ty] using value_ind'; intros Hdec;
    inversion Hdec as [| |? Hne Hl| |? Hm]; subst; try done; cbn [canon].
  - assert (canon <$> l = l) as ->; [|by destruct l].
    clear Hdec Hne. revert IH. induction Hl as [|x l Hx Hl IHl]; intros IH; [done|].
    inversion IH as [|? ? Hx' IH']; subst.
    rewrite fmap_cons. f_equal; [by apply Hx' | by apply IHl].
  - f_equal. apply map_eq. intros k. rewrite lookup_fmap.
    destruct (m !! k) as [x|] eqn:Hk; [|done].
    simpl. f_equal. apply (IH k x Hk). by eapply Hm.
Qed.

Lemma Encode_list_items (l : list value) (out : bytes) :
  Encode (VList l) = Ok out -> Forall (fun x => is_Ok (Encode x)) l.
Proof.
  intros (outs & Hf & _)%Encode_list.
  induction Hf as [|x o l outs Hx _ IH]; constructor; [by exists o | done].
Qed.

Lemma Encode_dict_items (m : gmap string value) (out : bytes) :
  Encode (VDict m) = Ok out -> map_Forall (fun _ x => is_Ok (Encode x)) m.
Proof.
  intros (kvs & Hkeys & Hall & _)%Encode_dict k x Hk.
  assert (Hin : k ∈ kvs.*1).
  { rewrite Hkeys, sortStrings_Permutation. apply elem_of_rangeKeys. eauto. }
  apply list_elem_of_fmap in Hin as (kv & -> & Hkv).
  rewrite Forall_forall in Hall. destruct (Hall kv Hkv) as (v & Hv & He).
  exists kv.2. congruence.
Qed.

Lemma fmap_canon_fixed (l : list value) :
  canon <$> l = l -> Forall (fun x => canon x = x) l.
Proof.
  induction l as [|x l IH]; [constructor|].
  rewrite fmap_cons. intros [= Hx Hl]. constructor; [done | by apply IH].
Qed.

(** Among the values [Encode] accepts, the ones [canon] leaves alone are
    the ones made the way [Decode] makes them. *)
Lemma decoded_canon (v : value) : is_Ok (Encode v) -> canon v = v -> decoded v.
Proof.
  induction v as [s|b|n|n|l IH| |m IH| |ty] using value_ind';
    intros [out Henc] Hfix; try (constructor; fail); try discriminate Hfix.
  - cbn [canon] in Hfix. destruct l as [|x l]; [discriminate Hfix|].
    rewrite fmap_cons in Hfix. cbn [appended] in Hfix.
    injection Hfix as Hx Hl.
    apply Encode_list_items in Henc.
    constructor; [done|].
    assert (Hfixed : Forall (fun x => canon x = x) (x :: l)).
    { apply fmap_canon_fixed. rewrite fmap_cons. congruence. }
    clear Hx Hl. revert Henc Hfixed.
    induction IH as [|y l' Hy _ IHl]; intros Henc Hfixed; [constructor|].
    inversion Henc; subst. inversion Hfixed; subst.
    constructor; [by apply Hy | by apply IHl].
  - cbn [canon] in Hfix. injection Hfix as Hm.
    apply Encode_dict_items in Henc.
    constructor. intros k x Hk. apply (IH k x Hk); [by eapply Henc|].
    assert (Hlook : (canon <$> m) !! k = Some x) by (by rewrite Hm).
    rewrite lookup_fmap, Hk in Hlook. by injection Hlook.
  - pose proof (Encode_leaf (VOther ty)) as Hl. simpl in Hl. congruence.
Qed.

End canon_facts.

(** Closed Go values are checked constructor by constructor. *)
Ltac go_value :=
  repeat first
    [ apply go_string | apply go_bytes
    | apply go_int; vm_compute; split; discriminate
    | apply go_int64; vm_compute; split; discriminate
    | apply go_list | apply Forall_cons_2 | apply Forall_nil_2
    | apply go_nil_list | apply go_nil_dict
    | apply go_dict; apply map_Forall_singleton ].

(** C2, as stated, fails: [Encode] accepts a [[]byte], and [Decode] gives
    back the [string] of the same bytes, a value of another Go type. *)
Lemma C2_bytes_counterexample :
  goValue (VBytes (bs "a"))
  /\ Encode (VBytes (bs "a")) = Ok (bs "1:a")
  /\ Decode (bs "1:a") = Ok (VString "a")
  /\ Decode (bs "1:a") <> Ok (VBytes (bs "a")).
Proof. split; [constructor|]. by vm_compute. Qed.

(** C2, amended: for every Go value [v] that [Encode] accepts,
    [Decode(Encode(v))] succeeds and returns [v] with every [[]byte]
    replaced by the [string] of the same bytes, every [int64] by the
    [int] of the same value, every empty list by the nil list and every
    nil map by the empty map; this is [v] itself exactly when [v] is made
    of strings, ints, lists that hold an item or are nil, and maps that
    are not nil. *)
Theorem C2_Decode_Encode (v : value) (data : bytes) :
  goValue v -> Encode v = Ok data -> (len data <= maxInt64)%Z ->
  Decode data = Ok (canon v) /\ (canon v = v <-> decoded v).
Proof.
  intros Hgo Henc Hfit. split; [by apply Decode_Encode_canon|].
  split; [apply decoded_canon; by exists data | apply canon_decoded].
Qed.

Lemma C2_Decode_Encode_witness :
  Decode (bs "d1:kl2:xyi-7e1:zi0eee") = Ok (canon C2_sample)
  /\ (canon C2_sample = C2_sample <-> decoded C2_sample).
Proof.
  apply (C2_Decode_Encode C2_sample (bs "d1:kl2:xyi-7e1:zi0eee")).
  - go_value.
  - vm_compute. reflexivity.
  - vm_compute. discriminate.
Defined.

(** An empty list comes back as the nil slice, which [reflect.DeepEqual]
    tells from the empty one, and a nil map as an empty map. *)
Example empty_list_comes_back_nil :
  Encode (VList []) = Ok (bs "le") /\ Decode (bs "le") = Ok VNilList
  /\ Encode VNilDict = Ok (bs "de") /\ Decode (bs "de") = Ok (VDict ∅).
Proof. by vm_compute. Qed.

Section integer_literals.

Lemma parseDigits_all_digits (ds : string) (a : Z) :
  all_digits ds ->
  parseDigits ds a
  = Some (foldl (fun a c => 10 * a + (byteVal c - 48))%Z a
                (String.list_ascii_of_string ds)).
Proof.
  revert a. induction ds as [|c ds IH]; intros a Hall; [done|].
  inversion Hall as [|? ? Hc Hds]; subst.
  rewrite parseDigits_cons. unfold digitVal.
  destruct Hc as [H1 H2].
  destruct (Z.leb_spec 48 (byteVal c)); [|lia].
  destruct (Z.leb_spec (byteVal c) 57); [|lia].
  simpl. by rewrite IH.
Qed.

(** What [Decode] makes of the text between [i] and [e]. *)
Lemma Decode_int_literal (text : string) :
  "e"%char ∉ String.list_ascii_of_string text ->
  Decode ("i"%char :: String.list_ascii_of_string text ++ ["e"%char])
  = match ParseInt text with
    | Some n => Ok (VInt n)
    | None => Err ("invalid integer: " +:+ text)
    end.
Proof.
  intros Hno. unfold Decode. set (digits := String.list_ascii_of_string text) in *.
  rewrite decode_i by done. unfold decodeInt.
  destruct (decide (_ !! 0 = Some "i"%char)) as [_|]; [|done].
  pose proof (scanTo_at "e" ["i"%char] digits [] Hno) as Hscan.
  simpl in Hscan. simpl (0 + 1). rewrite Hscan.
  destruct (decide (_ <= _)) as [Hle|_].
  { simpl in Hle. rewrite length_app in Hle. simpl in Hle. lia. }
  pose proof (substr_at ["i"%char] digits ["e"%char]) as Hsub.
  simpl in Hsub. rewrite Hsub. unfold digits.
  rewrite String.string_of_list_ascii_of_string.
  by destruct (ParseInt text).
Qed.

Lemma ParseInt_digits (ds : string) :
  ds <> EmptyString -> all_digits ds ->
  ParseInt ds = if (digitsValue ds <=? maxInt64)%Z then Some (digitsValue ds) else None.
Proof.
  intros Hne Hall. destruct ds as [|c ds]; [done|]. unfold ParseInt.
  inversion Hall as [|? ? Hc _]; subst.
  destruct (is_digit_not_sign c Hc) as (Hp & Hm & _).
  destruct (decide (c = "+"%char)); [done|].
  destruct (decide (c = "-"%char)); [done|].
  rewrite parseDigits_all_digits by done. fold (digitsValue (String c ds)).
  simpl negb. simpl andb. unfold maxInt64.
  destruct (Z.leb_spec (2 ^ 63) (digitsValue (String c ds)));
    destruct (Z.leb_spec (digitsValue (String c ds)) (2 ^ 63 - 1)); done || lia.
Qed.

Lemma ParseInt_minus_digits (ds : string) :
  ds <> EmptyString -> all_digits ds ->
  ParseInt (String "-" ds)
  = if (digitsValue ds <=? 2 ^ 63)%Z then Some (- digitsValue ds)%Z else None.
Proof.
  intros Hne Hall. unfold ParseInt.
  destruct (decide ("-"%char = "+"%char)); [done|].
  destruct (decide ("-"%char = "-"%char)); [|done].
  destruct ds as [|c ds]; [done|].
  rewrite parseDigits_all_digits by done. fold (digitsValue (String c ds)).
  simpl negb. simpl andb.
  destruct (Z.ltb_spec (2 ^ 63) (digitsValue (String c ds)));
    destruct (Z.leb_spec (digitsValue (String c ds)) (2 ^ 63)); done || lia.
Qed.

End integer_literals.

(** C4, as stated, fails: [Decode] reads [i042e] as 42 and [i-0e] as 0. *)
Lemma C4_leading_zero_counterexample :
  Decode (bs "i042e") = Ok (VInt 42) /\ Decode (bs "i-0e") = Ok (VInt 0).
Proof. by vm_compute. Qed.

(** C4, amended: [Decode] accepts integer literals with leading zeros and
    accepts [-0].  For every non-empty run [ds] of decimal digits, the
    literal [i ds e] decodes to the number [ds] denotes when that number is
    at most 2^63 - 1 and is an "invalid integer" error otherwise, and
    [i - ds e] decodes to minus that number when it is at most 2^63 and is
    an "invalid integer" error otherwise. *)
Theorem C4_decodeInt_literals (ds : string) :
  ds <> EmptyString -> all_digits ds ->
  Decode (bs ("i" +:+ ds +:+ "e"))
  = (if (digitsValue ds <=? maxInt64)%Z then Ok (VInt (digitsValue ds))
     else Err ("invalid integer: " +:+ ds))
  /\ Decode (bs ("i-" +:+ ds +:+ "e"))
     = (if (digitsValue ds <=? 2 ^ 63)%Z then Ok (VInt (- digitsValue ds))
        else Err ("invalid integer: -" +:+ ds)).
Proof.
  intros Hne Hall.
  pose proof (all_digits_no "e" ds Hall e_not_digit) as Hno.
  unfold bs. split.
  - rewrite !list_ascii_app. change (String.list_ascii_of_string "i") with ["i"%char].
    change (String.list_ascii_of_string "e") with ["e"%char]. simpl app.
    rewrite Decode_int_literal, ParseInt_digits by done.
    by destruct (_ <=? _)%Z.
  - rewrite !list_ascii_app. change (String.list_ascii_of_string "i-") with ["i"%char; "-"%char].
    change (String.list_ascii_of_string "e") with ["e"%char]. simpl app.
    change ("-"%char :: String.list_ascii_of_string ds ++ ["e"%char])
      with (String.list_ascii_of_string (String "-" ds) ++ ["e"%char]).
    rewrite Decode_int_literal.
    + rewrite ParseInt_minus_digits by done. by destruct (_ <=? _)%Z.
    + simpl. apply not_elem_of_cons. by split.
Qed.

Lemma C4_decodeInt_literals_witness :
  Decode (bs ("i" +:+ "042" +:+ "e"))
  = (if (digitsValue "042" <=? maxInt64)%Z then Ok (VInt (digitsValue "042"))
     else Err ("invalid integer: " +:+ "042"))
  /\ Decode (bs ("i-" +:+ "042" +:+ "e"))
     = (if (digitsValue "042" <=? 2 ^ 63)%Z then Ok (VInt (- digitsValue "042"))
        else Err ("invalid integer: -" +:+ "042")).
Proof.
  apply (C4_decodeInt_literals "042").
  - discriminate.
  - repeat constructor; vm_compute; discriminate.
Defined.

(** C9: [Decode] reads one value from the front of its input and does not
    look behind it: when [Decode b] succeeds, [Decode (b ++ s)] succeeds
    with the same value for every [s], and nothing tells the caller that
    [s] was there. *)
Theorem C9_Decode_ignores_trailing (b s : bytes) (v : value) :
  Decode b = Ok v -> Decode (b ++ s) = Ok v.
Proof.
  unfold Decode. intros Hb.
  destruct (decode (S (length b)) b 0) as [[v' p]| | |] eqn:Hd; try done.
  cbn [mbind result_bind] in Hb. injection Hb as ->.
  rewrite (decode_app (S (length b)) (S (length (b ++ s))) b s 0 (v, p)); [done| |done].
  rewrite length_app. lia.
Qed.

Lemma C9_Decode_ignores_trailing_witness :
  Decode (bs "li1e3:abce" ++ bs "trailing") = Ok (VList [VInt 1; VString "abc"]).
Proof.
  apply (C9_Decode_ignores_trailing (bs "li1e3:abce") (bs "trailing")).
  vm_compute. reflexivity.
Defined.

Section key_order.

Lemma compare_refl (s : string) : String.compare s s = Eq.
Proof.
  induction s as [|c s IH]; [done|]. simpl.
  unfold Ascii.compare. by rewrite N.compare_refl.
Qed.

Lemma ascii_compare_Lt (a b : ascii) :
  Ascii.compare a b = Lt <-> (byteVal a < byteVal b)%Z.
Proof.
  unfold Ascii.compare, byteVal. rewrite N.compare_lt_iff. lia.
Qed.

Lemma compare_Lt_lex (s1 s2 : string) :
  String.compare s1 s2 = Lt
  <-> lex_lt (String.list_ascii_of_string s1) (String.list_ascii_of_string s2).
Proof.
  revert s2. induction s1 as [|a s1 IH]; intros [|b s2]; simpl.
  - split; [done | inversion 1].
  - split; [constructor | done].
  - split; [done | inversion 1].
  - destruct (Ascii.compare a b) eqn:Hab.
    + apply Ascii.compare_eq_iff in Hab as ->. rewrite IH. split.
      * by constructor.
      * intros Hlex. inversion Hlex as [|? ? ? ? Hlt|]; subst; [lia | done].
    + split; [|done]. intros _. apply lex_head. by apply ascii_compare_Lt.
    + split; [done|]. intros Hlex. inversion Hlex as [|? ? ? ? Hlt|]; subst.
      * apply ascii_compare_Lt in Hlt. congruence.
      * unfold Ascii.compare in Hab. by rewrite N.compare_refl in Hab.
Qed.

(** The order [sortStrings] sorts by, made strict, is the
    lexicographic order of the raw bytes. *)
Lemma string_lt_lex (s1 s2 : string) :
  string_lt s1 s2
  <-> lex_lt (String.list_ascii_of_string s1) (String.list_ascii_of_string s2).
Proof.
  rewrite <- compare_Lt_lex. unfold string_lt, String.le, String.leb.
  destruct (String.compare s1 s2) eqn:Hc.
  - apply String.compare_eq_iff in Hc as ->. split; [intros [_ ?]; done | done].
  - split; [done|]. intros _. split; [done|]. intros ->.
    by rewrite compare_refl in Hc.
  - split; [intros [[] _] | done].
Qed.

End key_order.

(** C8: the output of [Encode] for a dictionary is [d], then for each key
    the key and the output for the value bound to it, then [e]; the keys
    are those of the dictionary, each once, in strictly ascending
    lexicographic order of their raw bytes. *)
Theorem C8_dict_keys_ascending (m : gmap string value) (out : bytes) :
  Encode (VDict m) = Ok out ->
  exists kvs : list (string * bytes),
    out = dictBytes kvs
    /\ (forall k, k ∈ kvs.*1 <-> is_Some (m !! k))
    /\ StronglySorted (fun k1 k2 => lex_lt (bs k1) (bs k2)) kvs.*1
    /\ Forall (fun kv => exists v, m !! kv.1 = Some v /\ Encode v = Ok kv.2) kvs.
Proof.
  intros (kvs & Hkeys & Hall & ->)%Encode_dict.
  exists kvs. split; [done|]. split; [|split; [|done]].
  - intros k. rewrite Hkeys, sortStrings_Permutation. apply elem_of_rangeKeys.
  - rewrite Hkeys.
    pose proof (sortStrings_strict _ (rangeKeys_NoDup m)) as Hs.
    clear Hkeys Hall. revert Hs. generalize (sortStrings (rangeKeys m)).
    induction 1 as [|k ks _ IH Hk]; constructor; [done|].
    eapply Forall_impl; [exact Hk|]. intros k' Hlt. by apply string_lt_lex.
Qed.

Lemma C8_dict_keys_ascending_witness :
  exists kvs : list (string * bytes),
    bs "d1:Bi2e1:ai1e2:aai3ee" = dictBytes kvs
    /\ (forall k, k ∈ kvs.*1
          <-> is_Some (({[ "a" := VInt 1; "aa" := VInt 3; "B" := VInt 2 ]}
                         : gmap string value) !! k))
    /\ StronglySorted (fun k1 k2 => lex_lt (bs k1) (bs k2)) kvs.*1
    /\ Forall (fun kv => exists v,
                 ({[ "a" := VInt 1; "aa" := VInt 3; "B" := VInt 2 ]}
                    : gmap string value) !! kv.1 = Some v
                 /\ Encode v = Ok kv.2) kvs.
Proof.
  apply (C8_dict_keys_ascending {[ "a" := VInt 1; "aa" := VInt 3; "B" := VInt 2 ]}).
  vm_compute. reflexivity.
Defined.

(** C10: a dictionary text whose keys come in any order, the same key
    possibly more than once, decodes; each pair is stored in turn, so a
    key ends up bound to the value of its last occurrence, and texts that
    differ only in the order of their keys or in overwritten occurrences
    decode to the same map. *)
Theorem C10_dict_duplicate_keys (kvs : list (string * value)) (outs : list bytes) :
  Forall2 (fun kv o => goValue kv.2 /\ Encode kv.2 = Ok o) kvs outs ->
  (len (dictBytes (zip kvs.*1 outs)) <= maxInt64)%Z ->
  Decode (dictBytes (zip kvs.*1 outs))
  = Ok (VDict (bindAll (zip kvs.*1 (canon <$> kvs.*2))))
  /\ (forall l1 k v l2,
        kvs = l1 ++ (k, v) :: l2 -> k ∉ l2.*1 ->
        bindAll (zip kvs.*1 (canon <$> kvs.*2)) !! k = Some (canon v))
  /\ (forall k, k ∉ kvs.*1 -> bindAll (zip kvs.*1 (canon <$> kvs.*2)) !! k = None).
Proof.
  intros Hf Hfit.
  assert (Hzip : forall l : list (string * value),
            zip l.*1 (canon <$> l.*2) = (fun kv => (kv.1, canon kv.2)) <$> l).
  { clear. induction l as [|[k v] l IH]; [done|].
    rewrite !fmap_cons. cbn. f_equal. exact IH. }
  split; [|split].
  - unfold Decode, dictBytes in *.
    set (ps := zip kvs.*1 outs) in *.
    set (data := "d"%char :: pairsBytes ps ++ ["e"%char]) in *.
    rewrite decode_d by done. unfold decodeDict.
    destruct (decide (_ !! 0 = Some "d"%char)) as [_|]; [|done].
    assert (Hitems : Forall2 (fun kv v =>
              reads (decode (length data)) (stringBytes kv.1) (VString kv.1)
              /\ reads (decode (length data)) kv.2 v /\ starts kv.2)
              ps (canon <$> kvs.*2)).
    { assert (Hlen : forall kv, kv ∈ ps ->
                length (stringBytes kv.1) + length kv.2 <= length data).
      { intros kv Hkv%pairsBytes_length_elem. subst data. list_len. }
      assert (Hdata : 0 < length data) by (subst data; simpl; lia).
      clearbody data. subst ps. clear Hfit.
      induction Hf as [|[k v] o kvs outs [Hgo Henc] _ IH]; [constructor|].
      simpl. constructor.
      - simpl. split; [|split].
        + destruct (length data); [lia|]. apply decode_stringBytes.
        + apply decode_Encode; [done..|].
          specialize (Hlen (k, o) ltac:(left)). simpl in Hlen. lia.
        + by eapply Encode_starts.
      - apply IH. intros kv Hkv. apply Hlen. by right. }
    pose proof (decodeDictLoop_at _ _ _ Hitems (length data) ∅ ["d"%char] []) as Hloop.
    change (["d"%char] ++ pairsBytes ps ++ ["e"%char]) with data in Hloop.
    simpl (length ["d"%char]) in Hloop. simpl (0 + 1).
    rewrite Hloop; [| |done].
    + cbn [mbind result_bind]. do 2 f_equal. unfold bindAll. f_equal.
      subst ps. rewrite fst_zip; [done|].
      rewrite length_fmap. apply Forall2_length in Hf. lia.
    + pose proof (pairsBytes_length_count ps). subst data. list_len.
  - intros l1 k v l2 -> Hk. rewrite Hzip, fmap_app, fmap_cons. simpl.
    apply bindAll_lookup_last. rewrite <- list_fmap_compose. exact Hk.
  - intros k Hk. apply bindAll_lookup_None. rewrite Hzip, <- list_fmap_compose.
    exact Hk.
Qed.

Lemma C10_dict_duplicate_keys_witness :
  Decode (dictBytes (zip [("b", VInt 1); ("a", VString "x"); ("b", VInt 2)].*1
                         [bs "i1e"; bs "1:x"; bs "i2e"]))
  = Ok (VDict (bindAll (zip [("b", VInt 1); ("a", VString "x"); ("b", VInt 2)].*1
                            (canon <$> [("b", VInt 1); ("a", VString "x"); ("b", VInt 2)].*2))))
  /\ (forall l1 k v l2,
        [("b", VInt 1); ("a", VString "x"); ("b", VInt 2)] = l1 ++ (k, v) :: l2 ->
        k ∉ l2.*1 ->
        bindAll (zip [("b", VInt 1); ("a", VString "x"); ("b", VInt 2)].*1
                     (canon <$> [("b", VInt 1); ("a", VString "x"); ("b", VInt 2)].*2))
          !! k = Some (canon v))
  /\ (forall k, k ∉ [("b", VInt 1); ("a", VString "x"); ("b", VInt 2)].*1 ->
        bindAll (zip [("b", VInt 1); ("a", VString "x"); ("b", VInt 2)].*1
                     (canon <$> [("b", VInt 1); ("a", VString "x"); ("b", VInt 2)].*2))
          !! k = None).
Proof.
  apply (C10_dict_duplicate_keys
           [("b", VInt 1); ("a", VString "x"); ("b", VInt 2)]
           [bs "i1e"; bs "1:x"; bs "i2e"]).
  - repeat (apply Forall2_cons_2 || apply Forall2_nil_2);
      (split; [go_value | vm_compute; reflexivity]).
  - vm_compute. discriminate.
Defined.

(** The text of the witness is [d1:bi1e1:a1:x1:bi2ee], and the key [b]
    ends up bound to 2. *)
Example duplicate_key_last_wins :
  dictBytes (zip ["b"; "a"; "b"] [bs "i1e"; bs "1:x"; bs "i2e"])
  = bs "d1:bi1e1:a1:x1:bi2ee"
  /\ Decode (bs "d1:bi1e1:a1:x1:bi2ee")
     = Ok (VDict {[ "a" := VString "x"; "b" := VInt 2 ]}).
Proof. split; vm_compute; reflexivity. Qed.


(** * The claims about package torrent *)
Import golib bencode props samples torrent.

Section fill_loops.
Context {A : Type}.

(** A loop [for i := 0; i < n; i++ { xs[i] = ... }] over a slice made
    with [n] elements: when turn [i] stores [g i] at index [i] of any
    slice that satisfies the invariant [P] element by element, the loop
    ends with the elements [g 0 .. g (n - 1)]. *)
Lemma foldl_fill (step : list A -> nat -> result (list A)) (g : nat -> A)
    (P : A -> Prop) (init : list A) (n : nat) :
  length init = n -> Forall P init ->
  (forall k, k < n -> P (g k)) ->
  (forall k xs, k < n -> length xs = n -> Forall P xs ->
                step xs k = Ok (<[k := g k]> xs)) ->
  foldl (fun acc i => xs ← acc; step xs i) (Ok init) (seq 0 n)
  = Ok (g <$> seq 0 n).
Proof.
  intros Hlen Hinit Hg Hstep.
  assert (Hk : forall k, k <= n ->
            foldl (fun acc i => xs ← acc; step xs i) (Ok init) (seq 0 k)
            = Ok ((g <$> seq 0 k) ++ drop k init)).
  { induction k as [|k IH]; intros Hle; [by rewrite drop_0|].
    rewrite seq_S, foldl_app, IH by lia. simpl.
    rewrite Hstep; [| lia | |].
    - f_equal. rewrite fmap_app, <- app_assoc. simpl.
      rewrite insert_app_r_alt by (rewrite length_fmap, length_seq; lia).
      rewrite length_fmap, length_seq, Nat.sub_diag.
      f_equal. rewrite (drop_S init (default (g k) (init !! k)) k).
      + done.
      + destruct (init !! k) eqn:Hi; [done|].
        apply lookup_ge_None in Hi. lia.
    - rewrite length_app, length_fmap, length_seq, length_drop. lia.
    - apply Forall_app. split; [|by apply Forall_drop].
      apply Forall_fmap, Forall_forall. intros i Hi%elem_of_seq.
      apply Hg. lia. }
  rewrite Hk by lia. rewrite drop_ge by lia. by rewrite app_nil_r.
Qed.

End fill_loops.

Section peers.

Lemma byteVal_range (c : ascii) : (0 <= byteVal c < 256)%Z.
Proof. unfold byteVal. pose proof (N_ascii_bounded c). lia. Qed.

Lemma lor_shiftl8 (a b : Z) :
  (0 <= a < 256)%Z -> (0 <= b)%Z -> Z.lor a (Z.shiftl b 8) = (256 * b + a)%Z.
Proof.
  intros Ha Hb. rewrite <- Z.add_nocarry_lor.
  - rewrite Z.shiftl_mul_pow2 by lia. lia.
  - apply Z.bits_inj'. intros n Hn. rewrite Z.land_spec, Z.bits_0.
    destruct (Z.lt_ge_cases n 8) as [Hlt|Hge].
    + rewrite (Z.shiftl_spec_low b 8 n) by lia. apply andb_false_r.
    + destruct (decide (a = 0%Z)) as [->|Hne]; [by rewrite Z.bits_0|].
      rewrite (Z.bits_above_log2 a n); [done | lia |].
      assert (Z.log2 a < 8)%Z; [|lia]. apply Z.log2_lt_pow2; lia.
Qed.

Lemma slice_window (b : bytes) (lo n : nat) :
  lo + n <= length b ->
  slice b (Z.of_nat lo) (Z.of_nat lo + Z.of_nat n) = Ok (window b lo n).
Proof.
  intros Hle. unfold slice, window, len.
  destruct (Z.leb_spec 0 (Z.of_nat lo)); [|lia].
  destruct (Z.leb_spec (Z.of_nat lo) (Z.of_nat lo + Z.of_nat n)); [|lia].
  destruct (Z.leb_spec (Z.of_nat lo + Z.of_nat n) (Z.of_nat (length b))); [|lia].
  simpl. rewrite Nat2Z.id. do 2 f_equal. lia.
Qed.

Lemma window_two (b : bytes) (lo : nat) :
  lo + 2 <= length b ->
  exists b0 b1, window b lo 2 = [b0; b1]
                /\ byteAt b lo = byteVal b0 /\ byteAt b (lo + 1) = byteVal b1.
Proof.
  intros Hle. unfold window, byteAt.
  destruct (drop lo b) as [|b0 [|b1 rest]] eqn:Hd.
  - apply (f_equal length) in Hd. rewrite length_drop in Hd. simpl in Hd. lia.
  - apply (f_equal length) in Hd. rewrite length_drop in Hd. simpl in Hd. lia.
  - exists b0, b1. split; [done|].
    pose proof (lookup_drop b lo 0) as H0. pose proof (lookup_drop b lo 1) as H1.
    rewrite Hd in H0, H1. simpl in H0, H1. rewrite Nat.add_0_r in H0.
    by rewrite <- H0, <- H1.
Qed.

Lemma parsePeer_step (b : bytes) (k : nat) (peers : list Peer) :
  6 * k + 6 <= length b -> k < length peers ->
  parsePeer b peers k = Ok (<[k := peerAt b k]> peers).
Proof.
  intros Hb Hk. unfold parsePeer.
  replace (Z.of_nat k * 6)%Z with (Z.of_nat (6 * k)) by lia.
  change 4%Z with (Z.of_nat 4). rewrite slice_window by lia.
  cbn [mbind result_bind].
  replace (Z.of_nat (6 * k) + Z.of_nat 4)%Z with (Z.of_nat (6 * k + 4)) by lia.
  replace (Z.of_nat (6 * k) + 6)%Z with (Z.of_nat (6 * k + 4) + Z.of_nat 2)%Z by lia.
  rewrite slice_window by lia. cbn [mbind result_bind].
  destruct (window_two b (6 * k + 4)) as (b0 & b1 & -> & H0 & H1); [lia|].
  cbn [BigEndian_Uint16 mbind result_bind].
  destruct (decide (k < length peers)); [|lia].
  do 2 f_equal. unfold peerAt. f_equal.
  rewrite lor_shiftl8 by (apply byteVal_range).
  replace (6 * k + 5) with (6 * k + 4 + 1) by lia. by rewrite H0, H1.
Qed.

End peers.

(** C6: [parsePeers b] is an error exactly when the length of [b] is not
    a multiple of 6; otherwise it returns [len(b)/6] peers, peer [i]
    having the bytes [[6i, 6i+4)] of [b] as its address and the big-endian
    number in the bytes [[6i+4, 6i+6)] as its port. *)
Theorem C6_parsePeers (b : bytes) :
  (is_Err (parsePeers b) <-> length b mod 6 <> 0)
  /\ (parsePeers b = Ok (peersOf b) <-> length b mod 6 = 0)
  /\ length (peersOf b) = length b / 6
  /\ (forall i, i < length b / 6 ->
        peersOf b !! i
        = Some {| IP := window b (6 * i) 4;
                  Port := (256 * byteAt b (6 * i + 4) + byteAt b (6 * i + 5))%Z |}).
Proof.
  assert (Hrem : Z.rem (len b) 6 = Z.of_nat (length b mod 6)).
  { unfold len. rewrite Z.rem_mod_nonneg by lia. by rewrite Nat2Z.inj_mod. }
  assert (Hquot : Z.to_nat (Z.quot (len b) 6) = length b / 6).
  { unfold len. rewrite Z.quot_div_nonneg by lia.
    rewrite <- (Nat2Z.id (length b / 6)). f_equal. by rewrite Nat2Z.inj_div. }
  assert (Hok : length b mod 6 = 0 -> parsePeers b = Ok (peersOf b)).
  { intros Hmod. unfold parsePeers. rewrite Hrem, Hmod.
    destruct (decide (Z.of_nat 0 ≠ 0%Z)) as [?|_]; [done|].
    rewrite Hquot. unfold peersOf.
    apply (foldl_fill (parsePeer b) (peerAt b) (fun _ => True)).
    - by rewrite length_replicate.
    - by apply Forall_true.
    - done.
    - intros k xs Hk Hxs _. apply parsePeer_step; [|lia].
      pose proof (Nat.div_mod_eq (length b) 6). lia. }
  assert (Herr : length b mod 6 <> 0 -> is_Err (parsePeers b)).
  { intros Hmod. unfold parsePeers. rewrite Hrem.
    destruct (decide (Z.of_nat (length b mod 6) ≠ 0%Z)) as [_|]; [|lia].
    by eexists. }
  split; [|split; [|split]].
  - split; [|done]. intros [e He] Hmod. by rewrite (Hok Hmod) in He.
  - split; [|done]. intros Hp.
    destruct (decide (length b mod 6 = 0)) as [|Hne]; [done|].
    destruct (Herr Hne) as [e He]. congruence.
  - unfold peersOf. by rewrite length_fmap, length_seq.
  - intros i Hi. unfold peersOf. rewrite list_lookup_fmap, lookup_seq_lt by done.
    done.
Qed.

(** The compact peer list of the specification's scenario 7. *)
Example parsePeers_scenario :
  parsePeers (byteOf <$> [192; 168; 1; 1; 31; 144; 10; 0; 0; 1; 26; 225]%Z)
  = Ok [ {| IP := byteOf <$> [192; 168; 1; 1]%Z; Port := 8080 |};
         {| IP := byteOf <$> [10; 0; 0; 1]%Z; Port := 6881 |} ].
Proof. vm_compute. reflexivity. Qed.

Section pieces.

Lemma window_length (b : bytes) (lo n : nat) :
  lo + n <= length b -> length (window b lo n) = n.
Proof. intros Hle. unfold window. rewrite length_take, length_drop. lia. Qed.

Lemma copy_full {A} (dst src : list A) :
  length dst = length src -> copy dst src = src.
Proof.
  intros Hlen. unfold copy. rewrite take_ge, drop_ge by lia. apply app_nil_r.
Qed.

Lemma copyPieceHash_step (pieces : bytes) (k : nat) (hs : list bytes) :
  20 * k + 20 <= length pieces -> k < length hs ->
  Forall (fun h => length h = 20) hs ->
  copyPieceHash pieces hs k = Ok (<[k := window pieces (20 * k) 20]> hs).
Proof.
  intros Hp Hk Hhs. unfold copyPieceHash.
  replace (Z.of_nat k * 20)%Z with (Z.of_nat (20 * k)) by lia.
  replace ((Z.of_nat k + 1) * 20)%Z with (Z.of_nat (20 * k) + Z.of_nat 20)%Z by lia.
  rewrite slice_window by lia. cbn [mbind result_bind].
  destruct (hs !! k) as [dst|] eqn:Hdst.
  - rewrite copy_full; [done|].
    rewrite window_length by lia.
    eapply (proj1 (Forall_forall _ _) Hhs dst), list_elem_of_lookup_2, Hdst.
  - apply lookup_ge_None in Hdst. lia.
Qed.

Lemma pieceHashes_loop (pieces : string) :
  String.length pieces mod 20 = 0 ->
  foldl (fun acc i => hs ← acc; copyPieceHash (String.list_ascii_of_string pieces) hs i)
        (Ok (replicate (String.length pieces / 20) zeroHash))
        (seq 0 (String.length pieces / 20))
  = Ok (hashesOf pieces).
Proof.
  intros Hmod. unfold hashesOf.
  pose proof (Nat.div_mod_eq (String.length pieces) 20) as Hdiv.
  apply (foldl_fill (copyPieceHash (String.list_ascii_of_string pieces)) _
           (fun h => length h = 20)).
  - by rewrite length_replicate.
  - apply Forall_replicate. done.
  - intros k Hk. apply window_length. rewrite list_ascii_length. lia.
  - intros k xs Hk Hxs Hall. apply copyPieceHash_step; [|lia|done].
    rewrite list_ascii_length. lia.
Qed.

Lemma parseTorrentDict_fields (dict : gmap string value) (f : fields) :
  has_fields dict f ->
  parseTorrentDict dict
  = if decide (String.length (f_pieces f) mod 20 = 0)
    then Ok {| Announce := f_announce f; InfoHash := zeroHash;
               PieceHashes := hashesOf (f_pieces f);
               PieceLength := f_pieceLength f; Length := f_length f;
               Name := f_name f |}
    else Err "invalid pieces length (must be multiple of 20)".
Proof.
  intros (Ha & Hi & Hp & Hpl & Hl & Hn). unfold parseTorrentDict.
  rewrite Ha, Hi. cbn [orErr mbind result_bind].
  rewrite Hp, Hpl, Hl, Hn. cbn [orErr mbind result_bind].
  assert (Hrem : Z.rem (Z.of_nat (String.length (f_pieces f))) 20
                 = Z.of_nat (String.length (f_pieces f) mod 20)).
  { rewrite Z.rem_mod_nonneg by lia. by rewrite Nat2Z.inj_mod. }
  assert (Hquot : Z.to_nat (Z.quot (Z.of_nat (String.length (f_pieces f))) 20)
                  = String.length (f_pieces f) / 20).
  { rewrite Z.quot_div_nonneg by lia.
    rewrite <- (Nat2Z.id (String.length (f_pieces f) / 20)). f_equal.
    by rewrite Nat2Z.inj_div. }
  rewrite Hrem, Hquot.
  destruct (decide (String.length (f_pieces f) mod 20 = 0)) as [Hmod|Hmod].
  - destruct (decide (Z.of_nat _ ≠ 0%Z)) as [?|_]; [lia|].
    by rewrite pieceHashes_loop.
  - destruct (decide (Z.of_nat _ ≠ 0%Z)) as [_|?]; [done|lia].
Qed.

Lemma parseTorrentDict_Ok (dict : gmap string value) (t : TorrentFile) :
  parseTorrentDict dict = Ok t -> exists f, has_fields dict f.
Proof.
  unfold parseTorrentDict. intros Hp.
  destruct (asString (dict !! "announce")) as [announce|] eqn:Ha; [|done].
  destruct (asDict (dict !! "info")) as [infoDict|] eqn:Hi; [|done].
  cbn [orErr mbind result_bind] in Hp.
  destruct (asString (infoDict !! "pieces")) as [pieces|] eqn:Hpc; [|done].
  destruct (asInt (infoDict !! "piece length")) as [pl|] eqn:Hpl; [|done].
  destruct (asInt (infoDict !! "length")) as [l|] eqn:Hl; [|done].
  destruct (asString (infoDict !! "name")) as [name|] eqn:Hn; [|done].
  by exists (mkFields announce infoDict pieces pl l name).
Qed.

End pieces.

(** C5, as stated, fails: a [pieces] string of length zero is accepted,
    and the metainfo has no piece hashes. *)
Lemma C5_empty_pieces_counterexample :
  exists t,
    Parse (bs "d8:announce1:u4:infod6:lengthi0e4:name1:n12:piece lengthi1e6:pieces0:ee")
    = Ok t
    /\ PieceHashes t = [].
Proof. eexists. split; [vm_compute; reflexivity | reflexivity]. Qed.

(** C5, amended: metainfo parsing accepts the [pieces] field exactly when
    its length is a multiple of 20, zero included.  A parsed metainfo has
    [len(pieces)/20] piece hashes, hash [i] being the bytes
    [[20i, 20i+20)] of [pieces]; with the other fields in place, a
    [pieces] string of another length gives the error "invalid pieces
    length (must be multiple of 20)", and a [pieces] field that is missing
    or not a string gives "missing or invalid pieces". *)
Theorem C5_parseTorrentDict_pieces (dict : gmap string value) :
  (forall t, parseTorrentDict dict = Ok t ->
     exists infoDict pieces,
       asDict (dict !! "info") = Some infoDict
       /\ asString (infoDict !! "pieces") = Some pieces
       /\ String.length pieces mod 20 = 0
       /\ length (PieceHashes t) = String.length pieces / 20
       /\ forall i, i < String.length pieces / 20 ->
            PieceHashes t !! i = Some (window (bs pieces) (20 * i) 20))
  /\ (forall f, has_fields dict f ->
        String.length (f_pieces f) mod 20 = 0 -> is_Ok (parseTorrentDict dict))
  /\ (forall f, has_fields dict f ->
        String.length (f_pieces f) mod 20 <> 0 ->
        parseTorrentDict dict = Err "invalid pieces length (must be multiple of 20)")
  /\ (forall announce infoDict,
        asString (dict !! "announce") = Some announce ->
        asDict (dict !! "info") = Some infoDict ->
        asString (infoDict !! "pieces") = None ->
        parseTorrentDict dict = Err "missing or invalid pieces").
Proof.
  split; [|split; [|split]].
  - intros t Ht. destruct (parseTorrentDict_Ok dict t Ht) as [f Hf].
    rewrite (parseTorrentDict_fields dict f Hf) in Ht.
    destruct (decide (String.length (f_pieces f) mod 20 = 0)) as [Hmod|]; [|done].
    injection Ht as <-. destruct Hf as (_ & Hi & Hp & _).
    exists (f_info f), (f_pieces f). cbn [PieceHashes]. unfold hashesOf.
    repeat split; try done.
    + by rewrite length_fmap, length_seq.
    + intros i Hi'. by rewrite list_lookup_fmap, lookup_seq_lt.
  - intros f Hf Hmod. rewrite (parseTorrentDict_fields dict f Hf).
    destruct (decide _); [by eexists | done].
  - intros f Hf Hmod. rewrite (parseTorrentDict_fields dict f Hf).
    by destruct (decide _).
  - intros announce infoDict Ha Hi Hp. unfold parseTorrentDict.
    rewrite Ha, Hi. cbn [orErr mbind result_bind]. by rewrite Hp.
Qed.

(** The torrent of the package's test: two pieces. *)
Example Parse_test_torrent :
  exists t,
    Parse (bs ("d8:announce40:http://tracker.example.com:8080/announce"
               +:+ "4:infod6:lengthi524288e4:name8:test.txt"
               +:+ "12:piece lengthi262144e"
               +:+ "6:pieces40:abcdefghij1234567890abcdefghij1234567890ee"))
    = Ok t
    /\ PieceHashes t = [bs "abcdefghij1234567890"; bs "abcdefghij1234567890"]
    /\ PieceLength t = 262144%Z /\ Length t = 524288%Z /\ Name t = "test.txt".
Proof. eexists. split; [vm_compute; reflexivity | by vm_compute]. Qed.

Example Parse_invalid_pieces_length :
  Parse (bs ("d8:announce18:http://example.com4:infod6:lengthi1024e4:name4:test"
             +:+ "12:piece lengthi262144e6:pieces13:invalidlengthee"))
  = Err "invalid pieces length (must be multiple of 20)".
Proof. vm_compute. reflexivity. Qed.

Section info_hash.

Lemma Encode_appended (l : list value) : Encode (appended l) = Encode (VList l).
Proof. by destruct l. Qed.

(** [Encode] does not tell a [[]byte] from a [string], an [int64] from
    an [int], nor a nil slice or map from an empty one. *)
Lemma Encode_canon (v : value) :
  forall out, Encode v = Ok out -> Encode (canon v) = Ok out.
Proof.
  induction v as [s|b|n|n|l IH| |m IH| |ty] using value_ind'; intros out Henc;
    try done.
  - pose proof (Encode_leaf (VBytes b)) as H1. simpl in H1.
    rewrite H1 in Henc. injection Henc as <-. cbn [canon].
    pose proof (Encode_leaf (VString (String.string_of_list_ascii b))) as H2.
    simpl in H2. rewrite H2, stringBytes_lenPrefixed.
    by rewrite String.list_ascii_of_string_of_list_ascii.
  - apply Encode_list in Henc as (outs & Hf & ->). cbn [canon].
    rewrite Encode_appended.
    apply Encode_list. exists outs. split; [|done].
    apply Forall2_fmap_l. clear -IH Hf.
    induction Hf as [|v o l outs Hv _ IHf]; [constructor|].
    inversion IH; subst. constructor; auto.
  - apply Encode_dict in Henc as (kvs & Hkeys & Hall & ->). cbn [canon].
    apply Encode_dict. exists kvs. split; [|split; [|done]].
    + rewrite Hkeys. apply sortStrings_order_irrelevant.
      apply NoDup_Permutation; try apply rangeKeys_NoDup.
      intros k. rewrite !elem_of_rangeKeys, lookup_fmap.
      destruct (m !! k); simpl; split; intros [? ?]; eauto; done.
    + eapply Forall_impl; [exact Hall|]. intros kv (v & Hv & He).
      exists (canon v). rewrite lookup_fmap, Hv. split; [done|].
      by eapply IH.
Qed.

Lemma Parse_Ok (data : bytes) (t : TorrentFile) :
  Parse data = Ok t ->
  exists torrentDict t' info enc,
    Decode data = Ok (VDict torrentDict)
    /\ parseTorrentDict torrentDict = Ok t'
    /\ torrentDict !! "info" = Some info
    /\ Encode info = Ok enc
    /\ t = withInfoHash t' (sha1.Sum enc).
Proof.
  unfold Parse. intros Hp.
  destruct (Decode data) as [dv| | |] eqn:Hd; try done.
  apply Decode_decoded in Hd.
  destruct Hd as [| | | |torrentDict _]; try done. cbn [asDict] in Hp.
  destruct (parseTorrentDict torrentDict) as [t'| | |] eqn:Ht; try done.
  cbn [mbind result_bind] in Hp.
  destruct (torrentDict !! "info") as [info|] eqn:Hi; [|done].
  destruct (Encode info) as [enc| | |] eqn:He; try done.
  injection Hp as <-. by eexists _, _, _, _.
Qed.

Lemma putBE_length (n : nat) (x : Z) : length (sha1.putBE n x) = n.
Proof. unfold sha1.putBE. by rewrite length_fmap, length_seq. Qed.

(** A SHA-1 digest has 20 bytes. *)
Lemma Sum_length (data : bytes) : length (sha1.Sum data) = 20.
Proof.
  unfold sha1.Sum. destruct (sha1.blocks _ _ _) as [[[[h0 h1] h2] h3] h4].
  by rewrite !length_app, !putBE_length.
Qed.

Section span_loop.
Variable dec : bytes -> nat -> result (value * nat).

(** Over the pairs [kvs] of a dictionary text in which every value bound
    to [key] is written [enc], the span kept for [key] holds [enc]. *)
Lemma spanLoop_at (key : string) (enc : bytes) (data : bytes)
    (kvs : list (string * bytes)) :
  (len data <= maxInt64)%Z ->
  Forall (fun kv => reads dec (stringBytes kv.1) (VString kv.1)
                    /\ (exists v, reads dec kv.2 v) /\ starts kv.2
                    /\ (kv.1 = key -> kv.2 = enc)) kvs ->
  forall n pre post found,
    data = pre ++ pairsBytes kvs ++ "e"%char :: post ->
    length kvs < n ->
    (found = None -> key ∈ kvs.*1) ->
    (forall lo hi, found = Some (lo, hi) -> take (hi - lo) (drop lo data) = enc) ->
    exists lo hi,
      spanLoop dec n data (length pre) key found = Some (lo, hi)
      /\ take (hi - lo) (drop lo data) = enc.
Proof.
  intros Hfit.
  induction 1 as [|[k o] kvs (Hkey & [v Hv] & (c & rest & Ho & Hc) & Henc) _ IH];
    intros n pre post found Hdata Hn Hnone Hsome.
  - destruct n as [|n]; [simpl in Hn; lia|]. cbn [spanLoop].
    assert (Hlook : data !! length pre = Some "e"%char).
    { rewrite Hdata. simpl. by rewrite list_lookup_middle. }
    rewrite Hlook.
    destruct (decide ("e"%char = "e"%char)); [|done].
    destruct found as [[lo hi]|].
    + exists lo, hi. split; [done|]. by apply Hsome.
    + specialize (Hnone eq_refl). by apply elem_of_nil in Hnone.
  - destruct n as [|n]; [simpl in Hn; lia|]. cbn [spanLoop].
    cbn [fst snd] in *. rewrite pairsBytes_cons in Hdata.
    assert (Hd1 : data = pre ++ stringBytes k ++ (o ++ pairsBytes kvs ++ "e"%char :: post)).
    { rewrite Hdata. by rewrite <- !app_assoc. }
    assert (Hd2 : data = (pre ++ stringBytes k) ++ o ++ (pairsBytes kvs ++ "e"%char :: post)).
    { rewrite Hdata. by rewrite <- !app_assoc. }
    assert (Hd3 : data = ((pre ++ stringBytes k) ++ o) ++ pairsBytes kvs ++ "e"%char :: post).
    { rewrite Hdata. by rewrite <- !app_assoc. }
    destruct (lenPrefixed_head (String.list_ascii_of_string k)) as (ck & restk & Hk & Hck).
    rewrite <- stringBytes_lenPrefixed in Hk.
    assert (Hlook : data !! length pre = Some ck).
    { rewrite Hd1. by eapply lookup_at_start. }
    rewrite Hlook.
    destruct (decide (ck = "e"%char)) as [->|_]; [by destruct e_not_digit|].
    assert (Hk1 : dec data (length pre)
                  = Ok (VString k, length (pre ++ stringBytes k))).
    { rewrite length_app, Hd1. apply Hkey. by rewrite <- Hd1. }
    rewrite Hk1.
    assert (Hv1 : dec data (length (pre ++ stringBytes k))
                  = Ok (v, length ((pre ++ stringBytes k) ++ o))).
    { rewrite (length_app (pre ++ stringBytes k) o), Hd2. apply Hv. by rewrite <- Hd2. }
    rewrite Hv1.
    apply (IH n _ post _ Hd3); [simpl in Hn; lia| |].
    + intros Hf. destruct (decide (k = key)) as [|Hne]; [done|].
      specialize (Hnone Hf). simpl in Hnone.
      apply elem_of_cons in Hnone as [?|?]; [congruence | done].
    + intros lo hi Hf. destruct (decide (k = key)) as [Heq|Hne]; [|by apply Hsome].
      injection Hf as <- <-. rewrite Hd2.
      rewrite drop_app_length.
      replace (length ((pre ++ stringBytes k) ++ o) - length (pre ++ stringBytes k))
        with (length o) by list_len.
      rewrite take_app_length. by apply Henc.
Qed.

End span_loop.

(** In the output of [Encode] for a dictionary, the bytes of the value
    of a key are the output of [Encode] for that value. *)
Lemma rawValue_Encode (m : gmap string value) (data : bytes) (key : string)
    (v : value) (enc : bytes) :
  goValue (VDict m) -> Encode (VDict m) = Ok data -> (len data <= maxInt64)%Z ->
  m !! key = Some v -> Encode v = Ok enc ->
  rawValue data key = Some enc.
Proof.
  intros Hgo Henc Hfit Hkey Hv.
  pose proof Henc as (kvs & Hkeys & Hall & Hdata)%Encode_dict.
  inversion Hgo as [| | | | | |? Hgom| |]; subst m0.
  unfold rawValue.
  destruct (decide (data !! 0 = Some "d"%char)) as [_|Hno].
  2:{ destruct Hno. by rewrite Hdata. }
  assert (Hlen : length data = S (length (pairsBytes kvs) + 1)).
  { rewrite Hdata. unfold dictBytes. list_len. }
  destruct (spanLoop_at (decode (S (length data))) key enc data kvs Hfit)
    with (n := length data) (pre := ["d"%char]) (post := @nil ascii) (found := @None (nat * nat))
    as (lo & hi & Hspan & Hraw).
  - assert (Hle : forall kv, kv ∈ kvs ->
              length (stringBytes kv.1) + length kv.2 <= length data).
    { intros kv Hkv%pairsBytes_length_elem. lia. }
    clear Hdata Hkeys Hlen. induction Hall as [|kv kvs (v' & Hv' & He') _ IH];
      constructor.
    + split; [apply decode_stringBytes|]. split; [|split].
      * exists (canon v'). apply decode_Encode; [by eapply Hgom | done |].
        specialize (Hle kv ltac:(left)). lia.
      * by eapply Encode_starts.
      * intros Heq. rewrite Heq in Hv'. congruence.
    + apply IH. intros kv' Hkv'. apply Hle. by right.
  - by rewrite Hdata.
  - pose proof (pairsBytes_length_count kvs). lia.
  - intros _. rewrite Hkeys, sortStrings_Permutation. apply elem_of_rangeKeys. eauto.
  - done.
  - change (length ["d"%char]) with 1 in Hspan. rewrite Hspan. by rewrite Hraw.
Qed.

End info_hash.

(** C1, as stated, fails: on an accepted file whose [info] dictionary is
    not in canonical form, [InfoHash] is the digest of the re-encoded
    dictionary, which is not the digest of the bytes in the file. *)
Lemma C1_reencoded_counterexample :
  exists t,
    Parse unsorted_torrent = Ok t
    /\ rawInfo unsorted_torrent
       = Some (bs "d6:pieces0:12:piece lengthi1e4:name1:n6:lengthi0ee")
    /\ InfoHash t
       = sha1.Sum (bs "d6:lengthi0e4:name1:n12:piece lengthi1e6:pieces0:e")
    /\ InfoHash t
       <> sha1.Sum (bs "d6:pieces0:12:piece lengthi1e4:name1:n6:lengthi0ee").
Proof.
  eexists. split; [vm_compute; reflexivity|].
  split; [vm_compute; reflexivity|]. split; [vm_compute; reflexivity|].
  vm_compute. discriminate.
Qed.

(** C1, amended: for every input [Parse] accepts, [InfoHash] is the
    20-byte SHA-1 of the output of [Encode] for the decoded [info] value,
    a re-encoded copy; when the input is in canonical form, that is, the
    output of [Encode] for some value, these are the bytes of the [info]
    value as they stand in the input. *)
Theorem C1_InfoHash_reencoded (data : bytes) (t : TorrentFile) :
  Parse data = Ok t ->
  exists torrentDict info enc,
    Decode data = Ok (VDict torrentDict)
    /\ torrentDict !! "info" = Some info
    /\ Encode info = Ok enc
    /\ InfoHash t = sha1.Sum enc
    /\ length (InfoHash t) = 20
    /\ (forall v, goValue v -> Encode v = Ok data -> (len data <= maxInt64)%Z ->
          rawInfo data = Some enc).
Proof.
  intros (torrentDict & t' & info & enc & Hdec & _ & Hinfo & Henc & ->)%Parse_Ok.
  exists torrentDict, info, enc. cbn [withInfoHash InfoHash].
  repeat split; try done; [apply Sum_length|].
  intros v Hgo Hv Hfit.
  pose proof (Decode_Encode_canon v data Hgo Hv Hfit) as Hcanon.
  rewrite Hdec in Hcanon. injection Hcanon as Hcanon.
  destruct v as [| | | |l| |m| |]; try done; cbn [canon] in Hcanon.
  { by destruct l. }
  2:{ injection Hcanon as ->. by rewrite lookup_empty in Hinfo. }
  injection Hcanon as ->. rewrite lookup_fmap in Hinfo.
  destruct (m !! "info") as [info0|] eqn:Hinfo0; [|done].
  injection Hinfo as <-.
  pose proof Hv as (kvs & Hkeys & Hall & _)%Encode_dict.
  assert (Hin : "info" ∈ kvs.*1).
  { rewrite Hkeys, sortStrings_Permutation. apply elem_of_rangeKeys. eauto. }
  apply list_elem_of_fmap in Hin as (kv & Hk & Hin).
  apply (proj1 (Forall_forall _ _) Hall) in Hin as (v0 & Hv0 & Henc0).
  rewrite <- Hk, Hinfo0 in Hv0. injection Hv0 as <-.
  rewrite (Encode_canon _ _ Henc0) in Henc. injection Henc as <-.
  by eapply rawValue_Encode.
Qed.

Lemma C1_InfoHash_reencoded_witness :
  exists torrentDict info enc,
    Decode sorted_torrent = Ok (VDict torrentDict)
    /\ torrentDict !! "info" = Some info
    /\ Encode info = Ok enc
    /\ InfoHash sorted_torrent_parsed = sha1.Sum enc
    /\ length (InfoHash sorted_torrent_parsed) = 20
    /\ (forall v, goValue v -> Encode v = Ok sorted_torrent ->
          (len sorted_torrent <= maxInt64)%Z ->
          rawInfo sorted_torrent = Some enc).
Proof.
  apply (C1_InfoHash_reencoded sorted_torrent sorted_torrent_parsed).
  vm_compute. reflexivity.
Defined.

(** On the canonical file the digest is the one of the bytes in the
    file. *)
Example sorted_torrent_raw :
  rawInfo sorted_torrent
  = Some (bs "d6:lengthi0e4:name1:n12:piece lengthi1e6:pieces0:e")
  /\ Parse sorted_torrent = Ok sorted_torrent_parsed.
Proof. split; vm_compute; reflexivity. Qed.

(** * The claims about package client *)
Import golib bencode props samples peer client.

Section piece_messages.

Lemma lor_shiftl (k a b : Z) :
  (0 <= k)%Z -> (0 <= a < 2 ^ k)%Z -> (0 <= b)%Z ->
  Z.lor a (Z.shiftl b k) = (2 ^ k * b + a)%Z.
Proof.
  intros Hk Ha Hb. rewrite <- Z.add_nocarry_lor.
  - rewrite Z.shiftl_mul_pow2 by lia. lia.
  - apply Z.bits_inj'. intros n Hn. rewrite Z.land_spec, Z.bits_0.
    destruct (Z.lt_ge_cases n k) as [Hlt|Hge].
    + rewrite (Z.shiftl_spec_low b k n) by lia. apply andb_false_r.
    + destruct (decide (a = 0%Z)) as [->|Hne]; [by rewrite Z.bits_0|].
      rewrite (Z.bits_above_log2 a n); [done | lia |].
      assert (Z.log2 a < k)%Z; [|lia]. apply Z.log2_lt_pow2; lia.
Qed.

Lemma be32_arith (b0 b1 b2 b3 : ascii) :
  Z.lor (Z.lor (Z.lor (byteVal b3) (Z.shiftl (byteVal b2) 8))
               (Z.shiftl (byteVal b1) 16))
        (Z.shiftl (byteVal b0) 24)
  = (2 ^ 24 * byteVal b0 + 2 ^ 16 * byteVal b1 + 2 ^ 8 * byteVal b2 + byteVal b3)%Z.
Proof.
  pose proof (byteVal_range b0). pose proof (byteVal_range b1).
  pose proof (byteVal_range b2). pose proof (byteVal_range b3).
  rewrite (lor_shiftl 8) by lia. rewrite (lor_shiftl 16) by lia.
  rewrite (lor_shiftl 24) by lia. lia.
Qed.

Lemma uint32At_range (b : bytes) (i : nat) : (0 <= uint32At b i < 2 ^ 32)%Z.
Proof.
  unfold uint32At, byteAt.
  assert (Hb : forall j, (0 <= default 0 (byteVal <$> b !! j) < 256)%Z).
  { intros j. destruct (b !! j); simpl; [apply byteVal_range | lia]. }
  pose proof (Hb i). pose proof (Hb (i + 1)). pose proof (Hb (i + 2)).
  pose proof (Hb (i + 3)). lia.
Qed.

(** The two words in front of a piece payload. *)
Lemma BigEndian_Uint32_at (buf : bytes) (i : nat) :
  i + 4 <= length buf ->
  BigEndian_Uint32 (take 4 (drop i buf)) = Ok (uint32At buf i).
Proof.
  intros Hlen. unfold uint32At, byteAt.
  pose proof (lookup_drop buf i 0) as H0. pose proof (lookup_drop buf i 1) as H1.
  pose proof (lookup_drop buf i 2) as H2. pose proof (lookup_drop buf i 3) as H3.
  rewrite Nat.add_0_r in H0.
  destruct (drop i buf) as [|b0 [|b1 [|b2 [|b3 rest]]]] eqn:Hd;
    try (apply (f_equal length) in Hd; rewrite length_drop in Hd; simpl in Hd; lia).
  simpl in H0, H1, H2, H3. rewrite <- H0, <- H1, <- H2, <- H3. simpl.
  by rewrite be32_arith.
Qed.

Lemma ParsePieceMessage_spec (index_ : Z) (buf_ : bytes) :
  ParsePieceMessage index_ buf_
  = if decide (length buf_ < 8) then Err "piece payload too short"
    else if decide (uint32At buf_ 0 ≠ index_) then Err "unexpected piece index"
    else Ok (uint32At buf_ 4, drop 8 buf_).
Proof.
  unfold ParsePieceMessage, len.
  destruct (decide (Z.of_nat (length buf_) < 8)%Z) as [Hs|Hs];
    destruct (decide (length buf_ < 8)) as [Hs'|Hs']; try lia; [done|].
  pose proof (BigEndian_Uint32_at buf_ 0 ltac:(lia)) as H0. rewrite drop_0 in H0.
  rewrite H0. cbn [mbind result_bind].
  destruct (decide (uint32At buf_ 0 ≠ index_)); [done|].
  by rewrite (BigEndian_Uint32_at buf_ 4) by lia.
Qed.

Lemma copyAt_inside (dst block : bytes) (begin : Z) :
  (0 <= begin)%Z -> (begin + len block <= len dst)%Z ->
  copyAt dst begin block
  = take (Z.to_nat begin) dst ++ block ++ drop (Z.to_nat begin + length block) dst.
Proof.
  unfold len. intros Hb Hle. unfold copyAt, copy. f_equal.
  rewrite take_ge by (rewrite length_drop; lia).
  by rewrite drop_drop.
Qed.

Lemma copyAt_length (dst block : bytes) (begin : Z) :
  (0 <= begin)%Z -> (begin + len block <= len dst)%Z ->
  length (copyAt dst begin block) = length dst.
Proof.
  intros Hb Hle. rewrite copyAt_inside by done. unfold len in *.
  rewrite !length_app, length_take, length_drop. lia.
Qed.

Lemma copyPieceData_spec (state : pieceProgress) (payload : bytes) :
  (copyPieceData state (index state) payload
   = if decide (pieceAccepted state payload)
     then (Ok (len (drop 8 payload)),
           setBuf state (copyAt (buf state) (uint32At payload 4) (drop 8 payload)))
     else (fst (copyPieceData state (index state) payload), state))
  /\ (~ pieceAccepted state payload ->
      is_Err (fst (copyPieceData state (index state) payload))).
Proof.
  unfold copyPieceData. rewrite ParsePieceMessage_spec. unfold pieceAccepted.
  destruct (decide (length payload < 8)) as [Hs|Hs].
  { destruct (decide _) as [(? & _)|_]; [lia|]. split; [done|]. by eexists. }
  destruct (decide (uint32At payload 0 ≠ index state)) as [Hi|Hi].
  { destruct (decide _) as [(_ & ? & _)|_]; [done|]. split; [done|]. by eexists. }
  destruct (decide (len (buf state) <= uint32At payload 4)%Z) as [Hb|Hb].
  { destruct (decide _) as [(_ & _ & ? & _)|_]; [lia|]. split; [done|]. by eexists. }
  destruct (decide (len (buf state) < uint32At payload 4 + len (drop 8 payload))%Z) as [Hl|Hl].
  { destruct (decide _) as [(_ & _ & _ & ?)|_]; [lia|]. split; [done|]. by eexists. }
  destruct (decide _) as [_|Hno]; [split; [done|]|].
  - intros Hno. destruct Hno. repeat split; lia.
  - destruct Hno. repeat split; lia.
Qed.

End piece_messages.

(** C7: a piece message read for the current job is taken exactly when
    its payload holds the two words, the index in it is the one of the
    job, [begin] is below the length of the buffer and [begin] plus the
    length of the block is at most that length; [readMessage] returns an
    error otherwise and leaves buffer and counters as they were.  When
    the message is taken, the block is copied into the buffer at
    [begin], [downloaded] grows by the length of the block and [backlog]
    falls by one. *)
Theorem C7_piece_message (state : pieceProgress) (msg : Message)
    (rest : list readResult) :
  incoming (conn (client state)) = ReadMsg (Some msg) :: rest ->
  ID msg = MsgPiece ->
  let begin := uint32At (Payload msg) 4 in
  let block := drop 8 (Payload msg) in
  let r := fst (readMessage state) in
  let state' := snd (readMessage state) in
  (pieceAccepted state (Payload msg) ->
     r = Ok ()
     /\ buf state' = take (Z.to_nat begin) (buf state) ++ block
                     ++ drop (Z.to_nat begin + length block) (buf state)
     /\ downloaded state' = (downloaded state + len block)%Z
     /\ backlog state' = (backlog state - 1)%Z
     /\ requested state' = requested state)
  /\ (~ pieceAccepted state (Payload msg) ->
        is_Err r
        /\ buf state' = buf state
        /\ downloaded state' = downloaded state
        /\ backlog state' = backlog state
        /\ requested state' = requested state).
Proof.
  intros Hin Hid. cbv zeta. unfold readMessage, Read. rewrite Hin.
  destruct (decide (ID msg = MsgUnchoke)) as [He|_]; [by rewrite Hid in He|].
  destruct (decide (ID msg = MsgChoke)) as [He|_]; [by rewrite Hid in He|].
  destruct (decide (ID msg = MsgHave)) as [He|_]; [by rewrite Hid in He|].
  destruct (decide (ID msg = MsgPiece)) as [_|]; [|done].
  set (state1 := setClient state _).
  change (index state) with (index state1).
  change (buf state) with (buf state1).
  change (downloaded state) with (downloaded state1).
  change (backlog state) with (backlog state1).
  change (requested state) with (requested state1).
  assert (Hacc : pieceAccepted state (Payload msg) <-> pieceAccepted state1 (Payload msg))
    by done.
  rewrite !Hacc. clearbody state1. clear Hacc.
  destruct (copyPieceData_spec state1 (Payload msg)) as [Hspec Herr].
  destruct (decide (pieceAccepted state1 (Payload msg))) as [Hacc|Hno].
  - rewrite Hspec. split; [|done]. intros _. cbn.
    repeat split; try done.
    destruct Hacc as (_ & _ & Hb & Hl).
    apply copyAt_inside; [apply uint32At_range | done].
  - split; [done|]. intros _. rewrite Hspec.
    destruct (Herr Hno) as [e He]. rewrite He. cbn. repeat split; by eexists || done.
Qed.

Lemma C7_piece_message_witness :
  let begin := uint32At C7_payload 4 in
  let block := drop 8 C7_payload in
  let r := fst (readMessage (C7_state C7_payload)) in
  let state' := snd (readMessage (C7_state C7_payload)) in
  (pieceAccepted (C7_state C7_payload) C7_payload ->
     r = Ok ()
     /\ buf state' = take (Z.to_nat begin) (buf (C7_state C7_payload)) ++ block
                     ++ drop (Z.to_nat begin + length block) (buf (C7_state C7_payload))
     /\ downloaded state' = (downloaded (C7_state C7_payload) + len block)%Z
     /\ backlog state' = (backlog (C7_state C7_payload) - 1)%Z
     /\ requested state' = requested (C7_state C7_payload))
  /\ (~ pieceAccepted (C7_state C7_payload) C7_payload ->
        is_Err r
        /\ buf state' = buf (C7_state C7_payload)
        /\ downloaded state' = downloaded (C7_state C7_payload)
        /\ backlog state' = backlog (C7_state C7_payload)
        /\ requested state' = requested (C7_state C7_payload)).
Proof.
  apply (C7_piece_message (C7_state C7_payload)
           {| ID := MsgPiece; Payload := C7_payload |} []); reflexivity.
Defined.

(** The block [ab] at offset 1 of a 4-byte buffer, and a block that
    does not fit. *)
Example piece_message_taken :
  pieceAccepted (C7_state C7_payload) C7_payload
  /\ fst (readMessage (C7_state C7_payload)) = Ok ()
  /\ buf (snd (readMessage (C7_state C7_payload))) = bs ".ab."
  /\ downloaded (snd (readMessage (C7_state C7_payload))) = 2%Z
  /\ backlog (snd (readMessage (C7_state C7_payload))) = 0%Z.
Proof. split; [|by vm_compute]. unfold pieceAccepted. vm_compute. repeat split; (lia || discriminate). Qed.

Section download_loop.

Lemma reqBytes_app (l1 l2 : list (Z * Z * Z)) :
  reqBytes (l1 ++ l2) = (reqBytes l1 + reqBytes l2)%Z.
Proof. induction l1 as [|q l1 IH]; simpl; [done|]. rewrite IH. lia. Qed.

Lemma requestLoop_spec (n : nat) (pw : pieceWork) :
  forall state r state',
    requestLoop n pw state = (r, state') ->
    (requested state <= pw_length pw)%Z ->
    exists new, requestsWritten pw state state' new.
Proof.
  induction n as [|n IH]; intros state r state' Hloop Hreq.
  - simpl in Hloop. exists [].
    destruct (decide _); injection Hloop as <- <-;
      split; simpl; try done; unfold len; simpl; lia.
  - cbn [requestLoop] in Hloop.
    destruct (decide (backlog state < MaxBacklog ∧ requested state < pw_length pw)%Z)
      as [[Hb Hr]|Hno].
    2:{ injection Hloop as <- <-. exists [].
        split; simpl; try done; unfold len; simpl; lia. }
    set (blockSize := if decide (pw_length pw - requested state < MaxBlockSize)%Z
                      then (pw_length pw - requested state)%Z else MaxBlockSize) in *.
    assert (Hbs : (0 < blockSize <= pw_length pw - requested state)%Z).
    { subst blockSize. unfold MaxBlockSize in *. destruct (decide _); lia. }
    unfold SendRequest in Hloop.
    destruct (writes (conn (client state))) as [|[e|] ws] eqn:Hw.
    + apply IH in Hloop as [new Hnew]; [|simpl; lia].
      destruct Hnew. simpl in *.
      exists (new ++ [(pw_index pw, requested state, blockSize)]).
      split; simpl; try done.
      * by rewrite <- app_assoc.
      * rewrite reqBytes_app. simpl. lia.
      * unfold len in *. rewrite length_app. simpl. lia.
      * lia.
      * apply Forall_app. split; [done|]. constructor; [|done]. simpl. lia.
    + injection Hloop as <- <-. exists [].
      split; simpl; try done; unfold len; simpl; lia.
    + apply IH in Hloop as [new Hnew]; [|simpl; lia].
      destruct Hnew. simpl in *.
      exists (new ++ [(pw_index pw, requested state, blockSize)]).
      split; simpl; try done.
      * by rewrite <- app_assoc.
      * rewrite reqBytes_app. simpl. lia.
      * unfold len in *. rewrite length_app. simpl. lia.
      * lia.
      * apply Forall_app. split; [done|]. constructor; [|done]. simpl. lia.
Qed.

(** With a turn of fuel for every byte not yet requested, the request
    loop does not run out. *)
Lemma requestLoop_fuel (n : nat) (pw : pieceWork) :
  forall state,
    (pw_length pw - requested state <= Z.of_nat n)%Z ->
    fst (requestLoop n pw state) <> OutOfFuel.
Proof.
  induction n as [|n IH]; intros state Hn.
  - simpl. destruct (decide _) as [[_ ?]|_]; [lia | done].
  - cbn [requestLoop]. destruct (decide _) as [[Hb Hr]|_]; [|done].
    set (blockSize := if decide (pw_length pw - requested state < MaxBlockSize)%Z
                      then (pw_length pw - requested state)%Z else MaxBlockSize) in *.
    assert (Hbs : (0 < blockSize)%Z).
    { subst blockSize. unfold MaxBlockSize in *. destruct (decide _); lia. }
    unfold SendRequest. destruct (writes (conn (client state))) as [|[e|] ws]; [|done|].
    + apply IH. simpl. lia.
    + apply IH. simpl. lia.
Qed.

Lemma ParseHaveMessage_fuel (payload : bytes) : ParseHaveMessage payload <> OutOfFuel.
Proof.
  unfold ParseHaveMessage. destruct (decide _); [done|].
  by destruct payload as [|? [|? [|? [|? ?]]]].
Qed.

(** What reading one message does to the counters. *)
Lemma readMessage_spec (state : pieceProgress) :
  let r := fst (readMessage state) in
  let state' := snd (readMessage state) in
  requested state' = requested state
  /\ index state' = index state
  /\ length (buf state') = length (buf state)
  /\ sent (conn (client state')) = sent (conn (client state))
  /\ r <> OutOfFuel
  /\ (r = Ok () -> incoming (conn (client state)) <> []
                   /\ incoming (conn (client state'))
                      = tail (incoming (conn (client state))))
  /\ match acceptedBlock state r with
     | Some req =>
         req.1.1 = index state
         /\ downloaded state' = (downloaded state + req.2)%Z
         /\ backlog state' = (backlog state - 1)%Z /\ (0 <= req.2)%Z
     | None =>
         downloaded state' = downloaded state /\ backlog state' = backlog state
     end.
Proof.
  cbv zeta. unfold acceptedBlock, nextMessage, readMessage, Read.
  destruct (incoming (conn (client state))) as [|[e|[msg|]] rest] eqn:Hin;
    try (simpl; repeat split; done).
  destruct (decide (ID msg = MsgPiece)) as [Hp|Hp].
  2:{ destruct (decide (ID msg = MsgUnchoke)); [simpl; repeat split; done|].
      destruct (decide (ID msg = MsgChoke)); [simpl; repeat split; done|].
      destruct (decide (ID msg = MsgHave)); [|simpl; repeat split; done].
      pose proof (ParseHaveMessage_fuel (Payload msg)).
      destruct (ParseHaveMessage (Payload msg)); simpl; repeat split; done. }
  destruct (decide (ID msg = MsgUnchoke)) as [He|_]; [by rewrite Hp in He|].
  destruct (decide (ID msg = MsgChoke)) as [He|_]; [by rewrite Hp in He|].
  destruct (decide (ID msg = MsgHave)) as [He|_]; [by rewrite Hp in He|].
  set (state1 := setClient state _).
  change (index state) with (index state1).
  destruct (copyPieceData_spec state1 (Payload msg)) as [Hspec Herr].
  destruct (decide (pieceAccepted state1 (Payload msg))) as [Hacc|Hno].
  - rewrite Hspec. rewrite ParsePieceMessage_spec.
    destruct Hacc as (H8 & Hi & Hb & Hl).
    destruct (decide (length (Payload msg) < 8)); [lia|].
    destruct (decide (uint32At (Payload msg) 0 ≠ index state1)); [done|].
    subst state1. simpl in *. repeat split; try done.
    + apply copyAt_length; [apply uint32At_range | done].
    + unfold len. lia.
  - destruct (Herr Hno) as [e He]. rewrite Hspec.
    destruct (copyPieceData state1 (index state1) (Payload msg)) as [rr ss].
    simpl in He. subst rr. simpl. repeat split; done.
Qed.

(** One turn of the loop, in terms of the requests it wrote and the
    block it took. *)
Lemma iteration_spec (pw : pieceWork) (state : pieceProgress) (r : result unit)
    (state' : pieceProgress) :
  iteration pw state = (r, state') ->
  (0 <= requested state <= pw_length pw)%Z ->
  exists new,
    sent (conn (client state')) = new ++ sent (conn (client state))
    /\ requested state' = (requested state + reqBytes new)%Z
    /\ (requested state' <= pw_length pw)%Z
    /\ Forall (fun q => q.1.1 = pw_index pw /\ (0 < q.2)%Z) new
    /\ index state' = index state
    /\ length (buf state') = length (buf state)
    /\ r <> OutOfFuel
    /\ (r = Ok () -> incoming (conn (client state)) <> []
                     /\ incoming (conn (client state'))
                        = tail (incoming (conn (client state))))
    /\ match acceptedBlock state r with
       | Some req =>
           req.1.1 = index state
           /\ downloaded state' = (downloaded state + req.2)%Z
           /\ backlog state' = (backlog state + len new - 1)%Z /\ (0 <= req.2)%Z
           /\ (backlog state' < Z.max (backlog state) MaxBacklog)%Z
       | None =>
           downloaded state' = downloaded state
           /\ backlog state' = (backlog state + len new)%Z
           /\ (backlog state' <= Z.max (backlog state) MaxBacklog)%Z
       end.
Proof.
  unfold iteration. intros Hit Hreq.
  destruct (if Choked (client state) then (Ok (), state)
            else requestLoop (Z.to_nat (pw_length pw)) pw state)
    as [r1 state1] eqn:Hphase.
  assert (Hnew : exists new, requestsWritten pw state state1 new).
  { destruct (Choked (client state)).
    - injection Hphase as <- <-. exists [].
      split; simpl; try done; unfold len; simpl; lia.
    - eapply requestLoop_spec; [done | lia]. }
  assert (Hfuel : r1 <> OutOfFuel).
  { destruct (Choked (client state)); [by injection Hphase as <- <-|].
    pose proof (requestLoop_fuel (Z.to_nat (pw_length pw)) pw state) as Hf.
    rewrite Hphase in Hf. apply Hf. lia. }
  destruct Hnew as [new Hnew]. exists new. destruct Hnew.
  assert (Hacc1 : forall rr, acceptedBlock state1 rr = acceptedBlock state rr).
  { intros rr. unfold acceptedBlock, nextMessage. by rewrite rw_incoming0, rw_index0. }
  destruct r1 as [[]| | |].
  - pose proof (readMessage_spec state1) as Hread. cbv zeta in Hread.
    rewrite Hit in Hread. simpl in Hread. rewrite Hacc1 in Hread.
    destruct Hread as (Hr & Hi & Hb & Hs & Hf & Hinc & Hblock).
    split; [by rewrite Hs|]. split; [by rewrite Hr|]. split; [by rewrite Hr|].
    split; [done|]. split; [congruence|]. split; [by rewrite Hb, rw_buf0|].
    split; [done|]. split.
    { intros Hok. destruct (Hinc Hok) as [Hne Htl]. by rewrite <- rw_incoming0. }
    destruct (acceptedBlock state r) as [req|].
    + destruct Hblock as (Hq & Hd & Hbl & Hn).
      repeat split; try congruence; try done; lia.
    + destruct Hblock as (Hd & Hbl). repeat split; try congruence; lia.
  - injection Hit as <- <-. rewrite rw_buf0. repeat split; try done; simpl; lia.
  - injection Hit as <- <-. rewrite rw_buf0. repeat split; try done; simpl; lia.
  - done.
Qed.

End download_loop.

Section invariants.

Lemma reqBytes_nonneg (reqs : list (Z * Z * Z)) :
  Forall (fun q => 0 < q.2)%Z reqs -> (0 <= reqBytes reqs)%Z.
Proof. induction 1 as [|q reqs Hq _ IH]; simpl; lia. Qed.

Lemma reqBytes_Permutation (l1 l2 : list (Z * Z * Z)) :
  l1 ≡ₚ l2 -> reqBytes l1 = reqBytes l2.
Proof. induction 1; simpl; lia. Qed.

(** Distinct requests among those written ask for no more bytes than
    were requested, and are no more than were written. *)
Lemma reqBytes_answered (answered reqs : list (Z * Z * Z)) :
  NoDup answered -> answered ⊆ reqs -> Forall (fun q => 0 < q.2)%Z reqs ->
  (reqBytes answered <= reqBytes reqs)%Z /\ length answered <= length reqs.
Proof.
  intros Hnd Hsub Hpos.
  pose proof (NoDup_submseteq _ _ Hnd Hsub) as Hms.
  split; [|by apply submseteq_length].
  apply submseteq_Permutation in Hms as [k Hk].
  rewrite (reqBytes_Permutation _ _ Hk), reqBytes_app.
  rewrite Hk in Hpos. apply Forall_app in Hpos as [_ Hk'].
  pose proof (reqBytes_nonneg _ Hk'). lia.
Qed.

Lemma make_Ok (n : Z) (b : bytes) :
  make n = Ok b -> (0 <= n)%Z /\ b = replicate (Z.to_nat n) (byteOf 0).
Proof. unfold make. destruct (decide _); [done|]. intros [= <-]. split; [lia | done]. Qed.

(** The bounds that hold whatever the peer sends. *)
Lemma reachable_bounds (c : Client) (pw : pieceWork) (state : pieceProgress) :
  reachable c pw state ->
  (0 <= requested state <= pw_length pw)%Z
  /\ (0 <= downloaded state)%Z
  /\ (backlog state <= MaxBacklog)%Z
  /\ index state = pw_index pw
  /\ len (buf state) = pw_length pw.
Proof.
  induction 1 as [b Hb|state r state' _ IH Hlt Hit].
  - apply make_Ok in Hb as [Hn ->]. simpl. unfold MaxBacklog, len.
    rewrite length_replicate. repeat split; lia.
  - destruct IH as (Hreq & Hd & Hbl & Hi & Hbuf).
    destruct (iteration_spec pw state r state' Hit Hreq)
      as (new & _ & Hr' & Hle & Hnew & Hi' & Hb' & _ & _ & Hblock).
    assert (0 <= reqBytes new)%Z.
    { apply reqBytes_nonneg. eapply Forall_impl; [exact Hnew|]. by intros q [_ ?]. }
    unfold len in *. rewrite Hb', Hi'.
    destruct (acceptedBlock state r) as [req|].
    + destruct Hblock as (_ & Hd' & _ & Hn & Hw). repeat split; try done; lia.
    + destruct Hblock as (Hd' & _ & Hw). repeat split; try done; lia.
Qed.

Lemma answering_reachable (c : Client) (pw : pieceWork) (state : pieceProgress)
    (answered : list (Z * Z * Z)) :
  answering c pw state answered -> reachable c pw state.
Proof.
  induction 1; [by apply reach_init | by eapply reach_iteration..].
Qed.

Lemma attemptRequests_log (c : Client) (state : pieceProgress) (reqs : list (Z * Z * Z)) :
  sent (conn (client state)) = reqs ++ sent (conn c) ->
  attemptRequests c state = reqs.
Proof.
  intros Hlog. unfold attemptRequests. rewrite Hlog, length_app.
  replace (length reqs + length (sent (conn c)) - length (sent (conn c)))
    with (length reqs) by lia.
  apply take_app_length.
Qed.

Lemma answering_balanced (c : Client) (pw : pieceWork) (state : pieceProgress)
    (answered : list (Z * Z * Z)) :
  answering c pw state answered -> balanced c pw state answered.
Proof.
  induction 1 as [b Hb
                 |state answered r state' Hans IH Hlt Hit Hnone
                 |state answered r state' req Hans IH Hlt Hit Hsome Hin Hfresh].
  - assert (Hreqs : attemptRequests c (initialState c pw b) = []).
    { by apply attemptRequests_log. }
    split; rewrite ?Hreqs; simpl; try done.
    + constructor.
  - destruct IH.
    pose proof (reachable_bounds _ _ _ (answering_reachable _ _ _ _ Hans))
      as (Hreq & _).
    destruct (iteration_spec pw state r state' Hit Hreq)
      as (new & Hs & Hr' & _ & Hnew & _ & _ & _ & _ & Hblock).
    rewrite Hnone in Hblock. destruct Hblock as (Hd' & Hb' & _).
    assert (Hreqs : attemptRequests c state' = new ++ attemptRequests c state).
    { apply attemptRequests_log. by rewrite Hs, bal_log0, app_assoc. }
    split; rewrite ?Hreqs.
    + by rewrite Hs, bal_log0, app_assoc.
    + rewrite reqBytes_app. lia.
    + unfold len in *. rewrite length_app. lia.
    + lia.
    + done.
    + intros q Hq. apply elem_of_app. right. by apply bal_answers0.
    + apply Forall_app. split; [|done].
      eapply Forall_impl; [exact Hnew|]. by intros q [_ ?].
  - destruct IH.
    pose proof (reachable_bounds _ _ _ (answering_reachable _ _ _ _ Hans))
      as (Hreq & _).
    destruct (iteration_spec pw state r state' Hit Hreq)
      as (new & Hs & Hr' & _ & Hnew & _ & _ & _ & _ & Hblock).
    rewrite Hsome in Hblock. destruct Hblock as (_ & Hd' & Hb' & _).
    assert (Hreqs : attemptRequests c state' = new ++ attemptRequests c state).
    { apply attemptRequests_log. by rewrite Hs, bal_log0, app_assoc. }
    rewrite Hreqs in Hin.
    split; rewrite ?Hreqs.
    + by rewrite Hs, bal_log0, app_assoc.
    + rewrite reqBytes_app. lia.
    + unfold len in *. rewrite length_app. simpl. lia.
    + simpl. lia.
    + by constructor.
    + intros q [->|Hq]%elem_of_cons; [done|].
      apply elem_of_app. right. by apply bal_answers0.
    + apply Forall_app. split; [|done].
      eapply Forall_impl; [exact Hnew|]. by intros q [_ ?].
Qed.

(** The loop of [attemptDownloadPiece] goes through reachable states
    only, and does not run out of fuel. *)
Lemma downloadLoop_reachable (c : Client) (pw : pieceWork) (n : nat) :
  forall state r state',
    reachable c pw state ->
    downloadLoop n pw state = (r, state') ->
    reachable c pw state'.
Proof.
  induction n as [|n IH]; intros state r state' Hreach Hloop.
  - simpl in Hloop. by destruct (decide _); injection Hloop as <- <-.
  - cbn [downloadLoop] in Hloop.
    destruct (decide (downloaded state < pw_length pw)%Z) as [Hlt|];
      [|by injection Hloop as <- <-].
    destruct (iteration pw state) as [r1 state1] eqn:Hit.
    assert (reachable c pw state1) by (by eapply reach_iteration).
    destruct r1; [by eapply IH | by injection Hloop as <- <-..].
Qed.

Lemma downloadLoop_fuel (c : Client) (pw : pieceWork) (n : nat) :
  forall state,
    reachable c pw state ->
    length (incoming (conn (client state))) < n ->
    fst (downloadLoop n pw state) <> OutOfFuel.
Proof.
  induction n as [|n IH]; intros state Hreach Hn; [lia|].
  cbn [downloadLoop].
  destruct (decide (downloaded state < pw_length pw)%Z) as [Hlt|]; [|done].
  destruct (iteration pw state) as [r1 state1] eqn:Hit.
  pose proof (reachable_bounds _ _ _ Hreach) as (Hreq & _).
  destruct (iteration_spec pw state r1 state1 Hit Hreq)
    as (new & _ & _ & _ & _ & _ & _ & Hf & Hinc & _).
  destruct r1 as [[]| | |]; try done.
  destruct (Hinc eq_refl) as [Hne Htl].
  apply IH; [by eapply reach_iteration|].
  rewrite Htl. destruct (incoming (conn (client state))); [done|]. simpl in *. lia.
Qed.

Lemma attemptDownloadPiece_fuel (c : Client) (pw : pieceWork) :
  fst (attemptDownloadPiece c pw) <> OutOfFuel.
Proof.
  unfold attemptDownloadPiece.
  destruct (make (pw_length pw)) as [b| | |] eqn:Hb; try done.
  - pose proof (downloadLoop_fuel c pw (S (length (incoming (conn c))))
                  (initialState c pw b) (reach_init c pw b Hb)) as Hf.
    destruct (downloadLoop _ _ _) as [r state]. apply Hf. simpl. lia.
  - unfold make in Hb. by destruct (decide _).
Qed.

End invariants.

(** C3, as stated, fails: a peer that chokes us and sends a block nobody
    asked for brings the loop, after its first turn, to [downloaded] = 2
    above [requested] = 0, with [backlog] = -1. *)
Lemma C3_unasked_block_counterexample :
  exists state,
    reachable unasked_client small_piece state
    /\ downloaded state = 2%Z /\ requested state = 0%Z /\ backlog state = (-1)%Z
    /\ ~ ((downloaded state <= requested state <= pw_length small_piece)%Z
          /\ (0 <= backlog state)%Z).
Proof.
  eexists. split.
  - eapply reach_iteration.
    + apply reach_init. vm_compute. reflexivity.
    + vm_compute. reflexivity.
    + vm_compute. reflexivity.
  - simpl. repeat split; try done. lia.
Qed.

(** C3, amended: after every turn of the loop of a download attempt, for
    every sequence of incoming messages, [0 <= requested <= length],
    [0 <= downloaded] and [backlog <= MaxBacklog]; [downloaded <=
    requested] and [backlog >= 0] hold after every turn as long as every
    block taken from a piece message answers a request written during
    the attempt and not answered before. *)
Theorem C3_download_invariants (c : Client) (pw : pieceWork) (state : pieceProgress) :
  reachable c pw state ->
  ((0 <= requested state <= pw_length pw)%Z
   /\ (0 <= downloaded state)%Z
   /\ (backlog state <= MaxBacklog)%Z)
  /\ (forall answered,
        answering c pw state answered ->
        (downloaded state <= requested state)%Z /\ (0 <= backlog state)%Z).
Proof.
  intros Hreach. split.
  - pose proof (reachable_bounds c pw state Hreach) as (? & ? & ? & _). done.
  - intros answered Hans. destruct (answering_balanced c pw state answered Hans).
    destruct (reqBytes_answered answered (attemptRequests c state)) as [Hb Hl];
      try done.
    unfold len in *. lia.
Qed.

Lemma C3_download_invariants_witness :
  ((0 <= requested answered_state <= pw_length small_piece)%Z
   /\ (0 <= downloaded answered_state)%Z
   /\ (backlog answered_state <= MaxBacklog)%Z)
  /\ (forall answered,
        answering answering_client small_piece answered_state answered ->
        (downloaded answered_state <= requested answered_state)%Z
        /\ (0 <= backlog answered_state)%Z).
Proof.
  apply (C3_download_invariants answering_client small_piece answered_state).
  eapply reach_iteration.
  - eapply reach_iteration.
    + apply reach_init. vm_compute. reflexivity.
    + vm_compute. reflexivity.
    + vm_compute. reflexivity.
  - vm_compute. reflexivity.
  - vm_compute. reflexivity.
Defined.

(** The run above is one in which the peer only answers, and it is the
    run of [attemptDownloadPiece]. *)
Example answering_run :
  answering answering_client small_piece answered_state [(3, 0, 4)%Z]
  /\ attemptDownloadPiece answering_client small_piece
     = (Ok (bs "abcd"), client answered_state).
Proof.
  split; [|vm_compute; reflexivity].
  eapply answering_block.
  - eapply answering_quiet.
    + apply answering_init. vm_compute. reflexivity.
    + vm_compute. reflexivity.
    + vm_compute. reflexivity.
    + vm_compute. reflexivity.
  - vm_compute. reflexivity.
  - vm_compute. reflexivity.
  - vm_compute. reflexivity.
  - vm_compute. apply list_elem_of_here.
  - apply not_elem_of_nil.
Qed.

(** * Further properties of package bencode *)
Import golib bencode props samples.

Section encoder_outcomes.

(** A loop of [encode] that does not succeed stops with what the first
    failing item returned. *)
Lemma writeAll_fails {X} (g : X -> bytes -> result bytes) (xs : list X) :
  Forall (fun x => forall buf, g x buf = onto buf (g x [])) xs ->
  (forall b, writeAll g (Ok []) xs <> Ok b) ->
  exists x, x ∈ xs /\ (forall b, g x [] <> Ok b) /\ writeAll g (Ok []) xs = g x [].
Proof.
  induction 1 as [|x xs Hx Hxs IH]; intros Hfail.
  { by destruct (Hfail []). }
  simpl in *. change (foldl _ ?a xs) with (writeAll g a xs) in *.
  change (Ok [] ≫= g x) with (g x []) in *.
  destruct (g x []) as [e| | |] eqn:He.
  - rewrite (writeAll_onto g xs Hxs e) in *.
    destruct IH as (y & Hy & Hbad & Hw).
    { intros b Hb. apply (Hfail (e ++ b)). by rewrite Hb. }
    exists y. split; [by right|]. split; [done|].
    rewrite Hw. destruct (g y []) as [b| | |]; [by destruct (Hbad b)|done..].
  - exists x. split; [left|]. rewrite He. split; [done|]. by rewrite writeAll_not_ok.
  - exists x. split; [left|]. rewrite He. split; [done|]. by rewrite writeAll_not_ok.
  - exists x. split; [left|]. rewrite He. split; [done|]. by rewrite writeAll_not_ok.
Qed.

Lemma Encode_list_fails (l : list value) :
  (forall b, Encode (VList l) <> Ok b) ->
  exists x, x ∈ l /\ (forall b, Encode x <> Ok b) /\ Encode (VList l) = Encode x.
Proof.
  intros Hfail. unfold Encode in *. rewrite encode_list_eq in *.
  assert (Hl : Forall (fun x => forall buf, encode x buf = onto buf (encode x [])) l).
  { apply Forall_forall. intros x _. apply encode_buf. }
  rewrite (writeAll_onto encode l Hl) in *.
  destruct (writeAll_fails encode l Hl) as (x & Hx & Hbad & Hw).
  { intros b Hb. rewrite Hb in Hfail. simpl in Hfail. by eapply Hfail. }
  exists x. split; [done|]. split; [done|]. rewrite Hw.
  destruct (encode x []) as [b| | |]; [by destruct (Hbad b)|done..].
Qed.

Lemma Encode_dict_fails (m : gmap string value) :
  (forall b, Encode (VDict m) <> Ok b) ->
  exists k x, m !! k = Some x /\ (forall b, Encode x <> Ok b)
              /\ Encode (VDict m) = Encode x.
Proof.
  intros Hfail. unfold Encode in *. rewrite encode_dict_eq in *.
  assert (Hitems : Forall (fun x => forall buf, dictItem m x buf = onto buf (dictItem m x []))
                          (sortStrings (rangeKeys m))).
  { apply Forall_forall. intros key _ b. rewrite !dictItem_lookup.
    destruct (m !! key) as [v|] eqn:Hk; [|done].
    rewrite (encode_buf v (b ++ _)), (encode_buf v ([] ++ _)).
    by rewrite onto_onto, app_nil_l. }
  rewrite (writeAll_onto _ _ Hitems) in *.
  destruct (writeAll_fails _ _ Hitems) as (k & Hk & Hbad & Hw).
  { intros b Hb. rewrite Hb in Hfail. simpl in Hfail. by eapply Hfail. }
  rewrite sortStrings_Permutation in Hk. apply elem_of_rangeKeys in Hk as [x Hx].
  rewrite dictItem_lookup, Hx in Hw, Hbad. rewrite encode_buf in Hw, Hbad.
  exists k, x. split; [done|].
  destruct (encode x []) as [b| | |] eqn:He.
  - by destruct (Hbad (([] ++ stringBytes k) ++ b)).
  - split; [done|]. by rewrite Hw.
  - split; [done|]. by rewrite Hw.
  - split; [done|]. by rewrite Hw.
Qed.

Lemma Encode_outcome (v : value) :
  (supported v /\ is_Ok (Encode v))
  \/ (~ supported v
      /\ exists ty, unsupportedIn ty v /\ Encode v = Err ("unsupported type: " +:+ ty)).
Proof.
  induction v as [s|b|n|n|l IH| |m IH| |ty] using value_ind';
    try (left; split; [constructor | by eexists]; fail).
  - destruct (Encode (VList l)) as [out| | |] eqn:He.
    + left. split; [|by eexists]. constructor.
      apply Encode_list in He as (outs & Hf & _).
      clear -IH Hf. induction Hf as [|x o l outs Hx _ IHf]; [constructor|].
      inversion IH as [|? ? Hx' IH']; subst. constructor; [|by apply IHf].
      destruct Hx' as [[? _]|(_ & ty & _ & Hty)]; [done | congruence].
    + right. destruct (Encode_list_fails l) as (x & Hx & Hbad & Hw).
      { rewrite He. done. }
      rewrite Forall_forall in IH.
      destruct (IH x Hx) as [[_ [b Hb]]|(Hno & ty & Hty & Hty')];
        [by destruct (Hbad b)|].
      split.
      * intros Hsup. inversion Hsup as [| | | |? Hl| | |]; subst.
        rewrite Forall_forall in Hl. by apply Hno, Hl.
      * exists ty. split; [by eapply un_list | congruence].
    + destruct (Encode_list_fails l) as (x & Hx & Hbad & Hw).
      { rewrite He. done. }
      rewrite Forall_forall in IH.
      destruct (IH x Hx) as [[_ [b Hb]]|(Hno & ty & Hty & Hty')];
        [by destruct (Hbad b) | congruence].
    + destruct (Encode_list_fails l) as (x & Hx & Hbad & Hw).
      { rewrite He. done. }
      rewrite Forall_forall in IH.
      destruct (IH x Hx) as [[_ [b Hb]]|(Hno & ty & Hty & Hty')];
        [by destruct (Hbad b) | congruence].
  - destruct (Encode (VDict m)) as [out| | |] eqn:He.
    + left. split; [|by eexists]. constructor. intros k x Hk.
      destruct (Encode_dict_items m out He k x Hk) as [o Ho].
      destruct (IH k x Hk) as [[? _]|(_ & ty & _ & Hty)]; [done | congruence].
    + right. destruct (Encode_dict_fails m) as (k & x & Hx & Hbad & Hw).
      { rewrite He. done. }
      destruct (IH k x Hx) as [[_ [b Hb]]|(Hno & ty & Hty & Hty')];
        [by destruct (Hbad b)|].
      split.
      * intros Hsup. inversion Hsup as [| | | | | |? Hm|]; subst.
        by apply Hno, (Hm k x).
      * exists ty. split; [by eapply un_dict | congruence].
    + destruct (Encode_dict_fails m) as (k & x & Hx & Hbad & Hw).
      { rewrite He. done. }
      destruct (IH k x Hx) as [[_ [b Hb]]|(Hno & ty & Hty & Hty')];
        [by destruct (Hbad b) | congruence].
    + destruct (Encode_dict_fails m) as (k & x & Hx & Hbad & Hw).
      { rewrite He. done. }
      destruct (IH k x Hx) as [[_ [b Hb]]|(Hno & ty & Hty & Hty')];
        [by destruct (Hbad b) | congruence].
  - right. split; [intros Hs; inversion Hs|].
    exists ty. split; [constructor | done].
Qed.

End encoder_outcomes.

(** X1: [Encode] succeeds exactly on the values made of strings, byte
    slices, ints, int64s, lists and maps all the way down; on any other
    value it returns the error "unsupported type: T" for the type [T] of
    a value inside that it has no case for, and it never panics. *)
Theorem X1_Encode_supported (v : value) :
  (is_Ok (Encode v) <-> supported v)
  /\ (~ supported v ->
      exists ty, unsupportedIn ty v /\ Encode v = Err ("unsupported type: " +:+ ty)).
Proof.
  destruct (Encode_outcome v) as [[Hs Hok]|(Hno & ty & Hty & He)].
  - split; [by split | done].
  - split; [|by eauto]. split; [|done].
    intros [b Hb]. congruence.
Qed.

(** X2: [encode] only appends: what the buffer held stays in front, and
    what is written behind it is the output of [Encode], whatever the
    buffer held; an error does not depend on the buffer either. *)
Theorem X2_encode_appends (v : value) (buf : bytes) :
  (forall out, Encode v = Ok out -> encode v buf = Ok (buf ++ out))
  /\ (forall e, Encode v = Err e -> encode v buf = Err e).
Proof.
  unfold Encode. rewrite (encode_buf v buf).
  split; [intros out ->|intros e ->]; done.
Qed.

(** X3: the output of [Encode] for a list is [l], the outputs for the
    items in order, and [e]; it fails when an item does. *)
Theorem X3_Encode_list_format (l : list value) (out : bytes) :
  Encode (VList l) = Ok out <->
  exists outs,
    Forall2 (fun v o => Encode v = Ok o) l outs
    /\ out = "l"%char :: concat outs ++ ["e"%char].
Proof. apply Encode_list. Qed.

(** X4: values with the same encoding are the same up to what [Encode]
    does not tell apart: a [[]byte] and the [string] of the same bytes,
    an [int64] and the [int] of the same value, an empty slice and the
    nil slice, a nil map and the empty map. *)
Theorem X4_Encode_injective (v1 v2 : value) (data : bytes) :
  goValue v1 -> goValue v2 ->
  Encode v1 = Ok data -> Encode v2 = Ok data -> (len data <= maxInt64)%Z ->
  canon v1 = canon v2.
Proof.
  intros Hg1 Hg2 He1 He2 Hfit.
  pose proof (Decode_Encode_canon v1 data Hg1 He1 Hfit) as H1.
  pose proof (Decode_Encode_canon v2 data Hg2 He2 Hfit) as H2.
  congruence.
Qed.

Lemma X4_Encode_injective_witness :
  canon (VList [VBytes (bs "ab"); VInt64 5; VList []; VNilDict])
  = canon (VList [VString "ab"; VInt 5; VNilList; VDict ∅]).
Proof.
  apply (X4_Encode_injective _ _ (bs "l2:abi5eledee")).
  - go_value.
  - go_value; try (apply go_dict, map_Forall_empty); go_value.
  - vm_compute. reflexivity.
  - vm_compute. reflexivity.
  - vm_compute. discriminate.
Defined.

(** X5: a successful [decode] returns a position behind the one it
    started at and not behind the end of the input. *)
Theorem X5_decode_advances (fuel : nat) (data : bytes) (start : nat)
    (v : value) (p : nat) :
  decode fuel data start = Ok (v, p) -> start < p <= length data.
Proof. apply decode_progress. Qed.

Lemma X5_decode_advances_witness : 2 < 5 <= length (bs "4:i7eexyz").
Proof.
  apply (X5_decode_advances 3 (bs "4:i7eexyz") 2 (VInt 7) 5).
  vm_compute. reflexivity.
Defined.

Section decoder_values.

Lemma parseDigits_nonneg (s : string) (a n : Z) :
  (0 <= a)%Z -> parseDigits s a = Some n -> (0 <= n)%Z.
Proof.
  revert a. induction s as [|c s IH]; intros a Ha.
  { simpl. intros [= <-]. done. }
  rewrite parseDigits_cons. destruct (digitVal c) as [d|] eqn:Hd; [|done].
  apply IH. unfold digitVal in Hd.
  destruct (_ && _) eqn:Hc; [|done]. injection Hd as <-.
  apply andb_prop in Hc as [H1 _]. apply Z.leb_le in H1. lia.
Qed.

Lemma ParseInt_range (s : string) (n : Z) : ParseInt s = Some n -> inInt64 n.
Proof.
  unfold ParseInt. destruct s as [|c rest]; [done|].
  destruct (if decide (c = "+"%char) then (false, rest)
            else if decide (c = "-"%char) then (true, rest)
            else (false, String c rest)) as [neg body].
  destruct body as [|c' body']; [done|].
  destruct (parseDigits (String c' body') 0) as [un|] eqn:Hun; [|done].
  apply parseDigits_nonneg in Hun; [|done].
  unfold inInt64, minInt64, maxInt64.
  destruct neg; simpl.
  - destruct (Z.ltb_spec (2 ^ 63) un); [done|]. intros [= <-]. lia.
  - destruct (Z.leb_spec (2 ^ 63) un); [done|]. intros [= <-]. lia.
Qed.

Lemma appended_built (l : list value) : Forall built l -> built (appended l).
Proof.
  intros Hl. split.
  - apply appended_decoded. eapply Forall_impl; [exact Hl|]. by intros ? [].
  - destruct l; [constructor|]. cbn [appended]. constructor.
    eapply Forall_impl; [exact Hl|]. by intros ? [].
Qed.

Lemma decodeListLoop_built (dec : bytes -> nat -> result (value * nat))
    (data : bytes) (n pos : nat) (acc : list value) (v : value) (p : nat) :
  (forall pos v p, dec data pos = Ok (v, p) -> built v) ->
  Forall built acc ->
  decodeListLoop dec n data pos acc = Ok (v, p) -> built v.
Proof.
  intros Hdec. revert pos acc.
  induction n as [|n IH]; intros pos acc Hacc; [done|]. cbn [decodeListLoop].
  destruct (data !! pos) as [c|]; [|done].
  destruct (decide (c = "e"%char)).
  { intros [= <- <-]. by apply appended_built. }
  destruct (dec data pos) as [[item newPos]| | |] eqn:Hitem; try done.
  cbn [mbind result_bind]. apply IH.
  apply Forall_app. split; [done|]. constructor; [by eapply Hdec | constructor].
Qed.

Lemma decodeDictLoop_built (dec : bytes -> nat -> result (value * nat))
    (data : bytes) (n pos : nat) (acc : gmap string value) (v : value) (p : nat) :
  (forall pos v p, dec data pos = Ok (v, p) -> built v) ->
  map_Forall (fun _ x => built x) acc ->
  decodeDictLoop dec n data pos acc = Ok (v, p) -> built v.
Proof.
  intros Hdec. revert pos acc.
  induction n as [|n IH]; intros pos acc Hacc; [done|]. cbn [decodeDictLoop].
  destruct (data !! pos) as [c|]; [|done].
  destruct (decide (c = "e"%char)).
  { intros [= <- <-]. split; constructor; intros k x Hk; by apply (Hacc k x). }
  destruct (dec data pos) as [[key newPos]| | |]; try done.
  cbn [mbind result_bind]. destruct key; try done.
  destruct (dec data newPos) as [[value_ newPos']| | |] eqn:Hvalue; try done.
  cbn [mbind result_bind]. apply IH.
  apply map_Forall_insert_2; [by eapply Hdec | done].
Qed.

Lemma decode_built (fuel : nat) (data : bytes) :
  forall pos v p, decode fuel data pos = Ok (v, p) -> built v.
Proof.
  induction fuel as [|fuel IH]; intros pos v p; [done|]. cbn [decode].
  destruct (data !! pos) as [c|]; [|done].
  destruct (decide (c = "i"%char)).
  { unfold decodeInt. destruct (decide _); [|done].
    destruct (decide _); [done|]. destruct (ParseInt _) eqn:Hn; [|done].
    intros [= <- <-]. apply ParseInt_range in Hn. split; by constructor. }
  destruct (decide (c = "l"%char)).
  { unfold decodeList. destruct (decide _); [|done].
    apply decodeListLoop_built; [done | constructor]. }
  destruct (decide (c = "d"%char)).
  { unfold decodeDict. destruct (decide _); [|done].
    apply decodeDictLoop_built; [done | apply map_Forall_empty]. }
  destruct (isDigit c); [|done].
  unfold decodeString. destruct (decide _); [done|].
  destruct (Atoi _); [|done]. destruct (_ <? _)%Z; [done|].
  destruct (slice _ _ _); try done. cbn [mbind result_bind].
  intros [= <- <-]. split; constructor.
Qed.

Lemma Decode_built (data : bytes) (v : value) : Decode data = Ok v -> built v.
Proof.
  unfold Decode. destruct (decode _ data 0) as [[v' p]| | |] eqn:Hd; try done.
  cbn [mbind result_bind]. intros [= <-]. by eapply decode_built.
Qed.

Lemma decoded_supported (v : value) : decoded v -> supported v.
Proof.
  induction v as [s|b|n|n|l IH| |m IH| |ty] using value_ind'; intros Hd;
    inversion Hd as [| |? _ Hl| |? Hm]; subst; constructor.
  - clear Hd. induction Hl as [|x l Hx _ IHl]; [constructor|].
    inversion IH; subst. constructor; auto.
  - intros k x Hk. apply (IH k x Hk). by apply (Hm k x).
Qed.

End decoder_values.

(** X6: whatever the input, the values [Decode] returns are made of
    [string]s, [int]s in the 64-bit range, lists and maps only: never a
    [[]byte], never an [int64]; a list without items is the nil slice,
    and a map is never nil. *)
Theorem X6_Decode_values (data : bytes) (v : value) :
  Decode data = Ok v -> decoded v /\ goValue v.
Proof. apply Decode_built. Qed.

Lemma X6_Decode_values_witness :
  decoded (VDict {[ "a" := VList [VInt 1; VString "x"] ]})
  /\ goValue (VDict {[ "a" := VList [VInt 1; VString "x"] ]}).
Proof.
  apply (X6_Decode_values (bs "d1:ali1e1:xee")). vm_compute. reflexivity.
Defined.

(** X7: what [Decode] returns can be encoded again, and decoding that
    output gives the same value back: [Encode] after [Decode] brings an
    accepted input to its canonical form. *)
Theorem X7_Decode_Encode_Decode (data : bytes) (v : value) :
  Decode data = Ok v ->
  is_Ok (Encode v)
  /\ (forall out, Encode v = Ok out -> (len out <= maxInt64)%Z -> Decode out = Ok v).
Proof.
  intros [Hdec Hgo]%Decode_built. split.
  - destruct (Encode_outcome v) as [[_ Hok]|[Hno _]]; [done|].
    destruct Hno. by apply decoded_supported.
  - intros out Henc Hfit.
    rewrite (Decode_Encode_canon v out Hgo Henc Hfit). f_equal.
    by apply canon_decoded.
Qed.

Lemma X7_Decode_Encode_Decode_witness :
  is_Ok (Encode (VDict {[ "a" := VInt 7; "b" := VInt 0 ]}))
  /\ (forall out, Encode (VDict {[ "a" := VInt 7; "b" := VInt 0 ]}) = Ok out ->
      (len out <= maxInt64)%Z ->
      Decode out = Ok (VDict {[ "a" := VInt 7; "b" := VInt 0 ]})).
Proof.
  apply (X7_Decode_Encode_Decode (bs "d1:bi-0e1:ai1e1:ai007ee")).
  vm_compute. reflexivity.
Defined.

(** X8: a dictionary whose first key is not a byte string is refused:
    when the text behind [d] is the encoding of an integer, a list or a
    dictionary, [Decode] returns "dictionary key must be a string",
    whatever follows. *)
Theorem X8_dict_key_must_be_string (v : value) (key rest : bytes) :
  goValue v -> Encode v = Ok key -> (forall s, canon v <> VString s) ->
  (len ("d"%char :: key ++ rest) <= maxInt64)%Z ->
  Decode ("d"%char :: key ++ rest) = Err "dictionary key must be a string".
Proof.
  intros Hgo Henc Hkey Hfit. unfold Decode.
  rewrite decode_d by done. unfold decodeDict.
  destruct (decide (_ !! 0 = Some "d"%char)) as [_|]; [|done].
  destruct (Encode_starts v key Henc) as (c & krest & -> & Hc).
  assert (Hlen : length ("d"%char :: (c :: krest) ++ rest) = S (S (length krest + length rest))).
  { simpl. rewrite length_app. done. }
  rewrite Hlen. cbn [decodeDictLoop]. simpl (0 + 1).
  change (("d"%char :: (c :: krest) ++ rest) !! 1) with (Some c).
  destruct (decide (c = "e"%char)); [done|].
  rewrite <- Hlen.
  assert (Hfuel : length (c :: krest) <= length ("d"%char :: (c :: krest) ++ rest)).
  { rewrite Hlen. simpl. lia. }
  pose proof (decode_Encode v Hgo (c :: krest) Henc _ Hfuel ["d"%char] rest Hfit) as Hr.
  change (["d"%char] ++ (c :: krest) ++ rest) with ("d"%char :: (c :: krest) ++ rest) in Hr.
  change (length ["d"%char]) with 1 in Hr.
  rewrite Hr. cbn [mbind result_bind].
  destruct (canon v) eqn:Hcv; try (by destruct (decide (c = "e"%char))).
  by destruct (Hkey s).
Qed.

Lemma X8_dict_key_must_be_string_witness :
  Decode ("d"%char :: bs "i1e" ++ bs "i2ee") = Err "dictionary key must be a string".
Proof.
  apply (X8_dict_key_must_be_string (VInt 1)).
  - go_value.
  - vm_compute. reflexivity.
  - intros s. discriminate.
  - vm_compute. discriminate.
Defined.

(** X9: what [Decode] makes of a length, a colon and the bytes behind
    it.  The length may have leading zeros.  A length above the largest
    [int] is an "invalid string length" error; a length the input is too
    short for is "unexpected end of input"; otherwise the string is the
    next [n] bytes.  But when the position behind the colon plus the
    length exceeds the largest [int], the sum wraps around, passes the
    comparison with [len(data)], and the slice expression panics. *)
Theorem X9_Decode_string (ds : string) (payload : bytes) :
  ds <> EmptyString -> all_digits ds ->
  (len (bs ds ++ ":"%char :: payload) <= maxInt64)%Z ->
  Decode (bs ds ++ ":"%char :: payload)
  = if (maxInt64 <? digitsValue ds)%Z
    then Err ("invalid string length: " +:+ ds)
    else if (maxInt64 <? Z.of_nat (String.length ds) + 1 + digitsValue ds)%Z
    then Panic "slice bounds out of range"
    else if (digitsValue ds <=? len payload)%Z
    then Ok (VString (String.string_of_list_ascii
                        (take (Z.to_nat (digitsValue ds)) payload)))
    else Err ErrUnexpectedEnd.
Proof.
  intros Hne Hall Hfit. unfold Decode, bs in *.
  set (digits := String.list_ascii_of_string ds) in *.
  assert (Hdl : length digits = String.length ds).
  { unfold digits. apply list_ascii_length. }
  assert (Hlen : length (digits ++ ":"%char :: payload)
                 = length digits + 1 + length payload) by list_len.
  assert (Hhead : exists c rest, digits = c :: rest /\ is_digit c).
  { unfold digits. destruct ds as [|c ds']; [done|].
    inversion Hall; subst. simpl. eauto. }
  destruct Hhead as (c & drest & Hd & Hc).
  rewrite (decode_digit _ _ _ c); [| by rewrite Hd | done].
  unfold decodeString.
  pose proof (scanTo_at ":" [] digits payload
                (all_digits_no _ _ Hall colon_not_digit)) as Hscan.
  simpl in Hscan. rewrite Hscan, Hlen.
  destruct (decide (_ <= _)) as [?|_]; [lia|].
  pose proof (substr_at [] digits (":"%char :: payload)) as Hsub.
  simpl in Hsub. rewrite Hsub.
  replace (String.string_of_list_ascii digits) with ds
    by (unfold digits; by rewrite String.string_of_list_ascii_of_string).
  unfold Atoi. rewrite ParseInt_digits by done.
  assert (Hnn : (0 <= digitsValue ds)%Z).
  { pose proof (parseDigits_all_digits ds 0 Hall) as Hp.
    fold (digitsValue ds) in Hp. by eapply parseDigits_nonneg in Hp. }
  unfold len in *. rewrite Hlen in *. rewrite Hdl in *. unfold maxInt64 in *.
  destruct (Z.leb_spec (digitsValue ds) (2 ^ 63 - 1)) as [Hle|Hgt];
    destruct (Z.ltb_spec (2 ^ 63 - 1) (digitsValue ds)); try lia; [|done].
  destruct (Z.ltb_spec (2 ^ 63 - 1) (Z.of_nat (String.length ds) + 1 + digitsValue ds))
    as [Hover|Hin].
  - (* the sum wraps around *)
    assert (Hw : wrap64 (Z.of_nat (String.length ds) + 1 + digitsValue ds)
                 = (Z.of_nat (String.length ds) + 1 + digitsValue ds - 2 ^ 64)%Z).
    { unfold wrap64.
      replace (Z.of_nat (String.length ds) + 1 + digitsValue ds + 2 ^ 63)%Z
        with ((Z.of_nat (String.length ds) + 1 + digitsValue ds - 2 ^ 63) + 1 * 2 ^ 64)%Z
        by lia.
      rewrite Z.mod_add by lia. rewrite Z.mod_small; lia. }
    rewrite Hw.
    destruct (Z.ltb_spec (Z.of_nat (String.length ds + 1 + length payload))
                (Z.of_nat (String.length ds) + 1 + digitsValue ds - 2 ^ 64)); [lia|].
    unfold slice.
    destruct (Z.leb_spec 0 (Z.of_nat (String.length ds) + 1)); [|lia].
    destruct (Z.leb_spec (Z.of_nat (String.length ds) + 1)
                (Z.of_nat (String.length ds) + 1 + digitsValue ds - 2 ^ 64)); [lia|].
    done.
  - rewrite wrap64_small by (unfold inInt64, minInt64, maxInt64; lia).
    destruct (Z.ltb_spec (Z.of_nat (String.length ds + 1 + length payload))
                (Z.of_nat (String.length ds) + 1 + digitsValue ds)) as [Hshort|Hfits];
      destruct (Z.leb_spec (digitsValue ds) (Z.of_nat (length payload))); try lia;
      [done|].
    unfold slice, len. rewrite Hlen.
    destruct (Z.leb_spec 0 (Z.of_nat (String.length ds) + 1)); [|lia].
    destruct (Z.leb_spec (Z.of_nat (String.length ds) + 1)
                (Z.of_nat (String.length ds) + 1 + digitsValue ds)); [|lia].
    destruct (Z.leb_spec (Z.of_nat (String.length ds) + 1 + digitsValue ds)
                (Z.of_nat (String.length ds + 1 + length payload))); [|lia].
    cbn [andb mbind result_bind]. do 3 f_equal.
    replace (Z.to_nat (Z.of_nat (String.length ds) + 1)) with (length (digits ++ [":"%char]))
      by list_len.
    replace (digits ++ ":"%char :: payload) with ((digits ++ [":"%char]) ++ payload)
      by (by rewrite <- app_assoc).
    rewrite drop_app_length. f_equal. lia.
Qed.

Lemma X9_Decode_string_witness :
  Decode (bs "9223372036854775807" ++ ":"%char :: bs "abc")
  = if (maxInt64 <? digitsValue "9223372036854775807")%Z
    then Err ("invalid string length: " +:+ "9223372036854775807")
    else if (maxInt64 <? Z.of_nat (String.length "9223372036854775807") + 1
                         + digitsValue "9223372036854775807")%Z
    then Panic "slice bounds out of range"
    else if (digitsValue "9223372036854775807" <=? len (bs "abc"))%Z
    then Ok (VString (String.string_of_list_ascii
                        (take (Z.to_nat (digitsValue "9223372036854775807")) (bs "abc"))))
    else Err ErrUnexpectedEnd.
Proof.
  apply (X9_Decode_string "9223372036854775807" (bs "abc")).
  - discriminate.
  - repeat constructor; vm_compute; discriminate.
  - vm_compute. discriminate.
Defined.

(** The three outcomes on inputs of a few bytes: a string with leading
    zeros in its length, a string cut short, and the panic. *)
Example Decode_string_outcomes :
  Decode (bs "003:abcd") = Ok (VString "abc")
  /\ Decode (bs "5:abc") = Err ErrUnexpectedEnd
  /\ Decode (bs "9223372036854775807:") = Panic "slice bounds out of range"
  /\ Decode (bs "9223372036854775808:") = Err "invalid string length: 9223372036854775808".
Proof. by vm_compute. Qed.

Section prefixes.

Lemma indexFrom_take (c : ascii) (l : bytes) (k pos : nat) :
  indexFrom c (take k l) pos = Nat.min (indexFrom c l pos) (pos + k).
Proof.
  revert k pos. induction l as [|x l IH]; intros k pos.
  { rewrite take_nil. simpl. lia. }
  destruct k as [|k].
  { simpl take. pose proof (indexFrom_bound c (x :: l) pos). simpl indexFrom at 1. lia. }
  simpl. destruct (decide (x = c)); [lia|]. rewrite IH. lia.
Qed.

Lemma scanTo_take (c : ascii) (data : bytes) (n pos : nat) :
  pos <= n -> scanTo c (take n data) pos = Nat.min (scanTo c data pos) n.
Proof.
  intros Hpos. unfold scanTo.
  replace (drop pos (take n data)) with (take (n - pos) (drop pos data)).
  - rewrite indexFrom_take. lia.
  - rewrite take_drop_commute. do 2 f_equal. lia.
Qed.

Lemma substr_take (data : bytes) (n lo hi : nat) :
  hi <= n -> n <= length data -> substr (take n data) lo hi = substr data lo hi.
Proof.
  intros Hhi Hn. rewrite <- (take_drop n data) at 2.
  symmetry. apply substr_app. rewrite length_take. lia.
Qed.

Lemma slice_take (data : bytes) (n : nat) (lo hi : Z) (x : bytes) :
  slice data lo hi = Ok x -> (hi <= Z.of_nat n)%Z -> n <= length data ->
  slice (take n data) lo hi = Ok x.
Proof.
  intros Hs Hhi Hn. apply slice_Ok in Hs as (Hlo & Hle & ->).
  unfold slice, len in *. rewrite length_take.
  destruct (Z.leb_spec 0 lo); [|lia].
  destruct (Z.leb_spec lo hi); [|lia].
  destruct (Z.leb_spec hi (Z.of_nat (n `min` length data))); [|lia].
  simpl. f_equal.
  replace (drop (Z.to_nat lo) (take n data))
    with (take (n - Z.to_nat lo) (drop (Z.to_nat lo) data)).
  - rewrite take_take. f_equal. lia.
  - rewrite take_drop_commute. do 2 f_equal. lia.
Qed.

Lemma decodeInt_cut (data : bytes) (start : nat) (v : value) (p n : nat) :
  decodeInt data start = Ok (v, p) -> n <= length data -> start < n ->
  decodeInt (take n data) start = cutResult v p n.
Proof.
  intros (Hi & Hlt & -> & z & -> & Hp)%decodeInt_Ok Hn Hstart.
  unfold decodeInt, cutResult.
  rewrite lookup_take_lt by done.
  destruct (decide (data !! start = Some "i"%char)); [|done].
  rewrite scanTo_take by lia. rewrite length_take.
  set (end_ := scanTo "e" data (start + 1)) in *.
  destruct (decide (end_ + 1 <= n)) as [Hin|Hout].
  - replace (end_ `min` n) with end_ by lia.
    destruct (decide (n `min` length data <= end_)); [lia|].
    rewrite substr_take by lia. by rewrite Hp.
  - destruct (decide (n `min` length data <= end_ `min` n)); [done | lia].
Qed.

Lemma decodeString_cut (data : bytes) (start : nat) (v : value) (p n : nat) :
  decodeString data start = Ok (v, p) -> n <= length data -> start < n ->
  decodeString (take n data) start = cutResult v p n.
Proof.
  intros Hd Hn Hstart.
  pose proof (decodeString_progress _ _ _ _ Hd) as Hprog.
  pose proof (decodeString_Ok _ _ _ _ Hd) as (Hlt & length_ & str & Ha & Hp & Hs & ->).
  pose proof (slice_Ok _ _ _ _ Hs) as (Hlo & Hhi & _).
  unfold decodeString, cutResult.
  rewrite scanTo_take by lia. rewrite length_take.
  set (colon := scanTo ":" data start) in *.
  destruct (decide (colon < n)) as [Hin|Hout].
  - replace (colon `min` n) with colon by lia.
    destruct (decide (n `min` length data <= colon)); [lia|].
    rewrite substr_take by lia. rewrite Ha, <- Hp.
    unfold len. rewrite length_take.
    destruct (decide (p <= n)) as [Hpn|Hpn].
    + destruct (Z.ltb_spec (Z.of_nat (n `min` length data)) (Z.of_nat p)); [lia|].
      rewrite (slice_take _ _ _ _ _ Hs) by lia.
      cbn [mbind result_bind]. by rewrite Nat2Z.id.
    + destruct (Z.ltb_spec (Z.of_nat (n `min` length data)) (Z.of_nat p)); [done | lia].
  - destruct (decide (n `min` length data <= colon `min` n)); [|lia].
    destruct (decide (p <= n)); [lia | done].
Qed.

Lemma cutResult_cases (v : value) (p n : nat) :
  (p <= n /\ cutResult v p n = Ok (v, p))
  \/ (n < p /\ cutResult v p n = Err ErrUnexpectedEnd).
Proof. unfold cutResult. destruct (decide (p <= n)); [left | right]; split; lia || done. Qed.

Section loops_cut.
Variables (dec dec' : bytes -> nat -> result (value * nat)) (data : bytes) (n : nat).
Hypothesis Hn : n <= length data.
Hypothesis Hadv : advances dec data.
Hypothesis Hcut : forall pos v p,
  dec data pos = Ok (v, p) ->
  dec' (take n data) pos = cutResult v p n \/ dec' (take n data) pos = OutOfFuel.

Lemma decodeListLoop_cut (m m' pos : nat) (acc : list value) (v : value) (p : nat) :
  decodeListLoop dec m data pos acc = Ok (v, p) ->
  decodeListLoop dec' m' (take n data) pos acc = cutResult v p n
  \/ decodeListLoop dec' m' (take n data) pos acc = OutOfFuel.
Proof.
  revert m' pos acc. induction m as [|m IH]; intros m' pos acc; [done|].
  destruct m' as [|m']; [by right|]. cbn [decodeListLoop].
  destruct (data !! pos) as [c|] eqn:Hc; [|done].
  destruct (decide (pos < n)) as [Hpos|Hpos].
  - rewrite lookup_take_lt, Hc by done.
    destruct (decide (c = "e"%char)).
    { intros [= <- <-]. left. unfold cutResult.
      destruct (decide (pos + 1 <= n)); [done | lia]. }
    destruct (dec data pos) as [[item newPos]| | |] eqn:Hitem; try done.
    cbn [mbind result_bind]. intros Hloop.
    pose proof (decodeListLoop_progress _ _ _ _ _ _ _ Hadv Hloop) as Hp.
    destruct (Hcut _ _ _ Hitem) as [-> | ->]; [|by right].
    destruct (cutResult_cases item newPos n) as [[? ->]|[? ->]].
    + cbn [mbind result_bind]. by apply IH.
    + left. unfold cutResult. destruct (decide (p <= n)); [lia | done].
  - rewrite lookup_take_ge by lia. intros Hloop. left.
    unfold cutResult. destruct (decide (p <= n)) as [Hpn|]; [|done].
    assert (pos < p); [|lia].
    destruct (decide (c = "e"%char)).
    + injection Hloop as <- <-. lia.
    + destruct (dec data pos) as [[item newPos]| | |] eqn:Hitem; try done.
      cbn [mbind result_bind] in Hloop.
      apply (decodeListLoop_progress _ _ _ _ _ _ _ Hadv) in Hloop.
      apply Hadv in Hitem. lia.
Qed.

Lemma decodeDictLoop_cut (m m' pos : nat) (acc : gmap string value)
    (v : value) (p : nat) :
  decodeDictLoop dec m data pos acc = Ok (v, p) ->
  decodeDictLoop dec' m' (take n data) pos acc = cutResult v p n
  \/ decodeDictLoop dec' m' (take n data) pos acc = OutOfFuel.
Proof.
  revert m' pos acc. induction m as [|m IH]; intros m' pos acc; [done|].
  destruct m' as [|m']; [by right|]. cbn [decodeDictLoop].
  destruct (data !! pos) as [c|] eqn:Hc; [|done].
  destruct (decide (pos < n)) as [Hpos|Hpos].
  - rewrite lookup_take_lt, Hc by done.
    destruct (decide (c = "e"%char)).
    { intros [= <- <-]. left. unfold cutResult.
      destruct (decide (pos + 1 <= n)); [done | lia]. }
    destruct (dec data pos) as [[key newPos]| | |] eqn:Hkey; try done.
    cbn [mbind result_bind]. destruct key as [keyStr| | | | | | | |]; try done.
    destruct (dec data newPos) as [[value_ newPos']| | |] eqn:Hvalue; try done.
    cbn [mbind result_bind]. intros Hloop.
    pose proof (decodeDictLoop_progress _ _ _ _ _ _ _ Hadv Hloop) as Hp.
    pose proof (Hadv _ _ _ Hkey) as Hk. pose proof (Hadv _ _ _ Hvalue) as Hv.
    destruct (Hcut _ _ _ Hkey) as [-> | ->]; [|by right].
    destruct (cutResult_cases (VString keyStr) newPos n) as [[? ->]|[? ->]].
    + cbn [mbind result_bind].
      destruct (Hcut _ _ _ Hvalue) as [-> | ->]; [|by right].
      destruct (cutResult_cases value_ newPos' n) as [[? ->]|[? ->]].
      * cbn [mbind result_bind]. by apply IH.
      * left. unfold cutResult. destruct (decide (p <= n)); [lia | done].
    + left. unfold cutResult. destruct (decide (p <= n)); [lia | done].
  - rewrite lookup_take_ge by lia. intros Hloop. left.
    unfold cutResult. destruct (decide (p <= n)) as [Hpn|]; [|done].
    assert (pos < p); [|lia].
    destruct (decide (c = "e"%char)).
    + injection Hloop as <- <-. lia.
    + destruct (dec data pos) as [[key newPos]| | |] eqn:Hkey; try done.
      cbn [mbind result_bind] in Hloop. destruct key; try done.
      destruct (dec data newPos) as [[value_ newPos']| | |] eqn:Hvalue; try done.
      cbn [mbind result_bind] in Hloop.
      apply (decodeDictLoop_progress _ _ _ _ _ _ _ Hadv) in Hloop.
      apply Hadv in Hkey, Hvalue. lia.
Qed.

End loops_cut.

Lemma decode_cut (fuel : nat) :
  forall fuel' data pos v p n,
    n <= length data ->
    decode fuel data pos = Ok (v, p) ->
    decode fuel' (take n data) pos = cutResult v p n
    \/ decode fuel' (take n data) pos = OutOfFuel.
Proof.
  induction fuel as [|fuel IH]; intros fuel' data pos v p n Hn; [done|].
  destruct fuel' as [|fuel']; [by right|]. intros Hd.
  pose proof (decode_progress _ _ _ _ _ Hd) as Hprog.
  revert Hd. cbn [decode].
  destruct (data !! pos) as [c|] eqn:Hc; [|done].
  destruct (decide (pos < n)) as [Hpos|Hpos].
  2:{ intros _. rewrite lookup_take_ge by lia. left.
      unfold cutResult. destruct (decide (p <= n)); [lia | done]. }
  rewrite lookup_take_lt, Hc by done.
  destruct (decide (c = "i"%char)).
  { intros Hd. left. by apply decodeInt_cut. }
  destruct (decide (c = "l"%char)).
  { unfold decodeList. rewrite lookup_take_lt by done.
    destruct (decide (data !! pos = Some "l"%char)); [|done].
    apply decodeListLoop_cut; [done | apply decode_progress |].
    intros pos' v' p'. by apply IH. }
  destruct (decide (c = "d"%char)).
  { unfold decodeDict. rewrite lookup_take_lt by done.
    destruct (decide (data !! pos = Some "d"%char)); [|done].
    apply decodeDictLoop_cut; [done | apply decode_progress |].
    intros pos' v' p'. by apply IH. }
  destruct (isDigit c); [|done].
  intros Hd. left. by apply decodeString_cut.
Qed.

End prefixes.

(** X10: [Decode] looks at the bytes of the value it reads and at
    nothing else.  When [Decode] accepts an input and reads [p] bytes of
    it, every prefix of the input of at least [p] bytes decodes to the
    same value, and every shorter prefix is refused with "unexpected end
    of input". *)
Theorem X10_Decode_prefixes (data : bytes) (v : value) :
  Decode data = Ok v ->
  exists p,
    consumed data = Some p /\ 0 < p <= length data
    /\ forall n, Decode (take n data)
                 = if decide (p <= n) then Ok v else Err ErrUnexpectedEnd.
Proof.
  unfold Decode, consumed.
  destruct (decode _ data 0) as [[v' p]| | |] eqn:Hd; try done.
  cbn [mbind result_bind]. intros [= ->]. exists p.
  pose proof (decode_progress _ _ _ _ _ Hd) as Hprog.
  split; [done|]. split; [done|]. intros n.
  destruct (decide (n <= length data)) as [Hn|Hn].
  - pose proof (decode_fuel (S (length (take n data))) (take n data) 0 ltac:(lia)) as Hf.
    destruct (decode_cut _ (S (length (take n data))) _ _ _ _ n Hn Hd) as [Hc|Hc];
      [|done].
    rewrite Hc. unfold cutResult. by destruct (decide (p <= n)).
  - rewrite take_ge by lia. rewrite Hd.
    destruct (decide (p <= n)); [done | lia].
Qed.

Lemma X10_Decode_prefixes_witness :
  exists p,
    consumed (bs "l3:abci7eetail") = Some p /\ 0 < p <= length (bs "l3:abci7eetail")
    /\ forall n, Decode (take n (bs "l3:abci7eetail"))
                 = if decide (p <= n) then Ok (VList [VString "abc"; VInt 7])
                   else Err ErrUnexpectedEnd.
Proof.
  apply (X10_Decode_prefixes (bs "l3:abci7eetail")). vm_compute. reflexivity.
Defined.

Section panics.

Lemma parseDigits_first_digit (c : ascii) (s : string) (n : Z) :
  isDigit c = true -> ParseInt (String c s) = Some n -> (0 <= n)%Z.
Proof.
  intros Hc. unfold ParseInt.
  assert (Hd : is_digit c).
  { unfold isDigit, is_digit in *. apply andb_prop in Hc as [H1 H2].
    apply Z.leb_le in H1, H2. lia. }
  destruct (is_digit_not_sign c Hd) as (Hp & Hm & _).
  destruct (decide (c = "+"%char)); [done|].
  destruct (decide (c = "-"%char)); [done|].
  destruct (parseDigits (String c s) 0) as [un|] eqn:Hun; [|done].
  apply parseDigits_nonneg in Hun; [|done]. simpl.
  destruct (2 ^ 63 <=? un)%Z; [done|]. by intros [= <-].
Qed.

(** The one way [decodeString] panics when it is called on a digit. *)
Lemma decodeString_Panic (data : bytes) (start : nat) (c : ascii) (m : string) :
  data !! start = Some c -> isDigit c = true ->
  decodeString data start = Panic m ->
  m = "slice bounds out of range"
  /\ exists length_,
       Atoi (substr data start (scanTo ":" data start)) = Some length_
       /\ (maxInt64 < Z.of_nat (scanTo ":" data start) + 1 + length_)%Z.
Proof.
  intros Hc Hd. unfold decodeString.
  set (colon := scanTo ":" data start).
  destruct (decide (length data <= colon)) as [|Hlt]; [done|].
  destruct (Atoi _) as [length_|] eqn:Ha; [|done].
  destruct (Z.ltb_spec (len data) (wrap64 (Z.of_nat colon + 1 + length_))) as [|Hle];
    [done|].
  unfold slice.
  destruct (Z.leb_spec 0 (Z.of_nat colon + 1)); [|lia].
  destruct (Z.leb_spec (Z.of_nat colon + 1) (wrap64 (Z.of_nat colon + 1 + length_)))
    as [|Hneg].
  { destruct (Z.leb_spec (wrap64 (Z.of_nat colon + 1 + length_)) (len data));
      [done | lia]. }
  intros [= <-]. split; [done|]. exists length_. split; [done|].
  (* without a wrap-around the end is not in front of the start *)
  destruct (Z.lt_ge_cases maxInt64 (Z.of_nat colon + 1 + length_)) as [|Hin]; [done|].
  assert (Hnn : (0 <= length_)%Z).
  { assert (Hcolon : start < colon).
    { pose proof (scanTo_lower ":" data start) as Hlow. fold colon in Hlow.
      destruct (decide (start = colon)) as [Heq|]; [|lia].
      (* the byte at [start] is a digit, not the colon *)
      exfalso. unfold colon, scanTo in Heq.
      pose proof (indexFrom_found ":" (drop start data) start) as Hf.
      rewrite length_drop in Hf. rewrite <- Heq in Hf.
      destruct Hf as [Hf _]; [apply lookup_lt_Some in Hc; lia|].
      rewrite Nat.sub_diag, lookup_drop, Nat.add_0_r, Hc in Hf.
      injection Hf as ->. by vm_compute in Hd. }
    unfold Atoi in Ha. unfold substr in Ha.
    destruct (drop start data) as [|c' rest] eqn:Hdrop.
    { apply (f_equal length) in Hdrop. rewrite length_drop in Hdrop.
      apply lookup_lt_Some in Hc. simpl in Hdrop. lia. }
    assert (c' = c) as ->.
    { pose proof (lookup_drop data start 0) as Hl.
      rewrite Hdrop, Nat.add_0_r, Hc in Hl. simpl in Hl. congruence. }
    replace (colon - start) with (S (colon - start - 1)) in Ha by lia.
    simpl in Ha. by eapply parseDigits_first_digit. }
  rewrite wrap64_small in Hneg; [lia|].
  unfold inInt64, minInt64, maxInt64 in *. lia.
Qed.

Lemma decodeListLoop_Panic (dec : bytes -> nat -> result (value * nat))
    (data : bytes) (m : string) (n : nat) :
  forall pos acc,
    decodeListLoop dec n data pos acc = Panic m ->
    exists pos', dec data pos' = Panic m.
Proof.
  induction n as [|n IH]; intros pos acc; [done|]. cbn [decodeListLoop].
  destruct (data !! pos) as [c|]; [|done].
  destruct (decide (c = "e"%char)); [done|].
  destruct (dec data pos) as [[item newPos]| | |] eqn:Hitem; try done.
  - cbn [mbind result_bind]. apply IH.
  - cbn [mbind result_bind]. intros [= <-]. eauto.
Qed.

Lemma decodeDictLoop_Panic (dec : bytes -> nat -> result (value * nat))
    (data : bytes) (m : string) (n : nat) :
  forall pos acc,
    decodeDictLoop dec n data pos acc = Panic m ->
    exists pos', dec data pos' = Panic m.
Proof.
  induction n as [|n IH]; intros pos acc; [done|]. cbn [decodeDictLoop].
  destruct (data !! pos) as [c|]; [|done].
  destruct (decide (c = "e"%char)); [done|].
  destruct (dec data pos) as [[key newPos]| | |] eqn:Hkey; try done.
  2:{ cbn [mbind result_bind]. intros [= <-]. eauto. }
  cbn [mbind result_bind]. destruct key; try done.
  destruct (dec data newPos) as [[value_ newPos']| | |] eqn:Hvalue; try done.
  - cbn [mbind result_bind]. apply IH.
  - cbn [mbind result_bind]. intros [= <-]. eauto.
Qed.

Lemma decode_Panic (fuel : nat) (data : bytes) (m : string) :
  forall pos,
    decode fuel data pos = Panic m ->
    exists start c,
      data !! start = Some c /\ isDigit c = true /\ decodeString data start = Panic m.
Proof.
  induction fuel as [|fuel IH]; intros pos; [done|]. cbn [decode].
  destruct (data !! pos) as [c|] eqn:Hc; [|done].
  destruct (decide (c = "i"%char)).
  { unfold decodeInt. destruct (decide _); [|done].
    destruct (decide _); [done|]. by destruct (ParseInt _). }
  destruct (decide (c = "l"%char)).
  { unfold decodeList. destruct (decide _); [|done].
    intros (pos' & Hp)%decodeListLoop_Panic. by eapply IH. }
  destruct (decide (c = "d"%char)).
  { unfold decodeDict. destruct (decide _); [|done].
    intros (pos' & Hp)%decodeDictLoop_Panic. by eapply IH. }
  destruct (isDigit c) eqn:Hd; [|done].
  intros Hp. by exists pos, c.
Qed.

End panics.

(** X21: the one way [Decode] panics.  When [Decode] panics, the panic
    is the one of a slice expression, and the input holds, at a place
    where a string is read, a length that, added to the position behind
    its colon, exceeds the largest [int].  So [Decode] does not panic on
    an input in which every number in front of a colon is at most
    2^63 - 1 minus the length of the input. *)
Theorem X21_Decode_panics_on_overflow_only (data : bytes) (m : string) :
  Decode data = Panic m ->
  m = "slice bounds out of range"
  /\ exists start length_,
       start < length data
       /\ Atoi (substr data start (scanTo ":" data start)) = Some length_
       /\ (maxInt64 < Z.of_nat (scanTo ":" data start) + 1 + length_)%Z.
Proof.
  unfold Decode.
  destruct (decode _ data 0) as [[v p]| | |] eqn:Hd; try done.
  cbn [mbind result_bind]. intros [= ->].
  apply decode_Panic in Hd as (start & c & Hc & Hdig & Hp).
  destruct (decodeString_Panic _ _ _ _ Hc Hdig Hp) as (-> & length_ & Ha & Hover).
  split; [done|]. exists start, length_.
  split; [by eapply lookup_lt_Some | done].
Qed.

Lemma X21_Decode_panics_on_overflow_only_witness :
  "slice bounds out of range" = "slice bounds out of range"
  /\ exists start length_,
       start < length (bs "l9223372036854775807:e")
       /\ Atoi (substr (bs "l9223372036854775807:e") start
                       (scanTo ":" (bs "l9223372036854775807:e") start))
          = Some length_
       /\ (maxInt64 < Z.of_nat (scanTo ":" (bs "l9223372036854775807:e") start)
                      + 1 + length_)%Z.
Proof.
  apply (X21_Decode_panics_on_overflow_only (bs "l9223372036854775807:e")).
  vm_compute. reflexivity.
Defined.

(** * Further properties of package torrent *)
Import golib bencode props samples torrent.

Section metainfo.

Lemma asString_canon (m : gmap string value) (k s : string) :
  asString (m !! k) = Some s -> asString ((canon <$> m) !! k) = Some s.
Proof.
  rewrite lookup_fmap. destruct (m !! k) as [[]|]; simpl; congruence.
Qed.

Lemma asInt_canon (m : gmap string value) (k : string) (n : Z) :
  asInt (m !! k) = Some n -> asInt ((canon <$> m) !! k) = Some n.
Proof.
  rewrite lookup_fmap. destruct (m !! k) as [[]|]; simpl; congruence.
Qed.

Lemma asDict_Some (m : gmap string value) (k : string) (d : gmap string value) :
  m !! k = Some (VDict d) -> asDict (m !! k) = Some d.
Proof. by intros ->. Qed.

(** A map that holds the fields of the metainfo is not the nil map. *)
Lemma has_fields_info (dict : gmap string value) (f : fields) :
  has_fields dict f -> dict !! "info" = Some (VDict (f_info f)).
Proof.
  intros (_ & Hi & Hp & _).
  destruct (dict !! "info") as [[]|]; simpl in Hi; try done.
  - by injection Hi as ->.
  - injection Hi as Hi. by rewrite <- Hi, lookup_empty in Hp.
Qed.

(** The fields of a map stay its fields when the map has been through
    [Encode] and [Decode]. *)
Lemma has_fields_canon (dict : gmap string value) (f : fields) :
  has_fields dict f ->
  has_fields (canon <$> dict)
    (mkFields (f_announce f) (canon <$> f_info f) (f_pieces f)
              (f_pieceLength f) (f_length f) (f_name f)).
Proof.
  intros Hf. pose proof (has_fields_info _ _ Hf) as Hi.
  destruct Hf as (Ha & _ & Hp & Hpl & Hl & Hn). unfold has_fields. simpl.
  repeat split; try (by apply asString_canon); try (by apply asInt_canon).
  apply asDict_Some. by rewrite lookup_fmap, Hi.
Qed.

(** [parseTorrentDict] returns a metainfo or one of its own errors. *)
Lemma parseTorrentDict_outcome (dict : gmap string value) :
  (exists f, has_fields dict f /\ String.length (f_pieces f) mod 20 = 0
             /\ is_Ok (parseTorrentDict dict))
  \/ (exists e, parseTorrentDict dict = Err e /\ e ∈ parseErrors).
Proof.
  destruct (asString (dict !! "announce")) as [announce|] eqn:Ha.
  2:{ right. eexists. unfold parseTorrentDict. rewrite Ha. split; [done|].
      unfold parseErrors. set_solver. }
  destruct (asDict (dict !! "info")) as [infoDict|] eqn:Hi.
  2:{ right. eexists. unfold parseTorrentDict. rewrite Ha, Hi. split; [done|].
      unfold parseErrors. set_solver. }
  destruct (asString (infoDict !! "pieces")) as [pieces|] eqn:Hp.
  2:{ right. eexists. unfold parseTorrentDict. rewrite Ha, Hi.
      cbn [orErr mbind result_bind]. rewrite Hp. split; [done|].
      unfold parseErrors. set_solver. }
  destruct (asInt (infoDict !! "piece length")) as [pl|] eqn:Hpl.
  2:{ right. eexists. unfold parseTorrentDict. rewrite Ha, Hi.
      cbn [orErr mbind result_bind]. rewrite Hp, Hpl. split; [done|].
      unfold parseErrors. set_solver. }
  destruct (asInt (infoDict !! "length")) as [l|] eqn:Hl.
  2:{ right. eexists. unfold parseTorrentDict. rewrite Ha, Hi.
      cbn [orErr mbind result_bind]. rewrite Hp, Hpl, Hl. split; [done|].
      unfold parseErrors. set_solver. }
  destruct (asString (infoDict !! "name")) as [name|] eqn:Hnm.
  2:{ right. eexists. unfold parseTorrentDict. rewrite Ha, Hi.
      cbn [orErr mbind result_bind]. rewrite Hp, Hpl, Hl, Hnm. split; [done|].
      unfold parseErrors. set_solver. }
  assert (Hf : has_fields dict (mkFields announce infoDict pieces pl l name)) by done.
  pose proof (parseTorrentDict_fields dict _ Hf) as Hr.
  cbn [f_announce f_info f_pieces f_pieceLength f_length f_name] in Hr.
  destruct (decide (String.length pieces mod 20 = 0)) as [Hmod|Hmod].
  - left. exists (mkFields announce infoDict pieces pl l name).
    split; [exact Hf|]. split; [exact Hmod | rewrite Hr; by eexists].
  - right. eexists. split; [exact Hr|]. unfold parseErrors. set_solver.
Qed.

Lemma hashesOf_lengths (pieces : string) :
  String.length pieces mod 20 = 0 ->
  Forall (fun h => length h = 20) (hashesOf pieces).
Proof.
  intros Hmod. unfold hashesOf. apply Forall_fmap, Forall_forall.
  intros i Hi%elem_of_seq. simpl. apply window_length.
  rewrite list_ascii_length.
  pose proof (Nat.div_mod_eq (String.length pieces) 20). lia.
Qed.

End metainfo.

(** X11: a metainfo written by [Encode] is read back by [Parse].  For a
    map that holds the six fields with their types, a [pieces] string of
    a multiple of 20 bytes among them, [Parse] of the output of [Encode]
    returns the announce URL, the name and the two lengths as they are in
    the map, the 20-byte groups of [pieces] as piece hashes, and the
    SHA-1 of the output of [Encode] for the [info] map as info hash. *)
Theorem X11_Parse_Encode (dict : gmap string value) (f : fields) (data : bytes) :
  goValue (VDict dict) -> has_fields dict f ->
  String.length (f_pieces f) mod 20 = 0 ->
  Encode (VDict dict) = Ok data -> (len data <= maxInt64)%Z ->
  exists enc,
    Encode (VDict (f_info f)) = Ok enc
    /\ Parse data
       = Ok {| Announce := f_announce f; InfoHash := sha1.Sum enc;
               PieceHashes := hashesOf (f_pieces f);
               PieceLength := f_pieceLength f; Length := f_length f;
               Name := f_name f |}.
Proof.
  intros Hgo Hf Hmod Henc Hfit.
  pose proof (has_fields_info _ _ Hf) as Hi.
  destruct (Encode_dict_items dict data Henc "info" _ Hi) as [enc Hienc].
  exists enc. split; [done|].
  unfold Parse. rewrite (Decode_Encode_canon _ _ Hgo Henc Hfit). cbn [canon asDict].
  rewrite (parseTorrentDict_fields _ _ (has_fields_canon _ _ Hf)).
  cbn [f_announce f_info f_pieces f_pieceLength f_length f_name].
  destruct (decide (String.length (f_pieces f) mod 20 = 0)); [|done].
  cbn [mbind result_bind]. rewrite lookup_fmap, Hi.
  cbn [fmap option_fmap option_map canon].
  change (VDict (canon <$> f_info f)) with (canon (VDict (f_info f))).
  by rewrite (Encode_canon _ _ Hienc).
Qed.

Lemma X11_Parse_Encode_witness :
  exists enc,
    Encode (VDict {[ "name" := VString "n"; "length" := VInt 0;
                     "piece length" := VInt 1; "pieces" := VString "" ]}) = Ok enc
    /\ Parse sorted_torrent
       = Ok {| Announce := "u"; InfoHash := sha1.Sum enc;
               PieceHashes := hashesOf "";
               PieceLength := 1; Length := 0; Name := "n" |}.
Proof.
  refine (X11_Parse_Encode
            {[ "announce" := VString "u";
               "info" := VDict {[ "name" := VString "n"; "length" := VInt 0;
                                  "piece length" := VInt 1; "pieces" := VString "" ]} ]}
            (mkFields "u" {[ "name" := VString "n"; "length" := VInt 0;
                             "piece length" := VInt 1; "pieces" := VString "" ]}
                      "" 1 0 "n") sorted_torrent _ _ _ _ _).
  - apply go_dict. intros k v Hk.
    apply lookup_insert_Some in Hk as [[_ <-]|[_ Hk]]; [constructor|].
    apply lookup_singleton_Some in Hk as [_ <-].
    apply go_dict. intros k' v' Hk'.
    repeat (apply lookup_insert_Some in Hk' as [[_ <-]|[_ Hk']];
            [go_value|]).
    apply lookup_singleton_Some in Hk' as [_ <-]. go_value.
  - by vm_compute.
  - reflexivity.
  - vm_compute. reflexivity.
  - vm_compute. discriminate.
Defined.

(** X12: the outcomes of [Parse].  A metainfo it returns has an info
    hash of 20 bytes and piece hashes of 20 bytes each.  An error is the
    decoder's, behind "failed to decode torrent: ", or one of the eight
    errors about the dictionary and its fields: the errors "missing info
    dictionary" and "failed to encode info dict" are never returned.
    [Parse] does not panic unless [Decode] does. *)
Theorem X12_Parse_outcomes (data : bytes) :
  match Parse data with
  | Ok t => length (InfoHash t) = 20 /\ Forall (fun h => length h = 20) (PieceHashes t)
  | Err e =>
      (exists e', Decode data = Err e' /\ e = "failed to decode torrent: " +:+ e')
      \/ e ∈ parseErrors
  | Panic e => Decode data = Panic e
  | OutOfFuel => False
  end.
Proof.
  unfold Parse. pose proof (Decode_fuel data) as Hfuel.
  destruct (Decode data) as [dv|e|e|] eqn:Hd; [|by left; eauto|done|done].
  apply Decode_built in Hd as [Hdec _].
  destruct Hdec as [s|n|l Hne Hl| |torrentDict Hm]; cbn [asDict];
    try (right; unfold parseErrors; set_solver).
  destruct (parseTorrentDict_outcome torrentDict)
    as [(f & Hf & Hmod & _)|(e & -> & He)]; [|by right].
  rewrite (parseTorrentDict_fields _ _ Hf).
  destruct (decide (String.length (f_pieces f) mod 20 = 0)); [|done].
  cbn [mbind result_bind].
  pose proof (has_fields_info _ _ Hf) as Hi. rewrite Hi.
  destruct (Encode_outcome (VDict (f_info f))) as [[_ [enc ->]]|[Hno _]].
  - cbn [withInfoHash InfoHash PieceHashes].
    split; [apply Sum_length | by apply hashesOf_lengths].
  - destruct Hno. apply decoded_supported. by apply (Hm "info").
Qed.

Section tracker.

Lemma parsePeers_Ok (b : bytes) :
  length b mod 6 = 0 -> parsePeers b = Ok (peersOf b).
Proof.
  intros Hmod. unfold parsePeers.
  assert (Hrem : Z.rem (len b) 6 = Z.of_nat (length b mod 6)).
  { unfold len. rewrite Z.rem_mod_nonneg by lia. by rewrite Nat2Z.inj_mod. }
  assert (Hquot : Z.to_nat (Z.quot (len b) 6) = length b / 6).
  { unfold len. rewrite Z.quot_div_nonneg by lia.
    rewrite <- (Nat2Z.id (length b / 6)). f_equal. by rewrite Nat2Z.inj_div. }
  rewrite Hrem, Hmod.
  destruct (decide (Z.of_nat 0 ≠ 0%Z)) as [?|_]; [done|].
  rewrite Hquot. unfold peersOf.
  apply (foldl_fill (parsePeer b) (peerAt b) (fun _ => True)).
  - by rewrite length_replicate.
  - by apply Forall_true.
  - done.
  - intros k xs Hk Hxs _. apply parsePeer_step; [|lia].
    pose proof (Nat.div_mod_eq (length b) 6). lia.
Qed.

(** What [RequestPeers] does up to the decoder when the tracker
    answers. *)
Lemma RequestPeers_answered (get : string -> result Response) (url : string)
    (body : bytes) :
  answers get url body ->
  RequestPeers (Ok url) get
  = match Decode body with
    | Err e => Err ("failed to decode tracker response: " +:+ e)
    | Panic e => Panic e
    | OutOfFuel => OutOfFuel
    | Ok decoded =>
        match asDict (Some decoded) with
        | Some responseDict =>
            match asString (responseDict !! "failure reason") with
            | Some reason => Err ("tracker error: " +:+ reason)
            | None =>
                interval ← orErr (asInt (responseDict !! "interval"))
                  "missing or invalid interval in tracker response";
                peersData ← orErr (asString (responseDict !! "peers"))
                  "missing or invalid peers in tracker response";
                match parsePeers (String.list_ascii_of_string peersData) with
                | Err e => Err ("failed to parse peers: " +:+ e)
                | Panic e => Panic e
                | OutOfFuel => OutOfFuel
                | Ok peers => Ok {| Interval := interval; Peers := peers |}
                end
            end
        | None => Err "tracker response is not a dictionary"
        end
    end.
Proof.
  intros (resp & Hget & Hstatus & Hlen & Hread). unfold RequestPeers.
  rewrite Hget, Hstatus, Hlen.
  destruct (decide (StatusOK ≠ StatusOK)); [done|].
  destruct (decide (len body < 0)%Z) as [Hneg|_]; [unfold len in Hneg; lia|].
  unfold len. rewrite Nat2Z.id, Hread.
  by destruct (Decode body).
Qed.

End tracker.

(** X13: [RequestPeers] on the answer of a tracker, the body being the
    output of [Encode] for a response map.  When the map has a failure
    reason that is a string, the result is the error "tracker error: "
    with the reason, whatever else the map holds.  When it has no
    failure reason, an [int] interval and a peers string of a multiple
    of 6 bytes, the result is that interval with the peers of the
    6-byte records of the string. *)
Theorem X13_RequestPeers_response (get : string -> result Response) (url : string)
    (m : gmap string value) (body : bytes) :
  goValue (VDict m) -> Encode (VDict m) = Ok body -> (len body <= maxInt64)%Z ->
  answers get url body ->
  (forall reason,
     asString (m !! "failure reason") = Some reason ->
     RequestPeers (Ok url) get = Err ("tracker error: " +:+ reason))
  /\ (forall interval peersData,
        m !! "failure reason" = None ->
        asInt (m !! "interval") = Some interval ->
        asString (m !! "peers") = Some peersData ->
        String.length peersData mod 6 = 0 ->
        RequestPeers (Ok url) get
        = Ok {| Interval := interval; Peers := peersOf (bs peersData) |}).
Proof.
  intros Hgo Henc Hfit Hans.
  rewrite (RequestPeers_answered _ _ _ Hans).
  rewrite (Decode_Encode_canon _ _ Hgo Henc Hfit). cbn [canon asDict].
  split.
  - intros reason Hr. by rewrite (asString_canon _ _ _ Hr).
  - intros interval peersData Hno Hi Hp Hmod.
    rewrite lookup_fmap, Hno. cbn [fmap option_fmap option_map asString].
    rewrite (asInt_canon _ _ _ Hi), (asString_canon _ _ _ Hp).
    cbn [orErr mbind result_bind].
    rewrite parsePeers_Ok; [done|]. by rewrite list_ascii_length.
Qed.

Lemma X13_RequestPeers_response_witness :
  let get := fun _ : string =>
    Ok {| StatusCode := 200; ContentLength := 33;
          Read := fun _ => (bs "d8:intervali1800e5:peers6:abcdefe", None) |} in
  let m : gmap string value :=
    {[ "interval" := VInt 1800; "peers" := VString "abcdef" ]} in
  (forall reason,
     asString (m !! "failure reason") = Some reason ->
     RequestPeers (Ok "u") get = Err ("tracker error: " +:+ reason))
  /\ (forall interval peersData,
        m !! "failure reason" = None ->
        asInt (m !! "interval") = Some interval ->
        asString (m !! "peers") = Some peersData ->
        String.length peersData mod 6 = 0 ->
        RequestPeers (Ok "u") get
        = Ok {| Interval := interval; Peers := peersOf (bs peersData) |}).
Proof.
  intros get m.
  refine (X13_RequestPeers_response get "u" m
            (bs "d8:intervali1800e5:peers6:abcdefe") _ _ _ _).
  - apply go_dict. intros k v Hk.
    apply lookup_insert_Some in Hk as [[_ <-]|[_ Hk]]; [go_value|].
    apply lookup_singleton_Some in Hk as [_ <-]. go_value.
  - vm_compute. reflexivity.
  - vm_compute. discriminate.
  - eexists. split; [reflexivity|]. by vm_compute.
Defined.

(** The two scenarios of the package's tracker tests, through
    [RequestPeers]. *)
Example RequestPeers_scenarios :
  RequestPeers (Ok "u") (fun _ =>
    Ok {| StatusCode := 200; ContentLength := 33;
          Read := fun _ => (bs "d8:intervali1800e5:peers6:" ++ (byteOf <$> [127; 0; 0; 1; 31; 144]%Z)
                            ++ bs "e", None) |})
  = Ok {| Interval := 1800;
          Peers := [ {| IP := byteOf <$> [127; 0; 0; 1]%Z; Port := 8080 |} ] |}
  /\ RequestPeers (Ok "u") (fun _ =>
       Ok {| StatusCode := 200; ContentLength := 39;
             Read := fun _ => (bs "d14:failure reason17:Invalid info_hashe", None) |})
     = Err "tracker error: Invalid info_hash"
  /\ RequestPeers (Ok "u") (fun _ =>
       Ok {| StatusCode := 404; ContentLength := 0; Read := fun b => (b, None) |})
     = Err "tracker returned HTTP 404".
Proof. by vm_compute. Qed.

(** * Further properties of package client *)
Import golib bencode props samples peer client.

Section piece_bounds.

Lemma wrap64_id (z : Z) : (- 2 ^ 63 <= z <= 2 ^ 63 - 1)%Z -> wrap64 z = z.
Proof. intros Hz. apply wrap64_small. unfold inInt64, minInt64, maxInt64. lia. Qed.

(** The bounds of a piece that starts inside the file. *)
Lemma bounds_inside (t : Torrent) (i : Z) :
  (0 < t_PieceLength t)%Z -> (0 <= i)%Z ->
  (i * t_PieceLength t <= t_Length t)%Z ->
  (t_Length t + t_PieceLength t <= maxInt64)%Z ->
  calculateBoundsForPiece t i
  = (i * t_PieceLength t, Z.min ((i + 1) * t_PieceLength t) (t_Length t))%Z.
Proof.
  unfold maxInt64. intros Hpl Hi Hin Hmax. unfold calculateBoundsForPiece.
  assert (0 <= i * t_PieceLength t)%Z by nia.
  rewrite (wrap64_id (i * t_PieceLength t)) by lia.
  rewrite wrap64_id by lia.
  destruct (decide (t_Length t < i * t_PieceLength t + t_PieceLength t)%Z);
    f_equal; lia.
Qed.

End piece_bounds.

(** X14: the bounds of a piece.  With a positive piece length, for a
    piece that starts inside the file (and sizes that stay in the range
    of [int]), [calculateBoundsForPiece] returns [index * PieceLength]
    and the smaller of [(index + 1) * PieceLength] and [Length]: each
    piece ends where the next one starts, the last one ends at the end
    of the file, and [calculatePieceSize] is positive, at most
    [PieceLength], and equal to it for every piece that is not cut by
    the end of the file. *)
Theorem X14_piece_bounds (t : Torrent) (i : Z) :
  (0 < t_PieceLength t)%Z -> (0 <= i)%Z ->
  (i * t_PieceLength t < t_Length t)%Z ->
  (t_Length t + t_PieceLength t <= maxInt64)%Z ->
  calculateBoundsForPiece t i
  = (i * t_PieceLength t, Z.min ((i + 1) * t_PieceLength t) (t_Length t))%Z
  /\ (0 < calculatePieceSize t i <= t_PieceLength t)%Z
  /\ (calculatePieceSize t i = t_PieceLength t
      <-> ((i + 1) * t_PieceLength t <= t_Length t)%Z).
Proof.
  intros Hpl Hi Hin Hmax. unfold calculatePieceSize.
  rewrite bounds_inside by (done || lia). split; [done|].
  unfold maxInt64 in Hmax. assert (0 <= i * t_PieceLength t)%Z by nia.
  rewrite wrap64_id by lia. lia.
Qed.

Lemma X14_piece_bounds_witness :
  let t := {| t_Peers := []; t_PeerID := []; t_InfoHash := []; t_PieceHashes := [];
              t_PieceLength := 32; t_Length := 65; t_Name := "" |} in
  calculateBoundsForPiece t 2
  = (2 * t_PieceLength t, Z.min ((2 + 1) * t_PieceLength t) (t_Length t))%Z
  /\ (0 < calculatePieceSize t 2 <= t_PieceLength t)%Z
  /\ (calculatePieceSize t 2 = t_PieceLength t
      <-> ((2 + 1) * t_PieceLength t <= t_Length t)%Z).
Proof.
  intros t. apply (X14_piece_bounds t 2); vm_compute; done.
Defined.

(** X15: nothing compares the number of piece hashes with the length of
    the file.  For a piece that starts behind the end of the file,
    [calculatePieceSize] is negative, and [attemptDownloadPiece] on the
    work item made of it panics when it allocates the buffer. *)
Theorem X15_piece_behind_the_end (t : Torrent) (i : Z) (c : Client) (hash : bytes) :
  (0 < t_PieceLength t)%Z -> (0 <= t_Length t)%Z ->
  (t_Length t < i * t_PieceLength t)%Z ->
  (i * t_PieceLength t + t_PieceLength t <= maxInt64)%Z ->
  calculatePieceSize t i = (t_Length t - i * t_PieceLength t)%Z
  /\ attemptDownloadPiece c {| pw_index := i; pw_hash := hash;
                               pw_length := calculatePieceSize t i |}
     = (Panic "makeslice: len out of range", c).
Proof.
  unfold maxInt64. intros Hpl Hlen Hout Hmax.
  assert (Hsize : calculatePieceSize t i = (t_Length t - i * t_PieceLength t)%Z).
  { unfold calculatePieceSize, calculateBoundsForPiece.
    rewrite (wrap64_id (i * t_PieceLength t)) by lia.
    rewrite (wrap64_id (i * t_PieceLength t + t_PieceLength t)) by lia.
    destruct (decide (t_Length t < i * t_PieceLength t + t_PieceLength t)%Z); [|lia].
    apply wrap64_id. lia. }
  split; [done|]. unfold attemptDownloadPiece, make. cbn [pw_length].
  rewrite Hsize. destruct (decide (t_Length t - i * t_PieceLength t < 0)%Z); [done | lia].
Qed.

Lemma X15_piece_behind_the_end_witness :
  let t := {| t_Peers := []; t_PeerID := []; t_InfoHash := []; t_PieceHashes := [];
              t_PieceLength := 1; t_Length := 1; t_Name := "" |} in
  calculatePieceSize t 2 = (t_Length t - 2 * t_PieceLength t)%Z
  /\ attemptDownloadPiece unasked_client
       {| pw_index := 2; pw_hash := []; pw_length := calculatePieceSize t 2 |}
     = (Panic "makeslice: len out of range", unasked_client).
Proof.
  intros t. apply (X15_piece_behind_the_end t 2); vm_compute; done.
Defined.

Section assembling.

Lemma slice_nat {A} (s : list A) (b e : nat) :
  b <= e <= length s ->
  slice s (Z.of_nat b) (Z.of_nat e) = Ok (take (e - b) (drop b s)).
Proof.
  intros Hbe. unfold slice, len.
  destruct (Z.leb_spec 0 (Z.of_nat b)); [|lia].
  destruct (Z.leb_spec (Z.of_nat b) (Z.of_nat e)); [|lia].
  destruct (Z.leb_spec (Z.of_nat e) (Z.of_nat (length s))); [|lia].
  simpl. rewrite Nat2Z.id. do 2 f_equal. lia.
Qed.

Lemma place_spec (buf_ src : bytes) (b e : nat) :
  b <= e <= length buf_ -> length src = e - b ->
  place buf_ (Z.of_nat b) (Z.of_nat e) src = Ok (take b buf_ ++ src ++ drop e buf_).
Proof.
  intros Hbe Hsrc. unfold place. rewrite slice_nat by done.
  cbn [mbind result_bind]. rewrite !Nat2Z.id.
  rewrite copy_full; [done|]. rewrite length_take, length_drop. lia.
Qed.

Lemma placed_lookup (buf_ src : bytes) (b e j : nat) :
  b <= e <= length buf_ -> length src = e - b ->
  (take b buf_ ++ src ++ drop e buf_) !! j
  = if decide (b <= j < e) then src !! (j - b) else buf_ !! j.
Proof.
  intros Hbe Hsrc.
  destruct (decide (j < b)) as [Hjb|Hjb].
  - rewrite lookup_app_l by (rewrite length_take; lia).
    rewrite lookup_take_lt by done. destruct (decide (b <= j < e)); [lia | done].
  - rewrite lookup_app_r by (rewrite length_take; lia).
    rewrite length_take. replace (b `min` length buf_) with b by lia.
    destruct (decide (b <= j < e)) as [Hin|Hout].
    + rewrite lookup_app_l by lia. done.
    + rewrite lookup_app_r by lia. rewrite lookup_drop. f_equal. lia.
Qed.

Variables (t : Torrent) (F : bytes).
Hypothesis Hpl : (0 < t_PieceLength t)%Z.
Hypothesis HF : len F = t_Length t.
Hypothesis Hmax : (t_Length t + t_PieceLength t <= maxInt64)%Z.
Hypothesis Hcount :
  ((len (t_PieceHashes t) - 1) * t_PieceLength t < t_Length t
   <= len (t_PieceHashes t) * t_PieceLength t)%Z.

(** The positions of piece [i]. *)
Let inPiece (i j : nat) : Prop :=
  (Z.of_nat i * t_PieceLength t <= Z.of_nat j)%Z
  /\ (Z.of_nat j < (Z.of_nat i + 1) * t_PieceLength t)%Z
  /\ j < length F.

Lemma pieceOf_spec (i : nat) :
  i < length (t_PieceHashes t) ->
  exists b e,
    calculateBoundsForPiece t (Z.of_nat i) = (Z.of_nat b, Z.of_nat e)
    /\ pieceOf t F i = {| pr_index := Z.of_nat i; pr_buf := window F b (e - b) |}
    /\ b <= e <= length F
    /\ forall j, inPiece i j <-> b <= j < e.
Proof.
  intros Hi. unfold len in *.
  assert (Hin : (Z.of_nat i * t_PieceLength t <= t_Length t)%Z) by nia.
  assert (Hb : (0 <= Z.of_nat i * t_PieceLength t)%Z) by nia.
  exists (Z.to_nat (Z.of_nat i * t_PieceLength t)),
         (Z.to_nat (Z.min ((Z.of_nat i + 1) * t_PieceLength t) (t_Length t))).
  rewrite !Z2Nat.id by lia.
  pose proof (bounds_inside t (Z.of_nat i) Hpl ltac:(lia) Hin Hmax) as Hbounds.
  split; [done|]. split.
  { unfold pieceOf. rewrite Hbounds. do 2 f_equal. lia. }
  split; [lia|]. intros j. unfold inPiece. lia.
Qed.

Lemma collect_agrees (rs : list pieceResult) :
  forall (buf_ : bytes) (d : Z) (S : nat -> Prop),
    length buf_ = length F ->
    Forall (fun res => exists i, i < length (t_PieceHashes t) /\ res = pieceOf t F i) rs ->
    (d + len rs = len (t_PieceHashes t))%Z ->
    (forall j, S j -> buf_ !! j = F !! j) ->
    exists buf',
      collect t rs buf_ d = Ok buf'
      /\ length buf' = length F
      /\ forall j, (S j \/ exists i, pieceOf t F i ∈ rs /\ inPiece i j) ->
                   buf' !! j = F !! j.
Proof.
  induction rs as [|res rs IH]; intros buf_ d S Hlen Hrs Hd HS.
  - exists buf_. cbn [collect]. unfold len in *. simpl in Hd.
    destruct (decide (d < Z.of_nat (length (t_PieceHashes t)))%Z); [lia|].
    split; [done|]. split; [done|].
    intros j [Hj|(i & Hi & _)]; [by apply HS | by apply elem_of_nil in Hi].
  - inversion Hrs as [|? ? (i & Hi & ->) Hrs']; subst.
    cbn [collect]. unfold len in *. simpl in Hd.
    destruct (decide (d < Z.of_nat (length (t_PieceHashes t)))%Z); [|lia].
    destruct (pieceOf_spec i Hi) as (b & e & Hbounds & Hpiece & Hbe & Hrange).
    rewrite Hpiece. cbn [pr_index pr_buf]. rewrite Hbounds.
    assert (Hsrc : length (window F b (e - b)) = e - b).
    { apply window_length. lia. }
    rewrite place_spec by (done || lia). cbn [mbind result_bind].
    destruct (IH (take b buf_ ++ window F b (e - b) ++ drop e buf_) (d + 1)%Z
                 (fun j => S j \/ inPiece i j)) as (buf' & Hc & Hl & Hag).
    + rewrite !length_app, length_take, length_drop, Hsrc. lia.
    + done.
    + lia.
    + intros j Hj. rewrite placed_lookup by (done || lia).
      destruct (decide (b <= j < e)) as [Hin|Hout].
      * unfold window. rewrite lookup_take_lt by lia. rewrite lookup_drop.
        f_equal. lia.
      * destruct Hj as [Hj|Hj]; [by apply HS | by apply Hrange in Hj].
    + exists buf'. split; [done|]. split; [done|].
      intros j [Hj|(i' & Hi' & Hj)]; [apply Hag; by left; left|].
      rewrite <- Hpiece in Hi'. apply elem_of_cons in Hi' as [Heq|Hi'].
      * apply Hag. left. right.
        assert (i' = i); [|by subst].
        apply (f_equal pr_index) in Heq. unfold pieceOf in Heq.
        destruct (calculateBoundsForPiece t (Z.of_nat i')).
        destruct (calculateBoundsForPiece t (Z.of_nat i)). simpl in Heq. lia.
      * apply Hag. right. by exists i'.
Qed.

Lemma Download_assembles (results : list pieceResult) :
  results ≡ₚ pieceOf t F <$> seq 0 (length (t_PieceHashes t)) ->
  Download t results = Ok F.
Proof.
  intros Hperm. unfold Download, make. rewrite <- HF.
  destruct (decide (len F < 0)%Z) as [Hneg|_]; [unfold len in Hneg; lia|].
  cbn [mbind result_bind]. unfold len at 1. rewrite Nat2Z.id.
  destruct (collect_agrees results (replicate (length F) (byteOf 0)) 0 (fun _ => False))
    as (buf' & Hc & Hl & Hag).
  - by rewrite length_replicate.
  - rewrite Hperm. apply Forall_fmap, Forall_forall.
    intros i Hi%elem_of_seq. exists i. split; [lia | done].
  - unfold len. rewrite Hperm, length_fmap, length_seq. lia.
  - done.
  - rewrite Hc. f_equal. apply list_eq. intros j.
    destruct (decide (j < length F)) as [Hj|Hj].
    2:{ rewrite !lookup_ge_None_2; [done | lia | lia]. }
    apply Hag. right.
    unfold len in *.
    assert (Hdiv : (Z.of_nat j / t_PieceLength t * t_PieceLength t <= Z.of_nat j
                    < (Z.of_nat j / t_PieceLength t + 1) * t_PieceLength t)%Z).
    { pose proof (Z.div_mod (Z.of_nat j) (t_PieceLength t) ltac:(lia)).
      pose proof (Z.mod_pos_bound (Z.of_nat j) (t_PieceLength t) Hpl). lia. }
    assert (Hq : (0 <= Z.of_nat j / t_PieceLength t)%Z) by (apply Z.div_pos; lia).
    exists (Z.to_nat (Z.of_nat j / t_PieceLength t)). split.
    + rewrite Hperm. apply list_elem_of_fmap. eexists. split; [done|].
      apply elem_of_seq. split; [lia|]. simpl.
      assert (Z.of_nat j / t_PieceLength t < Z.of_nat (length (t_PieceHashes t)))%Z; [|lia].
      apply Z.div_lt_upper_bound; lia.
    + unfold inPiece. rewrite Z2Nat.id by lia. lia.
Qed.

End assembling.

(** X16: [Download] puts the file together from the pieces, whatever
    the order they arrive in.  With a positive piece length and as many
    piece hashes as the length of the file takes pieces, when the
    workers send, in any order, every piece of a file once, [Download]
    returns the file. *)
Theorem X16_Download_assembles (t : Torrent) (F : bytes) (results : list pieceResult) :
  (0 < t_PieceLength t)%Z -> len F = t_Length t ->
  (t_Length t + t_PieceLength t <= maxInt64)%Z ->
  ((len (t_PieceHashes t) - 1) * t_PieceLength t < t_Length t
   <= len (t_PieceHashes t) * t_PieceLength t)%Z ->
  results ≡ₚ pieceOf t F <$> seq 0 (length (t_PieceHashes t)) ->
  Download t results = Ok F.
Proof. intros. by apply Download_assembles. Qed.

Lemma X16_Download_assembles_witness :
  Download {| t_Peers := []; t_PeerID := []; t_InfoHash := [];
              t_PieceHashes := [[]; []; []];
              t_PieceLength := 2; t_Length := 5; t_Name := "" |}
           [ {| pr_index := 2; pr_buf := bs "e" |};
             {| pr_index := 0; pr_buf := bs "ab" |};
             {| pr_index := 1; pr_buf := bs "cd" |} ]
  = Ok (bs "abcde").
Proof.
  apply (X16_Download_assembles _ (bs "abcde")).
  - reflexivity.
  - reflexivity.
  - vm_compute. discriminate.
  - vm_compute. split; [reflexivity | discriminate].
  - change (pieceOf _ (bs "abcde") <$> seq 0 _)
      with [ {| pr_index := 0; pr_buf := bs "ab" |};
             {| pr_index := 1; pr_buf := bs "cd" |};
             {| pr_index := 2; pr_buf := bs "e" |} ].
    apply Permutation_cons_app with (l1 := [_; _]) (l2 := []). reflexivity.
Defined.

Section work_items.
Variable t : Torrent.
Hypothesis Hpl : (0 < t_PieceLength t)%Z.
Hypothesis Hmax : (t_Length t + t_PieceLength t <= maxInt64)%Z.

Lemma sizes_total (k : nat) :
  (0 <= t_Length t)%Z ->
  ((Z.of_nat k - 1) * t_PieceLength t < t_Length t)%Z ->
  total (calculatePieceSize t ∘ Z.of_nat <$> seq 0 k)
  = Z.min (Z.of_nat k * t_PieceLength t) (t_Length t).
Proof.
  intros Hlen. induction k as [|k IH]; intros Hk.
  { simpl. lia. }
  rewrite seq_S, fmap_app. unfold total in *. rewrite foldr_app. simpl.
  assert (Hin : (Z.of_nat k * t_PieceLength t <= t_Length t)%Z) by lia.
  assert (Hsize : calculatePieceSize t (Z.of_nat k)
                  = (Z.min ((Z.of_nat k + 1) * t_PieceLength t) (t_Length t)
                     - Z.of_nat k * t_PieceLength t)%Z).
  { unfold calculatePieceSize. rewrite bounds_inside by (done || lia).
    unfold maxInt64 in Hmax. assert (0 <= Z.of_nat k * t_PieceLength t)%Z by nia.
    apply wrap64_id. lia. }
  rewrite Hsize.
  assert (Hshift : forall a l, foldr Z.add a l = (a + foldr Z.add 0 l)%Z).
  { intros a l. induction l as [|x l IHl]; simpl; lia. }
  rewrite Hshift, IH by lia. lia.
Qed.

End work_items.

(** X22: the work [Download] hands out.  There is one work item for
    every piece hash, item [i] carrying the index [i], hash [i] and the
    size of piece [i]; with a positive piece length and as many piece
    hashes as the length of the file takes pieces, the lengths of the
    work items add up to the length of the file. *)
Theorem X22_work_covers_the_file (t : Torrent) :
  (0 < t_PieceLength t)%Z -> (0 <= t_Length t)%Z ->
  (t_Length t + t_PieceLength t <= maxInt64)%Z ->
  ((len (t_PieceHashes t) - 1) * t_PieceLength t < t_Length t
   <= len (t_PieceHashes t) * t_PieceLength t)%Z ->
  length (workQueue t) = length (t_PieceHashes t)
  /\ (forall i hash, t_PieceHashes t !! i = Some hash ->
        workQueue t !! i
        = Some {| pw_index := Z.of_nat i; pw_hash := hash;
                  pw_length := calculatePieceSize t (Z.of_nat i) |})
  /\ total (pw_length <$> workQueue t) = t_Length t.
Proof.
  intros Hpl Hlen Hmax [Hlo Hhi]. unfold workQueue.
  split; [apply length_imap|]. split.
  { intros i hash Hi. by rewrite list_lookup_imap, Hi. }
  rewrite fmap_imap.
  rewrite (imap_ext _ (fun i _ => calculatePieceSize t (Z.of_nat i))) by done.
  rewrite imap_seq_0.
  rewrite (sizes_total t Hpl Hmax) by (done || unfold len in Hlo; lia).
  unfold len in Hhi. lia.
Qed.

Lemma X22_work_covers_the_file_witness :
  let t := {| t_Peers := []; t_PeerID := []; t_InfoHash := [];
              t_PieceHashes := [bs "h0"; bs "h1"; bs "h2"];
              t_PieceLength := 32; t_Length := 65; t_Name := "" |} in
  length (workQueue t) = length (t_PieceHashes t)
  /\ (forall i hash, t_PieceHashes t !! i = Some hash ->
        workQueue t !! i
        = Some {| pw_index := Z.of_nat i; pw_hash := hash;
                  pw_length := calculatePieceSize t (Z.of_nat i) |})
  /\ total (pw_length <$> workQueue t) = t_Length t.
Proof.
  intros t. apply (X22_work_covers_the_file t).
  - reflexivity.
  - vm_compute. discriminate.
  - vm_compute. discriminate.
  - vm_compute. split; [reflexivity | discriminate].
Defined.

Section request_blocks.

Lemma seq_snoc (a m : nat) : seq a (S m) = seq a m ++ [a + m].
Proof. by rewrite seq_S. Qed.

(** The requests the inner loop writes are the next blocks of the
    piece. *)
Lemma requestLoop_blocks (n : nat) (pw : pieceWork) :
  forall state r state' (K : nat),
    requestLoop n pw state = (r, state') ->
    requested state = Z.min (Z.of_nat K * MaxBlockSize) (pw_length pw) ->
    exists m : nat,
      sent (conn (client state'))
      = rev (blockAt pw <$> seq K m) ++ sent (conn (client state))
      /\ requested state' = Z.min (Z.of_nat (K + m) * MaxBlockSize) (pw_length pw).
Proof.
  induction n as [|n IH]; intros state r state' K Hloop Hreq.
  - simpl in Hloop. exists 0. rewrite Nat.add_0_r.
    by destruct (decide _); injection Hloop as <- <-.
  - cbn [requestLoop] in Hloop.
    destruct (decide (backlog state < MaxBacklog ∧ requested state < pw_length pw)%Z)
      as [[Hb Hr]|Hno].
    2:{ injection Hloop as <- <-. exists 0. by rewrite Nat.add_0_r. }
    assert (Hk : requested state = (Z.of_nat K * MaxBlockSize)%Z) by lia.
    set (blockSize := if decide (pw_length pw - requested state < MaxBlockSize)%Z
                      then (pw_length pw - requested state)%Z else MaxBlockSize) in *.
    assert (Hbs : blockSize = Z.min MaxBlockSize (pw_length pw - Z.of_nat K * MaxBlockSize)).
    { subst blockSize. destruct (decide _); lia. }
    assert (Hblock : (pw_index pw, requested state, blockSize) = blockAt pw K).
    { unfold blockAt. by rewrite Hk, Hbs. }
    assert (Hnext : (requested state + blockSize)%Z
                    = Z.min (Z.of_nat (S K) * MaxBlockSize) (pw_length pw)).
    { rewrite Hk, Hbs. unfold MaxBlockSize. lia. }
    unfold SendRequest in Hloop.
    destruct (writes (conn (client state))) as [|[e|] ws] eqn:Hw.
    + apply (IH _ _ _ (S K)) in Hloop as (m & Hs & Hr'); [|done].
      exists (S m). cbn [sent conn client setConn] in Hs.
      split.
      * rewrite Hs, Hblock. simpl. by rewrite <- app_assoc.
      * rewrite Hr'. do 2 f_equal. lia.
    + injection Hloop as <- <-. exists 0. by rewrite Nat.add_0_r.
    + apply (IH _ _ _ (S K)) in Hloop as (m & Hs & Hr'); [|done].
      exists (S m). cbn [sent conn client setConn] in Hs.
      split.
      * rewrite Hs, Hblock. simpl. by rewrite <- app_assoc.
      * rewrite Hr'. do 2 f_equal. lia.
Qed.

Lemma iteration_blocks (pw : pieceWork) (state : pieceProgress) (r : result unit)
    (state' : pieceProgress) (K : nat) :
  iteration pw state = (r, state') ->
  requested state = Z.min (Z.of_nat K * MaxBlockSize) (pw_length pw) ->
  exists m : nat,
    sent (conn (client state'))
    = rev (blockAt pw <$> seq K m) ++ sent (conn (client state))
    /\ requested state' = Z.min (Z.of_nat (K + m) * MaxBlockSize) (pw_length pw).
Proof.
  unfold iteration. intros Hit Hreq.
  destruct (if Choked (client state) then (Ok (), state)
            else requestLoop (Z.to_nat (pw_length pw)) pw state)
    as [r1 state1] eqn:Hphase.
  assert (Hnew : exists m : nat,
             sent (conn (client state1))
             = rev (blockAt pw <$> seq K m) ++ sent (conn (client state))
             /\ requested state1 = Z.min (Z.of_nat (K + m) * MaxBlockSize) (pw_length pw)).
  { destruct (Choked (client state)).
    - injection Hphase as <- <-. exists 0. by rewrite Nat.add_0_r.
    - by eapply requestLoop_blocks. }
  destruct Hnew as (m & Hs & Hr). exists m.
  destruct r1 as [[]| | |]; try (injection Hit as <- <-; done).
  pose proof (readMessage_spec state1) as Hread. cbv zeta in Hread.
  rewrite Hit in Hread. simpl in Hread.
  destruct Hread as (Hr' & _ & _ & Hs' & _). by rewrite Hs', Hr'.
Qed.

Lemma reachable_blocks (c : Client) (pw : pieceWork) (state : pieceProgress) :
  reachable c pw state ->
  exists K : nat,
    sent (conn (client state)) = rev (blockAt pw <$> seq 0 K) ++ sent (conn c)
    /\ requested state = Z.min (Z.of_nat K * MaxBlockSize) (pw_length pw).
Proof.
  induction 1 as [b Hb|state r state' _ (K & Hs & Hr) Hlt Hit].
  - exists 0. apply make_Ok in Hb as [Hn _]. split; [done|]. simpl. lia.
  - destruct (iteration_blocks pw state r state' K Hit Hr) as (m & Hs' & Hr').
    exists (K + m). split; [|done].
    rewrite Hs', Hs, app_assoc. f_equal.
    rewrite <- rev_app_distr, <- fmap_app. by rewrite seq_app.
Qed.

End request_blocks.

(** X17: the requests of an attempt.  After every turn of the loop of
    [attemptDownloadPiece], the requests written so far are, in the
    order they were written, the requests for the first blocks of the
    piece: request [k] has the index of the piece, starts at
    [k * MaxBlockSize] and asks for [MaxBlockSize] bytes, or for what is
    left of the piece when that is less; [requested] is the offset
    behind the last of them. *)
Theorem X17_requests_are_blocks (c : Client) (pw : pieceWork) (state : pieceProgress) :
  reachable c pw state ->
  exists K : nat,
    rev (attemptRequests c state) = blockAt pw <$> seq 0 K
    /\ requested state = Z.min (Z.of_nat K * MaxBlockSize) (pw_length pw).
Proof.
  intros (K & Hs & Hr)%reachable_blocks. exists K. split; [|done].
  rewrite (attemptRequests_log c state _ Hs). apply rev_involutive.
Qed.

Lemma X17_requests_are_blocks_witness :
  exists K : nat,
    rev (attemptRequests answering_client answered_state) = blockAt small_piece <$> seq 0 K
    /\ requested answered_state
       = Z.min (Z.of_nat K * MaxBlockSize) (pw_length small_piece).
Proof.
  apply (X17_requests_are_blocks answering_client small_piece answered_state).
  eapply reach_iteration.
  - eapply reach_iteration.
    + apply reach_init. vm_compute. reflexivity.
    + vm_compute. reflexivity.
    + vm_compute. reflexivity.
  - vm_compute. reflexivity.
  - vm_compute. reflexivity.
Defined.

Section choked.

Lemma copyPieceData_client (state : pieceProgress) (i : Z) (payload : bytes) :
  client (snd (copyPieceData state i payload)) = client state.
Proof.
  unfold copyPieceData.
  destruct (ParsePieceMessage i payload) as [[begin block]| | |]; try done.
  destruct (decide _); [done|]. by destruct (decide _).
Qed.

(** A turn of the loop while choked, when the message read does not
    unchoke: nothing is written, and we stay choked. *)
Lemma iteration_choked (pw : pieceWork) (state : pieceProgress) (r : result unit)
    (state' : pieceProgress) :
  Choked (client state) = true ->
  neverUnchokes (incoming (conn (client state))) ->
  iteration pw state = (r, state') ->
  Choked (client state') = true
  /\ neverUnchokes (incoming (conn (client state')))
  /\ sent (conn (client state')) = sent (conn (client state))
  /\ requested state' = requested state.
Proof.
  intros Hch Hnu. unfold iteration. rewrite Hch.
  unfold readMessage, Read.
  destruct (incoming (conn (client state))) as [|[e|[msg|]] rest] eqn:Hin.
  - intros [= <- <-]. simpl. by rewrite Hin.
  - intros [= <- <-]. simpl. by inversion Hnu.
  - inversion Hnu as [|? ? Hmsg Hrest]; subst.
    specialize (Hmsg msg eq_refl).
    destruct (decide (ID msg = MsgUnchoke)); [done|].
    destruct (decide (ID msg = MsgChoke)); [by intros [= <- <-]|].
    destruct (decide (ID msg = MsgHave)).
    { destruct (ParseHaveMessage (Payload msg)); by intros [= <- <-]. }
    destruct (decide (ID msg = MsgPiece)); [|by intros [= <- <-]].
    set (state1 := setClient state _).
    pose proof (copyPieceData_client state1 (index state1) (Payload msg)) as Hc.
    assert (Hreq : requested (snd (copyPieceData state1 (index state1) (Payload msg)))
                   = requested state1).
    { unfold copyPieceData.
      destruct (ParsePieceMessage _ _) as [[begin block]| | |]; try done.
      destruct (decide _); [done|]. by destruct (decide _). }
    destruct (copyPieceData state1 (index state1) (Payload msg)) as [[n'| | |] state2];
      simpl in Hc, Hreq; intros [= <- <-]; simpl; rewrite ?Hc, ?Hreq; done.
  - intros [= <- <-]. simpl. by inversion Hnu.
Qed.

Lemma reachable_choked (c : Client) (pw : pieceWork) (state : pieceProgress) :
  Choked c = true -> neverUnchokes (incoming (conn c)) ->
  reachable c pw state ->
  Choked (client state) = true
  /\ neverUnchokes (incoming (conn (client state)))
  /\ sent (conn (client state)) = sent (conn c)
  /\ requested state = 0%Z.
Proof.
  intros Hch Hnu. induction 1 as [b Hb|state r state' _ (IH1 & IH2 & IH3 & IH4) Hlt Hit].
  - done.
  - destruct (iteration_choked pw state r state' IH1 IH2 Hit) as (H1 & H2 & H3 & H4).
    repeat split; congruence.
Qed.

End choked.

(** X18: no request is written while the peer chokes us.  When the
    session starts choked and none of the messages to come is an
    unchoke, then after every turn of the loop of [attemptDownloadPiece]
    nothing has been written to the peer and [requested] is 0, whatever
    else the peer sends. *)
Theorem X18_no_request_while_choked (c : Client) (pw : pieceWork)
    (state : pieceProgress) :
  Choked c = true -> neverUnchokes (incoming (conn c)) ->
  reachable c pw state ->
  sent (conn (client state)) = sent (conn c)
  /\ attemptRequests c state = []
  /\ requested state = 0%Z.
Proof.
  intros Hch Hnu Hreach.
  destruct (reachable_choked c pw state Hch Hnu Hreach) as (_ & _ & Hs & Hr).
  split; [done|]. split; [|done]. by apply attemptRequests_log.
Qed.

Lemma X18_no_request_while_choked_witness :
  exists state,
    reachable unasked_client small_piece state
    /\ downloaded state = 2%Z
    /\ sent (conn (client state)) = sent (conn unasked_client)
    /\ attemptRequests unasked_client state = []
    /\ requested state = 0%Z.
Proof.
  eexists. split; [|split].
  - eapply reach_iteration.
    + apply reach_init. vm_compute. reflexivity.
    + vm_compute. reflexivity.
    + vm_compute. reflexivity.
  - reflexivity.
  - eapply (X18_no_request_while_choked unasked_client small_piece).
    + reflexivity.
    + repeat constructor. intros msg [= <-]. discriminate.
    + eapply reach_iteration.
      * apply reach_init. vm_compute. reflexivity.
      * vm_compute. reflexivity.
      * vm_compute. reflexivity.
Defined.

Section served.

(** What a turn of the loop does to the buffer and to the messages to
    come. *)
Lemma iteration_buf (pw : pieceWork) (state : pieceProgress) (r : result unit)
    (state' : pieceProgress) :
  iteration pw state = (r, state') ->
  (requested state <= pw_length pw)%Z ->
  (incoming (conn (client state')) = incoming (conn (client state))
   \/ incoming (conn (client state')) = tail (incoming (conn (client state))))
  /\ match acceptedBlock state r with
     | Some req =>
         exists msg block rest,
           incoming (conn (client state)) = ReadMsg (Some msg) :: rest
           /\ ParsePieceMessage (index state) (Payload msg) = Ok (req.1.2, block)
           /\ req.2 = len block
           /\ (0 <= req.1.2)%Z /\ (req.1.2 + len block <= len (buf state))%Z
           /\ buf state' = copyAt (buf state) req.1.2 block
     | None => buf state' = buf state
     end.
Proof.
  unfold iteration. intros Hit Hreq.
  destruct (if Choked (client state) then (Ok (), state)
            else requestLoop (Z.to_nat (pw_length pw)) pw state)
    as [r1 state1] eqn:Hphase.
  assert (Hnew : exists new, requestsWritten pw state state1 new).
  { destruct (Choked (client state)).
    - injection Hphase as <- <-. exists [].
      split; simpl; try done; unfold len; simpl; lia.
    - eapply requestLoop_spec; [done | lia]. }
  destruct Hnew as [new [_ _ _ _ _ _ Hrbuf Hridx Hrinc _]].
  assert (Hacc1 : forall rr, acceptedBlock state1 rr = acceptedBlock state rr).
  { intros rr. unfold acceptedBlock, nextMessage. by rewrite Hrinc, Hridx. }
  destruct r1 as [[]| | |];
    try (injection Hit as <- <-; rewrite Hrbuf; split; [by left | done]).
  rewrite <- Hacc1, <- Hrinc, <- Hrbuf, <- Hridx.
  clear Hphase Hacc1 Hrbuf Hridx Hrinc Hreq.
  revert Hit. unfold acceptedBlock, nextMessage, readMessage, Read.
  destruct (incoming (conn (client state1))) as [|[e|[msg|]] rest] eqn:Hin.
  - intros [= <- <-]. simpl. rewrite Hin. split; [by left | done].
  - intros [= <- <-]. simpl. split; [by right | done].
  - destruct (decide (ID msg = MsgPiece)) as [Hp|Hp].
    2:{ destruct (decide (ID msg = MsgUnchoke)); [intros [= <- <-]; simpl; by split; [right|]|].
        destruct (decide (ID msg = MsgChoke)); [intros [= <- <-]; simpl; by split; [right|]|].
        destruct (decide (ID msg = MsgHave)); [|intros [= <- <-]; simpl; by split; [right|]].
        destruct (ParseHaveMessage (Payload msg));
          intros [= <- <-]; simpl; by split; [right|]. }
    destruct (decide (ID msg = MsgUnchoke)) as [He|_]; [by rewrite Hp in He|].
    destruct (decide (ID msg = MsgChoke)) as [He|_]; [by rewrite Hp in He|].
    destruct (decide (ID msg = MsgHave)) as [He|_]; [by rewrite Hp in He|].
    set (state2 := setClient state1 _).
    change (index state1) with (index state2).
    change (buf state1) with (buf state2).
    pose proof (copyPieceData_client state2 (index state2) (Payload msg)) as Hcl.
    destruct (copyPieceData_spec state2 (Payload msg)) as [Hspec Herr].
    destruct (decide (pieceAccepted state2 (Payload msg))) as [Hacc|Hno].
    + rewrite Hspec. intros [= <- <-]. rewrite ParsePieceMessage_spec.
      destruct Hacc as (H8 & Hi & Hb & Hl).
      destruct (decide (length (Payload msg) < 8)); [lia|].
      destruct (decide (uint32At (Payload msg) 0 ≠ index state2)); [done|].
      split; [by right|]. exists msg, (drop 8 (Payload msg)), rest.
      cbn [fst snd buf]. split; [done|]. split.
      { rewrite ParsePieceMessage_spec.
        destruct (decide (length (Payload msg) < 8)); [lia|].
        by destruct (decide (uint32At (Payload msg) 0 ≠ index state2)). }
      split; [done|]. split; [apply uint32At_range|]. by split.
    + destruct (Herr Hno) as [e He].
      destruct (copyPieceData state2 (index state2) (Payload msg)) as [rr ss].
      simpl in He, Hcl, Hspec. injection Hspec as ->. subst rr. intros [= <- <-].
      simpl. split; [by right | done].
  - intros [= <- <-]. simpl. split; [by right | done].
Qed.

Lemma serves_suffix (D : bytes) (pw : pieceWork) (inc inc' : list readResult) :
  serves D pw inc -> inc' = inc \/ inc' = tail inc -> serves D pw inc'.
Proof.
  intros Hs [->| ->]; [done|]. destruct inc; [done|]. by inversion Hs.
Qed.

Lemma copyAt_lookup (dst block : bytes) (begin : Z) (j : nat) :
  (0 <= begin)%Z -> (begin + len block <= len dst)%Z ->
  copyAt dst begin block !! j
  = if decide (begin <= Z.of_nat j < begin + len block)%Z
    then block !! (j - Z.to_nat begin) else dst !! j.
Proof.
  intros Hb Hle. rewrite copyAt_inside by done. unfold len in *.
  rewrite (placed_lookup dst block (Z.to_nat begin) (Z.to_nat begin + length block) j)
    by lia.
  destruct (decide (Z.to_nat begin <= j < Z.to_nat begin + length block));
    destruct (decide (begin <= Z.of_nat j < begin + Z.of_nat (length block))%Z);
    done || lia.
Qed.

Variables (c : Client) (pw : pieceWork) (D : bytes).
Hypothesis HD : len D = pw_length pw.
Hypothesis Hserves : serves D pw (incoming (conn c)).

(** In an attempt in which the peer only answers, with bytes of [D]: the
    buffer holds the bytes of [D] wherever an answered request points. *)
Lemma answering_served (state : pieceProgress) (answered : list (Z * Z * Z)) :
  answering c pw state answered ->
  serves D pw (incoming (conn (client state)))
  /\ forall q (j : nat),
       q ∈ answered -> (q.1.2 <= Z.of_nat j < q.1.2 + q.2)%Z ->
       buf state !! j = D !! j.
Proof.
  induction 1 as [b Hb
                 |state answered r state' Hans [IHs IHb] Hlt Hit Hnone
                 |state answered r state' req Hans [IHs IHb] Hlt Hit Hsome Hin Hfresh].
  - split; [done|]. intros q j Hq. by apply elem_of_nil in Hq.
  - pose proof (reachable_bounds _ _ _ (answering_reachable _ _ _ _ Hans))
      as ([_ Hreq] & _).
    destruct (iteration_buf pw state r state' Hit Hreq) as [Hinc Hbuf].
    rewrite Hnone in Hbuf. rewrite Hbuf.
    split; [by eapply serves_suffix | done].
  - pose proof (reachable_bounds _ _ _ (answering_reachable _ _ _ _ Hans))
      as ([_ Hreq] & _ & _ & Hidx & Hlen).
    destruct (iteration_buf pw state r state' Hit Hreq) as [Hinc Hbuf].
    rewrite Hsome in Hbuf.
    destruct Hbuf as (msg & block & rest & Hhead & Hparse & Hl & Hb0 & Hb1 & Hbuf).
    split; [by eapply serves_suffix|].
    assert (Hblock : block = window D (Z.to_nat req.1.2) (length block)).
    { rewrite Hhead in IHs. inversion IHs as [|? ? Hmsg _]; subst.
      eapply Hmsg; [done|]. by rewrite <- Hidx. }
    intros q j Hq Hj. rewrite Hbuf, copyAt_lookup by done.
    destruct (decide (req.1.2 <= Z.of_nat j < req.1.2 + len block)%Z) as [Hnew|Hold].
    + rewrite Hblock at 1. unfold window, len in *.
      rewrite lookup_take_lt by lia. rewrite lookup_drop. f_equal. lia.
    + apply elem_of_cons in Hq as [->|Hq]; [lia|]. by eapply IHb.
Qed.

Lemma reqBytes_zero (k : list (Z * Z * Z)) :
  Forall (fun q => 0 < q.2)%Z k -> reqBytes k = 0%Z -> k = [].
Proof.
  destruct 1 as [|q k Hq Hk]; [done|]. simpl.
  pose proof (reqBytes_nonneg _ Hk). lia.
Qed.

Lemma download_correct (state : pieceProgress) (answered : list (Z * Z * Z)) :
  answering c pw state answered ->
  (pw_length pw <= downloaded state)%Z ->
  buf state = D.
Proof.
  intros Hans Hdone.
  pose proof (answering_reachable _ _ _ _ Hans) as Hreach.
  pose proof (reachable_bounds _ _ _ Hreach) as ([Hr0 Hreq] & _ & _ & _ & Hlen).
  destruct (answering_balanced _ _ _ _ Hans)
    as [_ bal_requested _ bal_downloaded bal_distinct bal_answers bal_sizes].
  destruct (answering_served _ _ Hans) as [_ Hbuf].
  destruct (reachable_blocks _ _ _ Hreach) as (K & Hsent & HK).
  pose proof (attemptRequests_log _ _ _ Hsent) as Hreqs.
  (* every request has been answered *)
  pose proof (NoDup_submseteq _ _ bal_distinct bal_answers) as Hms.
  apply submseteq_Permutation in Hms as [k Hk].
  assert (Hkpos : Forall (fun q => 0 < q.2)%Z k).
  { rewrite Hk in bal_sizes. by apply Forall_app in bal_sizes as [_ ?]. }
  assert (Hk0 : k = []).
  { apply reqBytes_zero; [done|].
    pose proof (reqBytes_Permutation _ _ Hk) as Hsum. rewrite reqBytes_app in Hsum.
    pose proof (reqBytes_nonneg _ Hkpos). lia. }
  subst k. rewrite app_nil_r in Hk.
  assert (Hfull : requested state = pw_length pw).
  { rewrite (reqBytes_Permutation _ _ Hk) in bal_requested. lia. }
  apply list_eq. intros j. unfold len in *.
  destruct (decide (j < length D)) as [Hj|Hj].
  2:{ rewrite !lookup_ge_None_2; [done | lia | lia]. }
  assert (Hdiv : (Z.of_nat j / MaxBlockSize * MaxBlockSize <= Z.of_nat j
                  < (Z.of_nat j / MaxBlockSize + 1) * MaxBlockSize)%Z).
  { unfold MaxBlockSize.
    pose proof (Z.div_mod (Z.of_nat j) 16384 ltac:(lia)).
    pose proof (Z.mod_pos_bound (Z.of_nat j) 16384 ltac:(lia)). lia. }
  assert (Hq0 : (0 <= Z.of_nat j / MaxBlockSize)%Z) by (apply Z.div_pos; unfold MaxBlockSize; lia).
  assert (HKj : (Z.of_nat j / MaxBlockSize < Z.of_nat K)%Z).
  { apply Z.div_lt_upper_bound; unfold MaxBlockSize in *; lia. }
  apply (Hbuf (blockAt pw (Z.to_nat (Z.of_nat j / MaxBlockSize)))).
  - rewrite <- Hk, Hreqs, rev_alt. apply elem_of_reverse_2, list_elem_of_fmap.
    eexists. split; [done|]. apply elem_of_seq. lia.
  - unfold blockAt. cbn [fst snd]. rewrite Z2Nat.id by lia. lia.
Qed.

End served.

(** X19: a download from a peer that answers with the right bytes gives
    the piece.  Let the peer send, in piece messages for this piece,
    only bytes of [D] at their offsets, [D] being as long as the piece,
    and let every block taken answer a request written during the
    attempt and not answered before.  Then in the state in which the
    loop of [attemptDownloadPiece] stops for having downloaded the
    length of the piece, the buffer it returns is [D]. *)
Theorem X19_download_correct (c : Client) (pw : pieceWork) (D : bytes)
    (state : pieceProgress) (answered : list (Z * Z * Z)) :
  len D = pw_length pw ->
  serves D pw (incoming (conn c)) ->
  answering c pw state answered ->
  (pw_length pw <= downloaded state)%Z ->
  buf state = D.
Proof. intros. by eapply download_correct. Qed.

Lemma X19_download_correct_witness : buf answered_state = bs "abcd".
Proof.
  apply (X19_download_correct answering_client small_piece (bs "abcd")
           answered_state [(3, 0, 4)%Z]).
  - reflexivity.
  - repeat constructor.
    + intros msg begin block [= <-]. vm_compute. discriminate.
    + intros msg begin block [= <-]. vm_compute. intros [= <- <-]. reflexivity.
  - eapply answering_block.
    + eapply answering_quiet.
      * apply answering_init. vm_compute. reflexivity.
      * vm_compute. reflexivity.
      * vm_compute. reflexivity.
      * vm_compute. reflexivity.
    + vm_compute. reflexivity.
    + vm_compute. reflexivity.
    + vm_compute. reflexivity.
    + vm_compute. apply list_elem_of_here.
    + apply not_elem_of_nil.
  - vm_compute. discriminate.
Defined.

Section outcomes.

Lemma downloadLoop_Ok (pw : pieceWork) (n : nat) :
  forall state b state',
    downloadLoop n pw state = (Ok b, state') ->
    b = buf state' /\ (pw_length pw <= downloaded state')%Z.
Proof.
  induction n as [|n IH]; intros state b state' Hloop.
  - simpl in Hloop. destruct (decide _); [done|]. injection Hloop as <- <-.
    split; [done | lia].
  - cbn [downloadLoop] in Hloop.
    destruct (decide (downloaded state < pw_length pw)%Z) as [Hlt|Hge].
    2:{ injection Hloop as <- <-. split; [done | lia]. }
    destruct (iteration pw state) as [[[]| | |] state1]; try done.
    by eapply IH.
Qed.

End outcomes.

(** X20: what a successful attempt returns.  When
    [attemptDownloadPiece] returns a buffer, the buffer is the one of
    the state the loop stopped in, a state in which [downloaded] has
    reached the length of the piece, and it has exactly the length of
    the piece; the session handed back is the one of that state. *)
Theorem X20_attempt_returns_piece_length (c : Client) (pw : pieceWork)
    (b : bytes) (c' : Client) :
  attemptDownloadPiece c pw = (Ok b, c') ->
  len b = pw_length pw
  /\ exists state,
       reachable c pw state /\ b = buf state /\ c' = client state
       /\ (pw_length pw <= downloaded state)%Z.
Proof.
  unfold attemptDownloadPiece.
  destruct (make (pw_length pw)) as [b0| | |] eqn:Hb; try done.
  destruct (downloadLoop _ pw _) as [r state] eqn:Hloop.
  intros [= -> <-].
  pose proof (downloadLoop_reachable c pw _ _ _ _ (reach_init c pw b0 Hb) Hloop) as Hreach.
  destruct (downloadLoop_Ok pw _ _ _ _ Hloop) as [-> Hdone].
  pose proof (reachable_bounds _ _ _ Hreach) as (_ & _ & _ & _ & Hlen).
  split; [done|]. by exists state.
Qed.

Lemma X20_attempt_returns_piece_length_witness :
  len (bs "abcd") = pw_length small_piece
  /\ exists state,
       reachable answering_client small_piece state /\ bs "abcd" = buf state
       /\ client answered_state = client state
       /\ (pw_length small_piece <= downloaded state)%Z.
Proof.
  apply (X20_attempt_returns_piece_length answering_client small_piece).
  vm_compute. reflexivity.
Defined.
